(** * Pragmatic sentence segmenter ([tokenize/pragmatic.go]): rule engine,
    rule tables and the quoted-span protector, embedded and verified.

    A Go [string] is an immutable byte sequence: it is modelled as
    [list ascii].  The [regexp] package reads it rune by rune through the
    UTF-8 decoder and reports byte offsets; [strings.Replace] and
    [strings.Replacer] work on the bytes.  A call that can panic or run
    forever returns an [outcome]. *)

From Stdlib Require Import ZArith Bool Ascii String Lia Arith List.
Import ListNotations.

Open Scope Z_scope.

(** ** Go strings *)

Definition gostring : Type := list ascii.

Definition str (s : string) : gostring := list_ascii_of_string s.
Arguments str s%_string.

Definition byteZ (c : ascii) : Z := Z.of_N (N_of_ascii c).

Definition len (s : gostring) : Z := Z.of_nat (length s).

(** The double quote, byte 34. *)
Definition dquote : ascii := ascii_of_nat 34.
(** The backslash, byte 92. *)
Definition backslash : ascii := ascii_of_nat 92.

Definition eqbytes (a b : gostring) : bool :=
  if list_eq_dec ascii_dec a b then true else false.

(** What a call can do: return, panic, or still be running when the
    iteration budget of the model is used up. *)
Inductive panic : Type :=
| IndexOutOfRange
| SliceBoundsOutOfRange
| NilDereference.

Inductive outcome (A : Type) : Type :=
| Done (a : A)
| Panics (p : panic)
| OutOfFuel.
Arguments Done {A} a.
Arguments Panics {A} p.
Arguments OutOfFuel {A}.

Definition returned {A} (o : outcome A) : bool :=
  match o with Done _ => true | _ => false end.

Definition stopped {A} (o : outcome A) : bool :=
  match o with OutOfFuel => false | _ => true end.

(** [s[:hi]] and [s[lo:]]: Go panics when the bound is outside
    [0 .. len(s)]. *)
Definition sliceTo (s : gostring) (hi : Z) : option gostring :=
  if (0 <=? hi) && (hi <=? len s) then Some (firstn (Z.to_nat hi) s) else None.

Definition sliceFrom (s : gostring) (lo : Z) : option gostring :=
  if (0 <=? lo) && (lo <=? len s) then Some (skipn (Z.to_nat lo) s) else None.

(** ** UTF-8 decoding, as [regexp]'s [inputString.step] does it *)

Definition RuneError : Z := 65533.

Definition isCont (b : Z) : bool := (128 <=? b) && (b <=? 191).

(** The range accepted for the second byte after leading byte [b0]. *)
Definition acceptLo (b0 : Z) : Z :=
  if b0 =? 224 then 160 else if b0 =? 240 then 144 else 128.
Definition acceptHi (b0 : Z) : Z :=
  if b0 =? 237 then 159 else if b0 =? 244 then 143 else 191.
Definition accepts (b0 b1 : Z) : bool :=
  (acceptLo b0 <=? b1) && (b1 <=? acceptHi b0).

(** One decoding step: the rune, its width in bytes and the rest of the
    text; [None] at the end of the text.  An invalid or truncated sequence
    is the rune U+FFFD of width one. *)
Definition step (s : gostring) : option (Z * Z * gostring) :=
  match s with
  | [] => None
  | c0 :: s1 =>
    let b0 := byteZ c0 in
    let bad := Some (RuneError, 1, s1) in
    if b0 <? 128 then Some (b0, 1, s1)
    else if (194 <=? b0) && (b0 <=? 223) then
      match s1 with
      | c1 :: s2 =>
        if isCont (byteZ c1)
        then Some ((b0 - 192) * 64 + (byteZ c1 - 128), 2, s2)
        else bad
      | _ => bad
      end
    else if (224 <=? b0) && (b0 <=? 239) then
      match s1 with
      | c1 :: c2 :: s3 =>
        if accepts b0 (byteZ c1) && isCont (byteZ c2)
        then Some ((b0 - 224) * 4096 + (byteZ c1 - 128) * 64
                   + (byteZ c2 - 128), 3, s3)
        else bad
      | _ => bad
      end
    else if (240 <=? b0) && (b0 <=? 244) then
      match s1 with
      | c1 :: c2 :: c3 :: s4 =>
        if accepts b0 (byteZ c1) && isCont (byteZ c2) && isCont (byteZ c3)
        then Some ((b0 - 240) * 262144 + (byteZ c1 - 128) * 4096
                   + (byteZ c2 - 128) * 64 + (byteZ c3 - 128), 4, s4)
        else bad
      | _ => bad
      end
    else bad
  end.

Definition width (s : gostring) : Z :=
  match step s with Some (_, w, _) => w | None => 0 end.

(** ** Regular expressions (the fragment of RE2 syntax the tables use)

    A literal is kept as the bytes of its runes: [literals_as_bytes] below
    shows that this finds the same matches as comparing the decoded runes
    one by one, for every pattern of the source. *)

Inductive regex : Type :=
| Eps                                  (* empty pattern *)
| Lit (bs : gostring)                  (* literal runes, as UTF-8 bytes *)
| Class (p : Z -> bool)                (* one rune of a class *)
| Cat (r1 r2 : regex)
| Alt (r1 r2 : regex)                  (* r1|r2, r1 preferred *)
| Star (r : regex)                     (* greedy r* *)
| Group (i : nat) (r : regex)          (* i-th capturing group *)
| BeginText                            (* ^ without the m flag *)
| EndText.                             (* $ without the m flag, and \z *)

Definition Plus (r : regex) : regex := Cat r (Star r).

Fixpoint cats (rs : list regex) : regex :=
  match rs with
  | [] => Eps
  | [r] => r
  | r :: rs' => Cat r (cats rs')
  end.

Fixpoint alts (rs : list regex) : regex :=
  match rs with
  | [] => Eps
  | [r] => r
  | r :: rs' => Alt r (alts rs')
  end.

(** Rune classes. *)
Definition inRange (lo hi : Z) (r : Z) : bool := (lo <=? r) && (r <=? hi).
Definition isDigit : Z -> bool := inRange 48 57.                 (* \d *)
Definition isSpace (r : Z) : bool :=                              (* \s *)
  (r =? 9) || (r =? 10) || (r =? 12) || (r =? 13) || (r =? 32).
Definition notSpace (r : Z) : bool := negb (isSpace r).           (* \S *)
Definition isUpper : Z -> bool := inRange 65 90.                  (* [A-Z] *)
Definition isLower : Z -> bool := inRange 97 122.                 (* [a-z] *)
Definition isLetter (r : Z) : bool := isLower r || isUpper r.     (* [a-zA-Z] *)
Definition anyRune (r : Z) : bool := true.                        (* [\s\S] *)
Definition anyButNewline (r : Z) : bool := negb (r =? 10).        (* . *)
Definition oneOf (l : list Z) (r : Z) : bool := existsb (Z.eqb r) l.
Definition noneOf (l : list Z) (r : Z) : bool := negb (oneOf l r).

(** [NumSubexp]: the number of capturing groups. *)
Fixpoint numSubexp (re : regex) : nat :=
  match re with
  | Cat r1 r2 | Alt r1 r2 => Nat.max (numSubexp r1) (numSubexp r2)
  | Star r => numSubexp r
  | Group i r => Nat.max i (numSubexp r)
  | _ => 0%nat
  end.

(** The index slice of a match: [loc[2*i]], [loc[2*i+1]] are the byte
    offsets of group [i], -1 for a group that took no part. *)
Fixpoint upd (n : nat) (v : Z) (l : list Z) : list Z :=
  match l, n with
  | [], _ => []
  | _ :: l', O => v :: l'
  | x :: l', S n' => x :: upd n' v l'
  end.

Definition setcap (i : nat) (a b : Z) (cap : list Z) : list Z :=
  upd (2 * i + 1) b (upd (2 * i) a cap).

Definition nocap (re : regex) : list Z :=
  repeat (-1) (2 * (1 + numSubexp re)).

Fixpoint stripPrefix (p s : gostring) : option gostring :=
  match p, s with
  | [], _ => Some s
  | a :: p', b :: s' => if Ascii.eqb a b then stripPrefix p' s' else None
  | _ :: _, [] => None
  end.

(** The continuation of a match: position, rest of the text, captures. *)
Definition cont : Type := Z -> gostring -> list Z -> option (list Z).

(** The loop of a greedy star over the matcher [body] of its operand: one
    more repetition is tried first, then the continuation.  A repetition
    has to consume input; [fuel], the number of bytes left when the star is
    entered, bounds the repetitions. *)
Fixpoint starLoop (body : Z -> gostring -> list Z -> cont -> option (list Z))
         (k : cont) (fuel : nat) (pos : Z) (s : gostring) (cap : list Z)
         {struct fuel} : option (list Z) :=
  match fuel with
  | O => k pos s cap
  | S fuel' =>
    match body pos s cap
               (fun pos1 s1 cap1 =>
                  if pos <? pos1 then starLoop body k fuel' pos1 s1 cap1
                  else None) with
    | Some res => Some res
    | None => k pos s cap
    end
  end.

(** Backtracking matcher: the first result in backtracking order is the
    leftmost-first match [regexp] returns (no star body of the tables
    matches the empty string). *)
Fixpoint rmatch (re : regex) (pos : Z) (s : gostring) (cap : list Z)
         (k : cont) {struct re} : option (list Z) :=
  match re with
  | Eps => k pos s cap
  | Lit bs =>
    match stripPrefix bs s with
    | Some s' => k (pos + len bs) s' cap
    | None => None
    end
  | Class p =>
    match step s with
    | Some (c, w, s') => if p c then k (pos + w) s' cap else None
    | None => None
    end
  | Cat r1 r2 =>
    rmatch r1 pos s cap (fun pos1 s1 cap1 => rmatch r2 pos1 s1 cap1 k)
  | Alt r1 r2 =>
    match rmatch r1 pos s cap k with
    | Some res => Some res
    | None => rmatch r2 pos s cap k
    end
  | Star r => starLoop (rmatch r) k (length s) pos s cap
  | Group i r =>
    rmatch r pos s cap (fun pos1 s1 cap1 => k pos1 s1 (setcap i pos pos1 cap1))
  | BeginText => if pos =? 0 then k pos s cap else None
  | EndText => match s with [] => k pos s cap | _ => None end
  end.

(** A match starting exactly at [pos], where [s] is the text from [pos]. *)
Definition matchAt (re : regex) (pos : Z) (s : gostring) : option (list Z) :=
  rmatch re pos s (nocap re) (fun e _ cap => Some (setcap 0 pos e cap)).

(** The leftmost match at or after [pos]; start positions advance rune by
    rune ([skip] counts the remaining bytes of the rune being stepped
    over).  [[]] is Go's nil: no match. *)
Fixpoint search (re : regex) (pos : Z) (skip : nat) (s : gostring)
         {struct s} : list Z :=
  match skip with
  | S j =>
    match s with
    | [] => []
    | _ :: s' => search re (pos + 1) j s'
    end
  | O =>
    match matchAt re pos s with
    | Some loc => loc
    | None =>
      match s with
      | [] => []
      | _ :: s' => search re (pos + 1) (Z.to_nat (width s) - 1) s'
      end
    end
  end.

Definition FindStringSubmatchIndex (re : regex) (text : gostring) : list Z :=
  search re 0 0 text.

(** ** The rule engine *)

Record Rule : Type := { Pattern : regex; Replacement : gostring }.

(** One turn of the loop of [Sub]. *)
Inductive turn : Type :=
| NoMatch
| Replaced (text : gostring)
| Fault (p : panic).

Definition subTurn (r : Rule) (text : gostring) : turn :=
  let loc := FindStringSubmatchIndex (Pattern r) text in
  if (0 <? length loc)%nat then
    match nth_error loc 2, nth_error loc 3 with
    | Some lo, Some hi =>
      match sliceTo text lo, sliceFrom text hi with
      | Some a, Some b => Replaced (a ++ Replacement r ++ b)
      | _, _ => Fault SliceBoundsOutOfRange
      end
    | _, _ => Fault IndexOutOfRange
    end
  else NoMatch.

(** [Rule.Sub]: the loop has no bound of its own; [fuel] is the number of
    turns the model may take. *)
Fixpoint Sub (fuel : nat) (r : Rule) (text : gostring) : outcome gostring :=
  match fuel with
  | O => OutOfFuel
  | S fuel' =>
    match subTurn r text with
    | NoMatch => Done text
    | Replaced text' => Sub fuel' r text'
    | Fault p => Panics p
    end
  end.

(** ** The rule tables

    The literals are those of [tokenize/pragmatic.go], byte for byte: the
    marker that stands for a masked period is written there as below.  The
    second copy of the file in the repository spells it as the one rune
    U+222F; its tables are in [Part000] further down. *)

Definition periodMarker : gostring := str "вИѓ".

Definition dot : regex := Lit (str ".").              (* \. *)
Definition anyOrParen : regex :=                      (* (?:[\s\S]|\)) *)
  Alt (Class anyRune) (Lit (str ")")).

(** numbers *)

Definition periodBeforeNumberRule : Rule :=           (* (\.)\d *)
  {| Pattern := cats [Group 1 dot; Class isDigit];
     Replacement := periodMarker |}.
Definition numberAfterPeriodBeforeLetterRule : Rule :=   (* \d(\.)\S *)
  {| Pattern := cats [Class isDigit; Group 1 dot; Class notSpace];
     Replacement := periodMarker |}.
Definition newLineNumberPeriodSpaceLetterRule : Rule :=
  (* [\n\r]\d(\.)(?:[\s\S]|\)) *)
  {| Pattern := cats [Class (oneOf [10; 13]); Class isDigit; Group 1 dot;
                      anyOrParen];
     Replacement := periodMarker |}.
Definition startLineNumberPeriodRule : Rule :=        (* ^\d(\.)(?:[\s\S]|\)) *)
  {| Pattern := cats [BeginText; Class isDigit; Group 1 dot; anyOrParen];
     Replacement := periodMarker |}.
Definition startLineTwoDigitNumberPeriodRule : Rule :=
  (* ^\d\d(\.)(?:[\s\S]|\)) *)
  {| Pattern := cats [BeginText; Class isDigit; Class isDigit; Group 1 dot;
                      anyOrParen];
     Replacement := periodMarker |}.
Definition allNumberRules : list Rule :=
  [periodBeforeNumberRule; numberAfterPeriodBeforeLetterRule;
   newLineNumberPeriodSpaceLetterRule; startLineNumberPeriodRule;
   startLineTwoDigitNumberPeriodRule].

(** common *)

Definition possessiveAbbreviationRule : Rule :=
  (* (\.)'s\s|(\.)'s$|(\.)'s\z *)
  {| Pattern := alts [cats [Group 1 dot; Lit (str "'s"); Class isSpace];
                      cats [Group 2 dot; Lit (str "'s"); EndText];
                      cats [Group 3 dot; Lit (str "'s"); EndText]];
     Replacement := periodMarker |}.
Definition kommanditgesellschaftRule : Rule :=        (* Co(\.)\sKG *)
  {| Pattern := cats [Lit (str "Co"); Group 1 dot; Class isSpace;
                      Lit (str "KG")];
     Replacement := periodMarker |}.

(** AM/PM: the four patterns have one shape, two letters [a] and [m], each
    followed by the period marker [mk], the second marker captured, then
    [\s[A-Z]]. *)
Definition amPmPattern (a m : ascii) (mk : gostring) : regex :=
  cats [Lit ([a] ++ mk ++ [m]); Group 1 (Lit mk); Class isSpace;
        Class isUpper].
Definition amPmRule (a m : ascii) (mk : gostring) : Rule :=
  {| Pattern := amPmPattern a m mk; Replacement := str "." |}.

Definition upperCasePmRule : Rule :=                  (* PвИѓM(вИѓ)\s[A-Z] *)
  amPmRule "P" "M" periodMarker.
Definition upperCaseAmRule : Rule :=                  (* AвИѓM(вИѓ)\s[A-Z] *)
  amPmRule "A" "M" periodMarker.
Definition lowerCasePmRule : Rule :=                  (* pвИѓm(вИѓ)\s[A-Z] *)
  amPmRule "p" "m" periodMarker.
Definition lowerCaseAmRule : Rule :=                  (* aвИѓm(вИѓ)\s[A-Z] *)
  amPmRule "a" "m" periodMarker.
Definition allAmPmRules : list Rule :=
  [upperCasePmRule; upperCaseAmRule; lowerCasePmRule; lowerCaseAmRule].

(** single upper-case letters *)

Definition singleUpperCaseLetterAtStartOfLineRule : Rule :=   (* ^[A-Z](\.)\s *)
  {| Pattern := cats [BeginText; Class isUpper; Group 1 dot; Class isSpace];
     Replacement := periodMarker |}.
Definition singleUpperCaseLetterRule : Rule :=        (* \s[A-Z]\.\s *)
  {| Pattern := cats [Class isSpace; Class isUpper; dot; Class isSpace];
     Replacement := periodMarker |}.
Definition allSingleUpperCaseLetterRules : list Rule :=
  [singleUpperCaseLetterAtStartOfLineRule; singleUpperCaseLetterRule].

(** ellipses *)

Definition threeConsecutiveRule : Rule :=             (* (\.\.\.)\s+[A-Z] *)
  {| Pattern := cats [Group 1 (Lit (str "...")); Plus (Class isSpace);
                      Class isUpper];
     Replacement := str "вШП." |}.
Definition fourConsecutiveRule : Rule :=              (* \S(\.{3}\.)\s[A-Z] *)
  {| Pattern := cats [Class notSpace; Group 1 (Cat (Lit (str "...")) dot);
                      Class isSpace; Class isUpper];
     Replacement := str "∆™" |}.
Definition threeSpaceRule : Rule :=                   (* (\s\.){3}\s *)
  let g := Group 1 (Cat (Class isSpace) dot) in
  {| Pattern := cats [g; g; g; Class isSpace];
     Replacement := str "вЩЯ" |}.
Definition fourSpaceRule : Rule :=          (* [a-z](\.\s{3}\.(?:\z|$|\n)) *)
  {| Pattern := cats [Class isLower;
                      Group 1 (cats [dot; Class isSpace; Class isSpace;
                                     Class isSpace; dot;
                                     alts [EndText; EndText;
                                           Lit [ascii_of_nat 10]]])];
     Replacement := str "вЩЭ" |}.
Definition otherThreePeriodRule : Rule :=             (* \.\.\. *)
  {| Pattern := Lit (str "..."); Replacement := str "∆™" |}.
Definition allEllipsesRules : list Rule :=
  [threeConsecutiveRule; fourConsecutiveRule; threeSpaceRule; fourSpaceRule;
   otherThreePeriodRule].

(** between_punctuation *)

(** The inside of a span, [([^X\\]+|\\{2}|\\.)*] with [X] the runes the
    class excludes besides the backslash. *)
Definition escaped (excluded : list Z) : regex :=
  Star (Group 1 (alts [Plus (Class (noneOf (excluded ++ [92])));
                       Cat (Lit [backslash]) (Lit [backslash]);
                       Cat (Lit [backslash]) (Class anyButNewline)])).

Definition betweenSingleQuotesRE : regex :=
  (* \s'(?:[^']|'[a-zA-Z])*' *)
  cats [Class isSpace; Lit (str "'");
        Star (Alt (Class (noneOf [39]))
                  (Cat (Lit (str "'")) (Class isLetter)));
        Lit (str "'")].
(** The same shape between two double quotes (rune 34). *)
Definition betweenDoubleQuotesRE : regex :=
  cats [Lit [dquote]; escaped [34]; Lit [dquote]].
Definition betweenArrowQuotesRE : regex :=
  (* ¬Ђ([^¬ї\\]+|\\{2}|\\.)*¬ї *)
  cats [Lit (str "¬Ђ"); escaped [172; 1111]; Lit (str "¬ї")].
Definition betweenSmartQuotesRE : regex :=
  (* вАЬ([^вАЭ\\]+|\\{2}|\\.)*вАЭ *)
  cats [Lit (str "вАЬ"); escaped [1074; 1040; 1069]; Lit (str "вАЭ")].
Definition betweenSquareBracketsRE : regex :=
  (* \[([^\]\\]+|\\{2}|\\.)*\] *)
  cats [Lit (str "["); escaped [93]; Lit (str "]")].
Definition betweenParensRE : regex :=
  (* \(([^\(\)\\]+|\\{2}|\\.)*\) *)
  cats [Lit (str "("); escaped [40; 41]; Lit (str ")")].

(** ** [strings.Replace], [strings.Replacer], [strings.TrimSpace] *)

(** Non-overlapping occurrences of a non-empty [old], left to right
    ([skip] counts the bytes of an occurrence still to pass). *)
Fixpoint replaceScan (old new : gostring) (skip : nat) (s : gostring)
  : gostring :=
  match s with
  | [] => []
  | c :: s' =>
    match skip with
    | S j => replaceScan old new j s'
    | O =>
      match stripPrefix old s with
      | Some _ => new ++ replaceScan old new (length old - 1) s'
      | None => c :: replaceScan old new 0 s'
      end
    end
  end.

(** An empty [old] matches before every rune and at the end. *)
Fixpoint interleave (new : gostring) (skip : nat) (s : gostring) : gostring :=
  match s with
  | [] => new
  | c :: s' =>
    match skip with
    | S j => c :: interleave new j s'
    | O => new ++ c :: interleave new (Z.to_nat (width s) - 1) s'
    end
  end.

(** [strings.Replace(s, old, new, -1)]. *)
Definition Replace (s old new : gostring) : gostring :=
  if eqbytes old new then s
  else match old with
       | [] => interleave new 0 s
       | _ => replaceScan old new 0 s
       end.

(** [strings.NewReplacer(old1, new1, ...).Replace(s)] for non-empty olds:
    at each position the olds are compared in argument order. *)
Fixpoint firstPair (pairs : list (gostring * gostring)) (s : gostring)
  : option (gostring * gostring) :=
  match pairs with
  | [] => None
  | (old, new) :: rest =>
    match stripPrefix old s with
    | Some _ => Some (old, new)
    | None => firstPair rest s
    end
  end.

Fixpoint replacer (pairs : list (gostring * gostring)) (skip : nat)
         (s : gostring) : gostring :=
  match s with
  | [] => []
  | c :: s' =>
    match skip with
    | S j => replacer pairs j s'
    | O =>
      match firstPair pairs s with
      | Some (old, new) => new ++ replacer pairs (length old - 1) s'
      | None => c :: replacer pairs 0 s'
      end
    end
  end.

(** [unicode.IsSpace]. *)
Definition unicodeIsSpace (r : Z) : bool :=
  inRange 9 13 r || (r =? 32) || (r =? 133) || (r =? 160) || (r =? 5760)
  || inRange 8192 8202 r || (r =? 8232) || (r =? 8233) || (r =? 8239)
  || (r =? 8287) || (r =? 12288).

(** The runes of a string, each with its bytes. *)
Fixpoint chunks (fuel : nat) (s : gostring) : list (Z * gostring) :=
  match fuel with
  | O => []
  | S f =>
    match step s with
    | None => []
    | Some (r, w, s') => (r, firstn (Z.to_nat w) s) :: chunks f s'
    end
  end.

Fixpoint dropWhile {A} (p : A -> bool) (l : list A) : list A :=
  match l with
  | [] => []
  | x :: l' => if p x then dropWhile p l' else l
  end.

(** [strings.TrimSpace]: leading and trailing white space removed. *)
Definition TrimSpace (s : gostring) : gostring :=
  let sp := fun c : Z * gostring => unicodeIsSpace (fst c) in
  let trimmedLeft := dropWhile sp (chunks (length s) s) in
  concat (map snd (rev (dropWhile sp (rev trimmedLeft)))).

(** ** [FindAllString] *)

(** The loop of [regexp]'s [allMatches]: successive non-overlapping
    matches; an empty match moves on by one rune and is dropped when it
    touches the previous match. *)
Fixpoint allMatches (fuel : nat) (re : regex) (text : gostring)
         (pos prevMatchEnd : Z) : list (list Z) :=
  match fuel with
  | O => []
  | S f =>
    if pos <=? len text then
      let rest := skipn (Z.to_nat pos) text in
      let m := search re pos 0 rest in
      match m with
      | m0 :: m1 :: _ =>
        let accept := negb ((m1 =? pos) && (m0 =? prevMatchEnd)) in
        let pos' := if m1 =? pos
                    then (if 0 <? width rest then pos + width rest
                          else len text + 1)
                    else m1 in
        (if accept then [m] else []) ++ allMatches f re text pos' m1
      | _ => []
      end
    else []
  end.

Definition substr (text : gostring) (lo hi : Z) : gostring :=
  firstn (Z.to_nat (hi - lo)) (skipn (Z.to_nat lo) text).

Definition FindAllString (re : regex) (text : gostring) : list gostring :=
  map (fun m => substr text (nth 0 m 0) (nth 1 m 0))
      (allMatches (length text + 2) re text 0 (-1)).

(** ** punctuation_replacer *)

Definition escapeRegexReservedCharacters : list (gostring * gostring) :=
  [(str "(", backslash :: str "("); (str ")", backslash :: str ")");
   (str "[", backslash :: str "["); (str "]", backslash :: str "]");
   (str "-", backslash :: str "-")].

Definition subEscapeRegexReservedCharacters : list (gostring * gostring) :=
  [(backslash :: str "(", str "("); (backslash :: str ")", str ")");
   (backslash :: str "[", str "["); (backslash :: str "]", str "]");
   (backslash :: str "-", str "-")].

Definition escape (s : gostring) : gostring :=
  replacer escapeRegexReservedCharacters 0 s.
Definition unescape (s : gostring) : gostring :=
  replacer subEscapeRegexReservedCharacters 0 s.

Record punctuationReplacer : Type :=
  { matches : list gostring; text : gostring; matchType : gostring }.

(** [r.sub(content, a, b)]: the new [r.text] and the returned string. *)
Definition sub (rtext content a b : gostring) : gostring * gostring :=
  let repl := Replace content a b in
  (Replace rtext content repl, repl).

(** The reserved markers of the protector. *)
Definition ideographicStopMarker : gostring := str "&бУ∞&".
Definition fullwidthStopMarker : gostring := str "&бУ±&".
Definition fullwidthExclamationMarker : gostring := str "&бУ≥&".
Definition exclamationMarker : gostring := str "&бУі&".
Definition questionMarker : gostring := str "&бУЈ&".
Definition questionSpaceMarker : gostring := str "&бУЄ&".
Definition apostropheMarker : gostring := str "&вОЛ&".

(** The body of the loop of [replacePunctuation] for one match [m], on the
    current [r.text]. *)
Definition protect (mtype rtext m : gostring) : gostring :=
  let m := escape m in
  let '(t0, s) := sub rtext m (str ".") periodMarker in
  let '(t1, sub1) := sub t0 s (str "гАВ") ideographicStopMarker in
  let '(t2, sub2) := sub t1 sub1 (str "пЉО") fullwidthStopMarker in
  let '(t3, sub3) := sub t2 sub2 (str "пЉБ") fullwidthExclamationMarker in
  let '(t4, sub4) := sub t3 sub3 (str "!") exclamationMarker in
  let '(t5, sub5) := sub t4 sub4 (str "?") questionMarker in
  let '(t6, sub6) := sub t5 sub5 (str "? ") questionSpaceMarker in
  if negb (eqbytes mtype (str "single"))
  then fst (sub t6 sub6 (str "'") apostropheMarker)
  else t6.

Definition replacePunctuation (r : punctuationReplacer)
           (ms : list gostring) : gostring :=
  unescape (fold_left (protect (matchType r)) ms (escape (text r))).

Definition replace (r : punctuationReplacer) : gostring :=
  replacePunctuation r (matches r).

Definition subPat (txt mtype : gostring) (pat : regex) : gostring :=
  let canidates := map TrimSpace (FindAllString pat txt) in
  replace {| matches := canidates; text := txt; matchType := mtype |}.

Definition replaceBetweenQuotes (txt : gostring) : gostring :=
  let txt := subPat txt (str "single") betweenSingleQuotesRE in
  let txt := subPat txt (str "double") betweenDoubleQuotesRE in
  let txt := subPat txt (str "double") betweenSquareBracketsRE in
  let txt := subPat txt (str "double") betweenParensRE in
  let txt := subPat txt (str "double") betweenArrowQuotesRE in
  let txt := subPat txt (str "double") betweenSmartQuotesRE in
  txt.

(** ** The segmenter *)

Record languageProcessor : Type :=
  { process : gostring -> list gostring }.

(** An interface value is nil ([None]) or holds an implementation. *)
Record PragmaticSegmenter : Type :=
  { processor : option languageProcessor }.

Definition NewPragmaticSegmenter (lang : gostring) : PragmaticSegmenter :=
  {| processor := None |}.

Definition Tokenize (p : PragmaticSegmenter) (txt : gostring)
  : outcome (list gostring) :=
  match processor p with
  | Some lp => Done (process lp txt)
  | None => Panics NilDereference
  end.

(** Modelled from the spec: the driver that runs a rule table in its fixed
    order, every rule through [Sub] on the text the previous one left (the
    source holds the tables and [Sub], not the loop over a table). *)
Fixpoint SubAll (fuel : nat) (rules : list Rule) (txt : gostring)
  : outcome gostring :=
  match rules with
  | [] => Done txt
  | r :: rest =>
    match Sub fuel r txt with
    | Done txt' => SubAll fuel rest txt'
    | o => o
    end
  end.

(** The texts of the examples. *)
Definition exampleQuote : gostring :=
  str "He said, " ++ dquote :: str "Stop. Go." ++ dquote :: str " Then left.".
Definition exampleQuoteProtected : gostring :=
  str "He said, " ++ dquote :: str "Stop" ++ periodMarker ++ str " Go"
      ++ periodMarker ++ dquote :: str " Then left.".
Definition exampleDecimal : gostring := str "The value is 3.14 today.".
Definition exampleDecimalProtected : gostring :=
  str "The value is 3" ++ periodMarker ++ str "14 today.".

(** A rule whose replacement is matched again: [(a)] replaced by [a]. *)
Definition reapplyingRule : Rule :=
  {| Pattern := Group 1 (Lit (str "a")); Replacement := str "a" |}.

(** A text with brackets, an escaped parenthesis and an unclosed one. *)
Definition exampleUnbalanced : gostring :=
  str "Half-open [x-y] and \( and (z".

(** The characters [escapeRegexReservedCharacters] escapes. *)
Definition isReserved (c : ascii) : bool :=
  existsb (Ascii.eqb c) (str "()[]-").

(** ** A measure for the loop of [Sub]

    [weight wt s] counts the bytes of [s] that [wt] selects;
    [minWeight wt re] is a lower bound of the weight of anything [re]
    matches; a rule is [shrinking] when every first capturing group of its
    pattern matches more weight than its replacement holds. *)

Definition weight (wt : ascii -> bool) (s : gostring) : nat :=
  length (filter wt s).

Fixpoint minWeight (wt : ascii -> bool) (re : regex) : nat :=
  match re with
  | Lit bs => weight wt bs
  | Cat r1 r2 => minWeight wt r1 + minWeight wt r2
  | Alt r1 r2 => Nat.min (minWeight wt r1) (minWeight wt r2)
  | Group _ r => minWeight wt r
  | _ => 0%nat
  end.

Fixpoint shrinks (wt : ascii -> bool) (W : nat) (re : regex) : bool :=
  match re with
  | Cat r1 r2 | Alt r1 r2 => shrinks wt W r1 && shrinks wt W r2
  | Star r => shrinks wt W r
  | Group i r =>
    (if (i =? 1)%nat then (W <? minWeight wt r)%nat else true)
    && shrinks wt W r
  | _ => true
  end.

Definition shrinking (wt : ascii -> bool) (r : Rule) : bool :=
  shrinks wt (weight wt (Replacement r)) (Pattern r).

Definition isPeriod (c : ascii) : bool := Ascii.eqb c ".".
Definition anyByte (c : ascii) : bool := true.

(** Every rule of the tables. *)
Definition allRules : list Rule :=
  allNumberRules
    ++ [possessiveAbbreviationRule; kommanditgesellschaftRule]
    ++ allAmPmRules ++ allSingleUpperCaseLetterRules ++ allEllipsesRules.

(** [s] is the text [T] from byte offset [pos]. *)
Definition coh (T : gostring) (pos : Z) (s : gostring) : Prop :=
  exists p : gostring, T = p ++ s /\ pos = len p.

(** Group 1 of the index slice [cap] is unset, or delimits a segment of
    [T] heavier than [W]. *)
Definition capInv (T : gostring) (wt : ascii -> bool) (W : nat)
           (cap : list Z) : Prop :=
  match nth_error cap 2, nth_error cap 3 with
  | Some lo, Some hi =>
    lo = -1 \/
    exists a seg b : gostring,
      T = a ++ seg ++ b /\ lo = len a /\ hi = len a + len seg /\
      (W < weight wt seg)%nat
  | _, _ => True
  end.

(** What the proofs ask of a continuation [k]: whenever it is handed the
    text after a segment of weight at least [lower], with captures that
    satisfy the invariant, and answers [res], then [Q]. *)
Definition contOK (T : gostring) (wt : ascii -> bool) (W : nat)
           (k : cont) (res : list Z) (Q : Prop) (lower : nat)
           (pos : Z) (s : gostring) : Prop :=
  forall seg s' cap',
    s = seg ++ s' -> (lower <= weight wt seg)%nat -> capInv T wt W cap' ->
    k (pos + len seg) s' cap' = Some res -> Q.

(** ** The AM/PM rules in the words of the spec

    An occurrence is the letter [a], the marker, the letter [m], the marker
    again, a white-space byte and an upper-case letter.  [unmaskAmPm] reads
    the text once, left to right, and in every occurrence writes a period
    for the marker that follows [m]. *)

Definition amPmFires (a m : ascii) (mk s : gostring) : bool :=
  match stripPrefix (a :: mk ++ [m]) s with
  | Some s1 =>
    match stripPrefix mk s1 with
    | Some (w :: u :: _) => isSpace (byteZ w) && isUpper (byteZ u)
    | _ => false
    end
  | None => false
  end.

Fixpoint unmaskAmPm (a m : ascii) (mk : gostring) (skip : nat) (s : gostring)
  : gostring :=
  match s with
  | [] => []
  | c :: s' =>
    match skip with
    | S j => unmaskAmPm a m mk j s'
    | O =>
      if amPmFires a m mk s
      then (a :: mk ++ [m]) ++ str "."
           ++ unmaskAmPm a m mk (length mk + S (length mk)) s'
      else c :: unmaskAmPm a m mk 0 s'
    end
  end.

(** No occurrence starts inside [p] when [p] is followed by [s]. *)
Definition zoneFree (a m : ascii) (mk p s : gostring) : Prop :=
  forall p1 p2, p = p1 ++ p2 -> p2 <> [] -> amPmFires a m mk (p2 ++ s) = false.

(** No occurrence starts anywhere in [s]. *)
Definition noFire (a m : ascii) (mk s : gostring) : Prop :=
  forall p1 p2, s = p1 ++ p2 -> amPmFires a m mk p2 = false.

(** The first [n] bytes of [t] are not ASCII. *)
Definition highPrefix (n : nat) (t : gostring) : Prop :=
  exists conts t', t = conts ++ t' /\ length conts = n /\
                   Forall (fun x => 128 <= byteZ x) conts.

(** An AM/PM abbreviation with both periods masked, and with the second
    one restored. *)
Definition masked (a m : ascii) : gostring :=
  [a] ++ periodMarker ++ [m] ++ periodMarker.
Definition unmasked (a m : ascii) : gostring :=
  [a] ++ periodMarker ++ [m] ++ str ".".

(** A text with one abbreviation for each of the four rules. *)
Definition exampleTimes (pm am lpm lam : ascii -> ascii -> gostring)
  : gostring :=
  str "At 5 " ++ pm "P"%char "M"%char ++ str " He ate. At 6 "
      ++ am "A"%char "M"%char ++ str " She ran. At 7 "
      ++ lpm "p"%char "m"%char ++ str " It rained. At 8 "
      ++ lam "a"%char "m"%char ++ str " We left.".

(** A literal written rune by rune: one class per rune, as [regexp]
    compares them after decoding. *)
Fixpoint runeChain (l : list (Z * gostring)) : regex :=
  match l with
  | [] => Eps
  | (c, _) :: l' => Cat (Class (Z.eqb c)) (runeChain l')
  end.

(** No rune of the list is U+FFFD. *)
Definition properRunes (l : list (Z * gostring)) : bool :=
  forallb (fun c => negb (fst c =? RuneError)) l.

(** The pattern with every literal written rune by rune. *)
Fixpoint toRunes (re : regex) : regex :=
  match re with
  | Lit bs => runeChain (chunks (length bs) bs)
  | Cat r1 r2 => Cat (toRunes r1) (toRunes r2)
  | Alt r1 r2 => Alt (toRunes r1) (toRunes r2)
  | Star r => Star (toRunes r)
  | Group i r => Group i (toRunes r)
  | _ => re
  end.

(** No literal of the pattern holds U+FFFD or an invalid sequence. *)
Fixpoint properLits (re : regex) : bool :=
  match re with
  | Lit bs => properRunes (chunks (length bs) bs)
  | Cat r1 r2 | Alt r1 r2 => properLits r1 && properLits r2
  | Star r | Group _ r => properLits r
  | _ => true
  end.

(** Every pattern of the source. *)
Definition allPatterns : list regex :=
  map Pattern allRules
      ++ [betweenSingleQuotesRE; betweenDoubleQuotesRE; betweenArrowQuotesRE;
          betweenSmartQuotesRE; betweenSquareBracketsRE; betweenParensRE].

(** ** The second copy of the source

    The repository holds a second, shorter copy of the file: the rule
    engine, the number rules and the protector, word for word, with the
    markers and the quotes spelled differently.  These are its tables and,
    with them, its protector. *)

Module Part000.

Definition periodMarker : gostring := str "∯".

(** The number rules: the patterns above, the marker respelled. *)
Definition respelled (r : Rule) : Rule :=
  {| Pattern := Pattern r; Replacement := periodMarker |}.
Definition allNumberRules : list Rule := map respelled allNumberRules.

Definition betweenArrowQuotesRE : regex :=
  (* «([^»\\]+|\\{2}|\\.)*» *)
  cats [Lit (str "«"); escaped [187]; Lit (str "»")].
Definition betweenSmartQuotesRE : regex :=
  (* “([^”\\]+|\\{2}|\\.)*” *)
  cats [Lit (str "“"); escaped [8221]; Lit (str "”")].

Definition ideographicStopMarker : gostring := str "&ᓰ&".
Definition fullwidthStopMarker : gostring := str "&ᓱ&".
Definition fullwidthExclamationMarker : gostring := str "&ᓳ&".
Definition exclamationMarker : gostring := str "&ᓴ&".
Definition questionMarker : gostring := str "&ᓷ&".
Definition questionSpaceMarker : gostring := str "&ᓸ&".
Definition apostropheMarker : gostring := str "&⎋&".

Definition protect (mtype rtext m : gostring) : gostring :=
  let m := escape m in
  let '(t0, s) := sub rtext m (str ".") periodMarker in
  let '(t1, sub1) := sub t0 s (str "。") ideographicStopMarker in
  let '(t2, sub2) := sub t1 sub1 (str "．") fullwidthStopMarker in
  let '(t3, sub3) := sub t2 sub2 (str "！") fullwidthExclamationMarker in
  let '(t4, sub4) := sub t3 sub3 (str "!") exclamationMarker in
  let '(t5, sub5) := sub t4 sub4 (str "?") questionMarker in
  let '(t6, sub6) := sub t5 sub5 (str "? ") questionSpaceMarker in
  if negb (eqbytes mtype (str "single"))
  then fst (sub t6 sub6 (str "'") apostropheMarker)
  else t6.

Definition replacePunctuation (r : punctuationReplacer)
           (ms : list gostring) : gostring :=
  unescape (fold_left (protect (matchType r)) ms (escape (text r))).

Definition replace (r : punctuationReplacer) : gostring :=
  replacePunctuation r (matches r).

Definition subPat (txt mtype : gostring) (pat : regex) : gostring :=
  let canidates := map TrimSpace (FindAllString pat txt) in
  replace {| matches := canidates; text := txt; matchType := mtype |}.

Definition replaceBetweenQuotes (txt : gostring) : gostring :=
  let txt := subPat txt (str "single") betweenSingleQuotesRE in
  let txt := subPat txt (str "double") betweenDoubleQuotesRE in
  let txt := subPat txt (str "double") betweenSquareBracketsRE in
  let txt := subPat txt (str "double") betweenParensRE in
  let txt := subPat txt (str "double") betweenArrowQuotesRE in
  let txt := subPat txt (str "double") betweenSmartQuotesRE in
  txt.

Definition exampleQuoteProtected : gostring :=
  str "He said, " ++ dquote :: str "Stop" ++ periodMarker ++ str " Go"
      ++ periodMarker ++ dquote :: str " Then left.".
Definition exampleDecimalProtected : gostring :=
  str "The value is 3" ++ periodMarker ++ str "14 today.".

End Part000.

(** ** Occurrences

    [firesSomewhere fires s]: the test [fires] holds on [s] or on one of
    its suffixes; [occursIn x s]: the bytes [x] occur in [s]. *)

Fixpoint firesSomewhere (fires : gostring -> bool) (s : gostring) : bool :=
  fires s || match s with
             | [] => false
             | _ :: s' => firesSomewhere fires s'
             end.

Definition startsWith (x s : gostring) : bool :=
  match stripPrefix x s with Some _ => true | None => false end.

Definition occursIn (x s : gostring) : bool := firesSomewhere (startsWith x) s.

(** No suffix of [p ++ s] that starts inside [p] passes the test. *)
Definition zoneFreeOf (fires : gostring -> bool) (p s : gostring) : Prop :=
  forall p1 p2, p = p1 ++ p2 -> p2 <> [] -> fires (p2 ++ s) = false.

(** The opening delimiters of the six span patterns, in the order of
    [replaceBetweenQuotes]. *)
Definition openers : list gostring :=
  [str "'"; [dquote]; str "["; str "("; str "¬Ђ"; str "вАЬ"].

(** What [replacePunctuation] replaces inside a span of kind [mtype]; the
    seventh step, of [? ], finds nothing to replace after the sixth. *)
Definition maskedStrings (mtype : gostring) : list gostring :=
  [str "."; str "гАВ"; str "пЉО"; str "пЉБ"; str "!"; str "?"]
  ++ (if eqbytes mtype (str "single") then [] else [str "'"]).

(** The reserved characters of [s]. *)
Definition reservedCount (s : gostring) : nat := length (filter isReserved s).

(** An initial: white space, an upper-case letter, a period, white space. *)
Definition initialAt (s : gostring) : bool :=
  match s with
  | w1 :: u :: c :: w2 :: _ =>
    isSpace (byteZ w1) && isUpper (byteZ u) && Ascii.eqb "." c
    && isSpace (byteZ w2)
  | _ => false
  end.

(** A period directly followed by a digit. *)
Definition periodDigit (s : gostring) : bool :=
  match s with
  | c :: d :: _ => Ascii.eqb "." c && isDigit (byteZ d)
  | _ => false
  end.

(** The text with [mk] for every period that a digit follows. *)
Fixpoint maskPeriodsBeforeDigits (mk s : gostring) : gostring :=
  match s with
  | [] => []
  | c :: s' =>
    if periodDigit s then mk ++ maskPeriodsBeforeDigits mk s'
    else c :: maskPeriodsBeforeDigits mk s'
  end.

(** Every match of [re] sets capturing group 1. *)
Fixpoint alwaysSets1 (re : regex) : bool :=
  match re with
  | Group i r => (i =? 1)%nat || alwaysSets1 r
  | Cat r1 r2 => alwaysSets1 r1 || alwaysSets1 r2
  | Alt r1 r2 => alwaysSets1 r1 && alwaysSets1 r2
  | _ => false
  end.

(** The rules of the tables whose first group takes part in every match:
    all but [possessiveAbbreviationRule], [singleUpperCaseLetterRule] and
    [otherThreePeriodRule]. *)
Definition rulesWithGroup1 : list Rule :=
  allNumberRules ++ [kommanditgesellschaftRule] ++ allAmPmRules
    ++ [singleUpperCaseLetterAtStartOfLineRule; threeConsecutiveRule;
        fourConsecutiveRule; threeSpaceRule; fourSpaceRule].

(** The first group of the index slice [cap] is set. *)
Definition group1Set (cap : list Z) : Prop := 0 <= nth 2 cap (-1).

(** The text after [.'s], when the text starts with it. *)
Definition possessiveHead (s : gostring) : option gostring :=
  match s with
  | c1 :: c2 :: c3 :: rest =>
    if Ascii.eqb "." c1 && Ascii.eqb "'" c2 && Ascii.eqb "s" c3
    then Some rest else None
  | _ => None
  end.

(** [.'s] before a white-space byte; [.'s] at the end of the text. *)
Definition possessiveSpace (s : gostring) : bool :=
  match possessiveHead s with
  | Some (w :: _) => isSpace (byteZ w)
  | _ => false
  end.
Definition possessiveEnd (s : gostring) : bool :=
  match possessiveHead s with
  | Some [] => true
  | _ => false
  end.
Definition possessiveAt (s : gostring) : bool :=
  possessiveSpace s || possessiveEnd s.

(** The text with [mk] for every period of a [.'s] that white space
    follows. *)
Fixpoint maskPossessives (mk s : gostring) : gostring :=
  match s with
  | [] => []
  | c :: s' =>
    if possessiveSpace s then mk ++ maskPossessives mk s'
    else c :: maskPossessives mk s'
  end.

(** The index slice of a match of the possessive pattern. *)
Definition possessiveLoc (pos : Z) (s : gostring) : list Z :=
  if possessiveSpace s then [pos; pos + 4; pos; pos + 1; -1; -1; -1; -1]
  else [pos; pos + 3; -1; -1; pos; pos + 1; -1; -1].

(** The byte after the first one starts with [x]. *)
Definition nextStartsWith (x s : gostring) : bool :=
  match s with
  | _ :: s' => startsWith x s'
  | [] => false
  end.

Definition examplePlain : gostring := str "Plain words, no spans here.".

(** No reserved character and no backslash. *)
Definition plainByte (b : ascii) : bool :=
  negb (isReserved b) && negb (Ascii.eqb backslash b).

(** [f] is a run of consecutive bytes of [s]. *)
Definition factorOf (f s : gostring) : Prop :=
  exists a b : gostring, s = a ++ f ++ b.

Definition exampleNoMarks : gostring :=
  str "A (span) with [brackets] and no marks".

(** [s] with [mk] in place of the byte at offset [k]. *)
Definition maskByteAt (k : nat) (mk s : gostring) : gostring :=
  firstn k s ++ mk ++ skipn (S k) s.

(** The starts of a text that the three patterns anchored with [^] accept:
    a digit, a period and one more byte; two digits, a period and one more
    byte; an upper-case letter, a period and white space. *)
Definition digitPeriodAtStart (s : gostring) : bool :=
  match s with
  | d :: c :: _ :: _ => isDigit (byteZ d) && Ascii.eqb "." c
  | _ => false
  end.
Definition twoDigitsPeriodAtStart (s : gostring) : bool :=
  match s with
  | d1 :: d2 :: c :: _ :: _ =>
    isDigit (byteZ d1) && isDigit (byteZ d2) && Ascii.eqb "." c
  | _ => false
  end.
Definition initialAtStart (s : gostring) : bool :=
  match s with
  | u :: c :: w :: _ =>
    isUpper (byteZ u) && Ascii.eqb "." c && isSpace (byteZ w)
  | _ => false
  end.

(** The text with [mk] in place of the byte at offset [k] of every
    occurrence, the occurrences taken from left to right, the search for
    the next one going on after the byte replaced ([due] counts the bytes
    of the current occurrence still to copy). *)
Fixpoint maskOccurrences (fires : gostring -> bool) (k : nat) (mk : gostring)
         (due : option nat) (s : gostring) : gostring :=
  match s with
  | [] => []
  | c :: s' =>
    match (match due with
           | Some j => Some j
           | None => if fires s then Some k else None
           end) with
    | Some O => mk ++ maskOccurrences fires k mk None s'
    | Some (S j) => c :: maskOccurrences fires k mk (Some j) s'
    | None => c :: maskOccurrences fires k mk None s'
    end
  end.

(** A digit, a period and a byte that is not ASCII white space. *)
Definition digitPeriodNonSpace (s : gostring) : bool :=
  match s with
  | d :: c :: x :: _ =>
    isDigit (byteZ d) && Ascii.eqb "." c && notSpace (byteZ x)
  | _ => false
  end.

(** A line feed or carriage return, a digit, a period and one more byte. *)
Definition newlineDigitPeriod (s : gostring) : bool :=
  match s with
  | nl :: d :: c :: _ :: _ =>
    oneOf [10; 13] (byteZ nl) && isDigit (byteZ d) && Ascii.eqb "." c
  | _ => false
  end.

(** [Co.], a white-space byte, [KG]. *)
Definition coPeriodKG (s : gostring) : bool :=
  match s with
  | c1 :: c2 :: c3 :: w :: c5 :: c6 :: _ =>
    Ascii.eqb "C" c1 && Ascii.eqb "o" c2 && Ascii.eqb "." c3
    && isSpace (byteZ w) && Ascii.eqb "K" c5 && Ascii.eqb "G" c6
  | _ => false
  end.

(** * Theorems *)

(** ** The segmenter *)

(** C9: [NewPragmaticSegmenter] drops its language argument and leaves
    [processor] nil, so [Tokenize] on the segmenter it returns calls
    [process] on a nil interface for every language and every text: it
    panics and returns no sentence list. *)
Theorem Tokenize_new_segmenter_panics :
  forall lang txt : gostring,
    processor (NewPragmaticSegmenter lang) = None /\
    Tokenize (NewPragmaticSegmenter lang) txt = Panics NilDereference /\
    returned (Tokenize (NewPragmaticSegmenter lang) txt) = false.
Proof.
  intros lang txt. repeat split.
Qed.

(** ** Ellipsis markers *)

(** C5, as stated, fails: the replacement markers of the five ellipsis
    rules are not pairwise distinct. *)
Lemma ellipsis_markers_not_distinct :
  ~ NoDup (map Replacement allEllipsesRules).
Proof.
  intro H. inversion H as [| x l Hnotin Hrest]; subst.
  inversion Hrest as [| y l' Hnotin' Hrest']; subst.
  apply Hnotin'. simpl. right. right. left. reflexivity.
Qed.

(** C5 (amended): the markers of [threeConsecutiveRule],
    [fourConsecutiveRule], [threeSpaceRule] and [fourSpaceRule] are pairwise
    distinct, and [otherThreePeriodRule] shares the marker of
    [fourConsecutiveRule]. *)
Theorem ellipsis_markers :
  NoDup (map Replacement
             [threeConsecutiveRule; fourConsecutiveRule; threeSpaceRule;
              fourSpaceRule]) /\
  Replacement otherThreePeriodRule = Replacement fourConsecutiveRule.
Proof.
  split; [| reflexivity].
  repeat constructor; simpl; intuition discriminate.
Qed.

(** ** Examples of the spec *)

(** C7: the five number rules, in the order of [allNumberRules], turn
    [The value is 3.14 today.] into the same text with the period of
    [3.14] replaced by the period marker and nothing else changed; the
    first rule does it in one replacement and the other four find nothing. *)
Theorem number_rules_decimal :
  forall n : nat,
    SubAll (2 + n) allNumberRules exampleDecimal
    = Done exampleDecimalProtected.
Proof.
  intro n. vm_compute. reflexivity.
Qed.

(** C3: on [He said, "Stop. Go." Then left.] the protector replaces the
    two periods inside the quotation with the period marker and leaves
    every other byte, the final period included, as it was. *)
Theorem quote_protection_example :
  replaceBetweenQuotes exampleQuote = exampleQuoteProtected.
Proof.
  vm_compute. reflexivity.
Qed.

(** ** Faults of [Sub] *)

(** C1 (the code fails it): on a pattern without a capturing group the
    index slice has two entries, and [Sub] panics reading [loc[2]] at the
    first match instead of replacing the whole match. *)
Theorem Sub_without_group_panics :
  forall n : nat,
    Sub (S n) singleUpperCaseLetterRule (str " A. ")
    = Panics IndexOutOfRange /\
    Sub (S n) otherThreePeriodRule (str "Wait... Really?")
    = Panics IndexOutOfRange.
Proof.
  intro n. split; vm_compute; reflexivity.
Qed.

(** C4 (the code fails it): on [Corp.'s] the second alternative matches,
    group 1 took no part, [loc[2]] is -1 and [Sub] panics slicing the
    text; with white space after ['s] the period is masked. *)
Theorem Sub_possessive_end_of_text_panics :
  forall n : nat,
    FindStringSubmatchIndex (Pattern possessiveAbbreviationRule)
                            (str "Corp.'s") = [4; 7; -1; -1; 4; 5; -1; -1] /\
    Sub (S n) possessiveAbbreviationRule (str "Corp.'s")
    = Panics SliceBoundsOutOfRange /\
    Sub (2 + n) possessiveAbbreviationRule (str "Corp.'s profit")
    = Done (str "Corp" ++ periodMarker ++ str "'s profit").
Proof.
  intro n. repeat split; vm_compute; reflexivity.
Qed.

(** C2, as stated, fails: on the rule [(a)] replaced by [a] and the text
    [a] the loop neither returns nor reports a fault, whatever the number
    of turns. *)
Lemma Sub_reapplying_rule_never_stops :
  ~ exists n : nat, stopped (Sub n reapplyingRule (str "a")) = true.
Proof.
  intros [n H]. induction n as [| n IH].
  - discriminate H.
  - apply IH. exact H.
Qed.

(** ** [strings.Replace] and the replacers *)

Lemma eqbytes_refl : forall a, eqbytes a a = true.
Proof.
  intro a. unfold eqbytes.
  destruct (list_eq_dec ascii_dec a a); congruence.
Qed.

Lemma eqbytes_eq : forall a b, eqbytes a b = true -> a = b.
Proof.
  intros a b. unfold eqbytes.
  destruct (list_eq_dec ascii_dec a b); congruence.
Qed.

Lemma Replace_same : forall s old, Replace s old old = s.
Proof. intros s old. unfold Replace. rewrite eqbytes_refl. reflexivity. Qed.

(** Replacing a single byte leaves none of it behind. *)
Lemma replaceScan_byte_gone :
  forall (q : ascii) (new s : gostring),
    ~ In q new -> ~ In q (replaceScan [q] new 0 s).
Proof.
  intros q new s Hnew. induction s as [| c s IH]; simpl.
  - tauto.
  - destruct (Ascii.eqb q c) eqn:E.
    + intro H. apply in_app_or in H.
      destruct H as [H | H]; [exact (Hnew H) | exact (IH H)].
    + intros [H | H].
      * subst c. rewrite Ascii.eqb_refl in E. discriminate.
      * exact (IH H).
Qed.

(** A text without the first byte of [old] has no occurrence of it. *)
Lemma replaceScan_absent :
  forall (q : ascii) (old new s : gostring),
    ~ In q s -> replaceScan (q :: old) new 0 s = s.
Proof.
  intros q old new s. induction s as [| c s IH]; simpl; intro H.
  - reflexivity.
  - destruct (Ascii.eqb q c) eqn:E.
    + apply Ascii.eqb_eq in E. subst c. exfalso. apply H. left. reflexivity.
    + f_equal. apply IH. intro H'. apply H. right. exact H'.
Qed.

(** C10: in [replacePunctuation] the step that replaces [? ] does
    nothing: whatever the current [r.text] and the string handed to the
    question-mark step, that step leaves no [?] in the string it returns, so
    the next one returns it unchanged and rewrites [r.text] to itself. *)
Theorem question_space_step_is_dead :
  forall rtext content : gostring,
    let r5 := sub rtext content (str "?") questionMarker in
    ~ In "?"%char (snd r5) /\
    sub (fst r5) (snd r5) (str "? ") questionSpaceMarker = r5.
Proof.
  intros rtext content r5.
  assert (Hgone : ~ In "?"%char (snd r5)).
  { subst r5. unfold sub. cbn [snd]. unfold Replace.
    replace (eqbytes (str "?") questionMarker) with false by reflexivity.
    change (str "?") with ["?"%char].
    apply replaceScan_byte_gone. vm_compute. intuition discriminate. }
  split; [exact Hgone |].
  destruct r5 as [t5 sub5] eqn:E. cbn [fst snd] in *.
  unfold sub.
  assert (Hid : Replace sub5 (str "? ") questionSpaceMarker = sub5).
  { unfold Replace.
    replace (eqbytes (str "? ") questionSpaceMarker) with false by reflexivity.
    change (str "? ") with ("?"%char :: [" "%char]).
    apply replaceScan_absent. exact Hgone. }
  rewrite Hid, Replace_same. reflexivity.
Qed.

(** ** Escaping and unescaping the reserved characters *)

Lemma escape_cons :
  forall (c : ascii) (s : gostring),
    escape (c :: s)
    = (if isReserved c then [backslash; c] else [c]) ++ escape s.
Proof.
  intros c s. unfold escape, isReserved. cbn -[Ascii.eqb].
  rewrite !(Ascii.eqb_sym c).
  destruct (Ascii.eqb "(" c) eqn:E1;
    [apply Ascii.eqb_eq in E1; subst c; reflexivity |].
  destruct (Ascii.eqb ")" c) eqn:E2;
    [apply Ascii.eqb_eq in E2; subst c; reflexivity |].
  destruct (Ascii.eqb "[" c) eqn:E3;
    [apply Ascii.eqb_eq in E3; subst c; reflexivity |].
  destruct (Ascii.eqb "]" c) eqn:E4;
    [apply Ascii.eqb_eq in E4; subst c; reflexivity |].
  destruct (Ascii.eqb "-" c) eqn:E5;
    [apply Ascii.eqb_eq in E5; subst c; reflexivity |].
  reflexivity.
Qed.

(** An escaped text never starts with a reserved character. *)
Lemma escape_head :
  forall s : gostring,
    match escape s with
    | d :: _ => isReserved d = false
    | [] => True
    end.
Proof.
  intros [| c s]; [exact I |].
  rewrite escape_cons. destruct (isReserved c) eqn:E; simpl.
  - reflexivity.
  - exact E.
Qed.

Lemma unescape_cons :
  forall (c : ascii) (s : gostring),
    unescape (c :: s)
    = if Ascii.eqb backslash c
      then match s with
           | d :: s' => if isReserved d then d :: unescape s'
                        else c :: unescape s
           | [] => [c]
           end
      else c :: unescape s.
Proof.
  intros c s. unfold unescape, isReserved. cbn -[Ascii.eqb backslash].
  destruct (Ascii.eqb backslash c) eqn:Ec; [| reflexivity].
  destruct s as [| d s']; [reflexivity |]. cbn -[Ascii.eqb backslash].
  rewrite !(Ascii.eqb_sym d).
  destruct (Ascii.eqb "(" d) eqn:E1;
    [apply Ascii.eqb_eq in E1; subst d; reflexivity |].
  destruct (Ascii.eqb ")" d) eqn:E2;
    [apply Ascii.eqb_eq in E2; subst d; reflexivity |].
  destruct (Ascii.eqb "[" d) eqn:E3;
    [apply Ascii.eqb_eq in E3; subst d; reflexivity |].
  destruct (Ascii.eqb "]" d) eqn:E4;
    [apply Ascii.eqb_eq in E4; subst d; reflexivity |].
  destruct (Ascii.eqb "-" d) eqn:E5;
    [apply Ascii.eqb_eq in E5; subst d; reflexivity |].
  reflexivity.
Qed.

Lemma isReserved_backslash : isReserved backslash = false.
Proof. reflexivity. Qed.

Lemma unescape_escape : forall s : gostring, unescape (escape s) = s.
Proof.
  induction s as [| c s IH]; [reflexivity |].
  rewrite escape_cons. destruct (isReserved c) eqn:Er; simpl app.
  - rewrite unescape_cons, Ascii.eqb_refl, Er, IH. reflexivity.
  - rewrite unescape_cons. destruct (Ascii.eqb backslash c) eqn:Ec.
    + pose proof (escape_head s) as Hh.
      destruct (escape s) as [| d s'] eqn:Es.
      * simpl in IH. subst s. reflexivity.
      * rewrite Hh, IH. reflexivity.
    + rewrite IH. reflexivity.
Qed.

(** C6: when the pattern of a span kind has no match in the text,
    [subPat] returns the text as it was, because unescaping undoes the
    escaping of the reserved characters on every string. *)
Theorem subPat_no_match_identity :
  forall (txt mtype : gostring) (pat : regex),
    FindAllString pat txt = [] ->
    subPat txt mtype pat = txt /\
    (forall s : gostring, unescape (escape s) = s).
Proof.
  intros txt mtype pat H. split; [| exact unescape_escape].
  unfold subPat, replace, replacePunctuation. rewrite H. simpl.
  apply unescape_escape.
Qed.

Lemma subPat_no_match_identity_witness :
  FindAllString betweenParensRE exampleUnbalanced = [] /\
  subPat exampleUnbalanced (str "double") betweenParensRE = exampleUnbalanced.
Proof.
  split.
  - vm_compute. reflexivity.
  - apply (subPat_no_match_identity exampleUnbalanced (str "double")
                                    betweenParensRE).
    vm_compute. reflexivity.
Defined.

(** ** Bytes, prefixes and the decoder *)

Lemma byteZ_range : forall c : ascii, 0 <= byteZ c < 256.
Proof.
  intro c. unfold byteZ. pose proof (N_ascii_bounded c) as H. lia.
Qed.

Lemma len_app : forall a b : gostring, len (a ++ b) = len a + len b.
Proof. intros a b. unfold len. rewrite length_app. lia. Qed.

Lemma len_nonneg : forall a : gostring, 0 <= len a.
Proof. intro a. unfold len. lia. Qed.

Lemma stripPrefix_Some :
  forall p s r : gostring, stripPrefix p s = Some r -> s = p ++ r.
Proof.
  induction p as [| a p IH]; intros s r H; simpl in H.
  - injection H as ->. reflexivity.
  - destruct s as [| b s]; [discriminate |].
    destruct (Ascii.eqb a b) eqn:E; [| discriminate].
    apply Ascii.eqb_eq in E. subst b. simpl. f_equal. apply IH. exact H.
Qed.

Lemma stripPrefix_app :
  forall p r : gostring, stripPrefix p (p ++ r) = Some r.
Proof.
  induction p as [| a p IH]; intro r; simpl.
  - reflexivity.
  - rewrite Ascii.eqb_refl. apply IH.
Qed.

(** A decoding step takes a non-empty prefix off the text. *)
Lemma step_split :
  forall (s s' : gostring) (c w : Z),
    step s = Some (c, w, s') ->
    exists seg : gostring, s = seg ++ s' /\ len seg = w /\ seg <> [].
Proof.
  intros s s' c w H. unfold step in H.
  destruct s as [| c0 s1]; [discriminate |].
  assert (Hbad : Some (RuneError, 1, s1) = Some (c, w, s') ->
                 exists seg : gostring,
                   c0 :: s1 = seg ++ s' /\ len seg = w /\ seg <> []).
  { intro E. injection E as <- <- <-. exists [c0]. repeat split. discriminate. }
  cbv zeta in H.
  destruct (byteZ c0 <? 128).
  { injection H as <- <- <-. exists [c0]. repeat split. discriminate. }
  destruct ((194 <=? byteZ c0) && (byteZ c0 <=? 223)).
  { destruct s1 as [| c1 s2]; [auto |].
    destruct (isCont (byteZ c1)); [| auto].
    injection H as <- <- <-. exists [c0; c1]. repeat split. discriminate. }
  destruct ((224 <=? byteZ c0) && (byteZ c0 <=? 239)).
  { destruct s1 as [| c1 [| c2 s3]]; [auto | auto |].
    destruct (accepts (byteZ c0) (byteZ c1) && isCont (byteZ c2)); [| auto].
    injection H as <- <- <-. exists [c0; c1; c2]. repeat split. discriminate. }
  destruct ((240 <=? byteZ c0) && (byteZ c0 <=? 244)); [| auto].
  destruct s1 as [| c1 [| c2 [| c3 s4]]]; [auto | auto | auto |].
  destruct (accepts (byteZ c0) (byteZ c1) && isCont (byteZ c2)
            && isCont (byteZ c3)); [| auto].
  injection H as <- <- <-. exists [c0; c1; c2; c3]. repeat split. discriminate.
Qed.

(** ** Termination of [Sub] on shrinking rules *)

Lemma weight_app :
  forall wt (a b : gostring),
    weight wt (a ++ b) = (weight wt a + weight wt b)%nat.
Proof. intros wt a b. unfold weight. rewrite filter_app, length_app. reflexivity. Qed.

Lemma weight_le_length :
  forall wt (s : gostring), (weight wt s <= length s)%nat.
Proof. intros wt s. unfold weight. apply filter_length_le. Qed.

Lemma length_upd :
  forall n v l, length (upd n v l) = length l.
Proof.
  induction n as [| n IH]; intros v [| x l]; simpl; try reflexivity.
  rewrite IH. reflexivity.
Qed.

Lemma nth_error_upd_same :
  forall n v l, (n < length l)%nat -> nth_error (upd n v l) n = Some v.
Proof.
  induction n as [| n IH]; intros v [| x l] H; simpl in *; try lia.
  - reflexivity.
  - apply IH. lia.
Qed.

Lemma nth_error_upd_other :
  forall n m v l, n <> m -> nth_error (upd n v l) m = nth_error l m.
Proof.
  induction n as [| n IH]; intros [| m] v [| x l] H; simpl; try reflexivity.
  - contradiction.
  - apply IH. lia.
Qed.

Lemma nth_error_repeat_inv :
  forall (x y : Z) n m, nth_error (repeat x n) m = Some y -> y = x.
Proof.
  intros x y n. induction n as [| n IH]; intros [| m] H; simpl in H;
    try discriminate.
  - congruence.
  - eapply IH. exact H.
Qed.

Section Invariant.

Variable T : gostring.            (* the text searched *)
Variable wt : ascii -> bool.
Variable W : nat.                 (* the weight of the replacement *)

Lemma coh_app :
  forall pos seg s', coh T pos (seg ++ s') -> coh T (pos + len seg) s'.
Proof.
  intros pos seg s' [p [HT Hp]]. exists (p ++ seg). split.
  - rewrite <- app_assoc. exact HT.
  - rewrite len_app. lia.
Qed.

Lemma capInv_setcap_other :
  forall i a b cap, i <> 1%nat -> capInv T wt W cap -> capInv T wt W (setcap i a b cap).
Proof.
  intros i a b cap Hi H. unfold capInv, setcap in *.
  rewrite !nth_error_upd_other by lia. exact H.
Qed.

Lemma capInv_setcap_one :
  forall pos seg s' cap,
    coh T pos (seg ++ s') -> (W < weight wt seg)%nat ->
    capInv T wt W (setcap 1 pos (pos + len seg) cap).
Proof.
  intros pos seg s' cap [p [HT Hp]] HW. unfold capInv, setcap.
  change (2 * 1)%nat with 2%nat. change (2 + 1)%nat with 3%nat.
  rewrite (nth_error_upd_other 3 2) by lia.
  destruct (nth_error (upd 2 pos cap) 2) as [lo |] eqn:E2; [| exact I].
  destruct (nth_error (upd 3 (pos + len seg) (upd 2 pos cap)) 3)
    as [hi |] eqn:E3; [| exact I].
  right. exists p, seg, s'.
  assert (L2 : (2 < length (upd 2 pos cap))%nat)
    by (apply nth_error_Some; congruence).
  assert (L3 : (3 < length (upd 3 (pos + len seg) (upd 2 pos cap)))%nat)
    by (apply nth_error_Some; congruence).
  rewrite length_upd in L2. rewrite length_upd in L3.
  rewrite nth_error_upd_same in E2 by exact L2.
  rewrite nth_error_upd_same in E3 by exact L3.
  injection E2 as <-. injection E3 as <-. subst pos. auto.
Qed.

Lemma contOK_app :
  forall k res Q pos seg s',
    contOK T wt W k res Q 0 pos (seg ++ s') -> contOK T wt W k res Q 0 (pos + len seg) s'.
Proof.
  intros k res Q pos seg s' H seg2 s2 cap2 Hs _ Hc Hk.
  apply (H (seg ++ seg2) s2 cap2).
  - rewrite Hs, app_assoc. reflexivity.
  - lia.
  - exact Hc.
  - rewrite len_app, Z.add_assoc. exact Hk.
Qed.

Lemma contOK_nil :
  forall k res Q pos s cap,
    contOK T wt W k res Q 0 pos s -> capInv T wt W cap -> k pos s cap = Some res -> Q.
Proof.
  intros k res Q pos s cap Hk Hc H. apply (Hk [] s cap).
  - reflexivity.
  - apply Nat.le_0_l.
  - exact Hc.
  - change (len []) with 0. rewrite Z.add_0_r. exact H.
Qed.

Lemma starLoop_inv :
  forall body,
    (forall pos s cap k res Q,
        coh T pos s -> capInv T wt W cap -> contOK T wt W k res Q 0 pos s ->
        body pos s cap k = Some res -> Q) ->
    forall k res Q fuel pos s cap,
      coh T pos s -> capInv T wt W cap -> contOK T wt W k res Q 0 pos s ->
      starLoop body k fuel pos s cap = Some res -> Q.
Proof.
  intros body Hbody k res Q fuel.
  induction fuel as [| fuel IH]; intros pos s cap Hcoh Hcap Hk H; simpl in H.
  - exact (contOK_nil _ _ _ _ _ _ Hk Hcap H).
  - match type of H with
    | match ?b with _ => _ end = _ => destruct b as [res' |] eqn:E
    end.
    + injection H as ->.
      apply (Hbody _ _ _ _ _ Q Hcoh Hcap) in E; [exact E |].
      intros seg s1 cap1 Hs _ Hc1 Hk1.
      destruct (pos <? pos + len seg); [| discriminate].
      subst s.
      apply (IH _ _ _ (coh_app _ _ _ Hcoh) Hc1
                (contOK_app _ _ _ _ _ _ Hk) Hk1).
    + exact (contOK_nil _ _ _ _ _ _ Hk Hcap H).
Qed.

Lemma contOK_weaken :
  forall k res Q lower pos s,
    contOK T wt W k res Q 0 pos s -> contOK T wt W k res Q lower pos s.
Proof.
  intros k res Q lower pos s H seg s' cap' Hs _ Hc Hk.
  apply (H seg s' cap' Hs); auto. lia.
Qed.

(** What a successful match hands to its continuation. *)
Lemma rmatch_inv :
  forall re,
    shrinks wt W re = true ->
    forall pos s cap k res Q,
      coh T pos s -> capInv T wt W cap ->
      contOK T wt W k res Q (minWeight wt re) pos s ->
      rmatch re pos s cap k = Some res -> Q.
Proof.
  induction re as [| bs | p | r1 IH1 r2 IH2 | r1 IH1 r2 IH2 | r IH | i r IH
                   | |];
    intros Hsh pos s cap k res Q Hcoh Hcap Hk H; simpl in *.
  - (* Eps *)
    exact (contOK_nil _ _ _ _ _ _ Hk Hcap H).
  - (* Lit *)
    destruct (stripPrefix bs s) as [s' |] eqn:E; [| discriminate].
    apply stripPrefix_Some in E.
    apply (Hk bs s' cap); auto.
  - (* Class *)
    destruct (step s) as [[[c w] s'] |] eqn:E; [| discriminate].
    destruct (p c); [| discriminate].
    destruct (step_split _ _ _ _ E) as [seg [Hs [Hw _]]].
    apply (Hk seg s' cap); auto; [lia | rewrite Hw; exact H].
  - (* Cat *)
    apply andb_prop in Hsh. destruct Hsh as [Hs1 Hs2].
    apply (IH1 Hs1 _ _ _ _ _ Q Hcoh Hcap) in H; [exact H |].
    intros seg1 s1 cap1 Hseg1 Hw1 Hc1 H1. subst s.
    apply (IH2 Hs2 _ _ _ _ _ Q (coh_app _ _ _ Hcoh) Hc1) in H1; [exact H1 |].
    intros seg2 s2 cap2 Hseg2 Hw2 Hc2 H2.
    apply (Hk (seg1 ++ seg2) s2 cap2).
    + rewrite Hseg2, app_assoc. reflexivity.
    + rewrite weight_app. lia.
    + exact Hc2.
    + rewrite len_app, Z.add_assoc. exact H2.
  - (* Alt *)
    apply andb_prop in Hsh. destruct Hsh as [Hs1 Hs2].
    destruct (rmatch r1 pos s cap k) as [res' |] eqn:E.
    + injection H as ->.
      apply (IH1 Hs1 _ _ _ _ _ Q Hcoh Hcap) in E; [exact E |].
      intros seg s' cap' Hs Hw. apply (Hk seg s' cap' Hs). lia.
    + apply (IH2 Hs2 _ _ _ _ _ Q Hcoh Hcap) in H; [exact H |].
      intros seg s' cap' Hs Hw. apply (Hk seg s' cap' Hs). lia.
  - (* Star *)
    refine (starLoop_inv (rmatch r) _ k res Q _ pos s cap Hcoh Hcap Hk H).
    intros pos0 s0 cap0 k0 res0 Q0 Hcoh0 Hcap0 Hk0.
    apply (IH Hsh); auto. apply contOK_weaken. exact Hk0.
  - (* Group *)
    apply andb_prop in Hsh. destruct Hsh as [Hone Hs].
    apply (IH Hs _ _ _ _ _ Q Hcoh Hcap) in H; [exact H |].
    intros seg s' cap' Hseg Hw Hc Hk'.
    apply (Hk seg s' (setcap i pos (pos + len seg) cap') Hseg Hw);
      [| exact Hk'].
    destruct (Nat.eqb_spec i 1) as [-> | Hne].
    + apply Nat.ltb_lt in Hone. subst s.
      apply (capInv_setcap_one pos seg s'); [exact Hcoh | lia].
    + apply capInv_setcap_other; assumption.
  - (* BeginText *)
    destruct (pos =? 0); [| discriminate].
    exact (contOK_nil _ _ _ _ _ _ Hk Hcap H).
  - (* EndText *)
    destruct s; [| discriminate].
    exact (contOK_nil _ _ _ _ _ _ Hk Hcap H).
Qed.

Lemma capInv_nocap : forall re, capInv T wt W (nocap re).
Proof.
  intro re. unfold capInv, nocap.
  destruct (nth_error _ 2) as [lo |] eqn:E; [| exact I].
  destruct (nth_error _ 3) as [hi |]; [| exact I].
  left. eapply nth_error_repeat_inv. exact E.
Qed.

Lemma matchAt_inv :
  forall re pos s loc,
    shrinks wt W re = true -> coh T pos s ->
    matchAt re pos s = Some loc -> capInv T wt W loc.
Proof.
  intros re pos s loc Hsh Hcoh H. unfold matchAt in H.
  apply (rmatch_inv re Hsh _ _ _ _ _ (capInv T wt W loc) Hcoh (capInv_nocap re))
    in H; [exact H |].
  intros seg s' cap' _ _ Hc Hk. injection Hk as <-.
  apply capInv_setcap_other; [discriminate | exact Hc].
Qed.

End Invariant.

(** A match reported by [search] is a match at some offset of the text. *)
Lemma search_sound :
  forall re s pos skip loc,
    search re pos skip s = loc -> loc <> [] ->
    exists p s', s = p ++ s' /\ matchAt re (pos + len p) s' = Some loc.
Proof.
  intros re s. induction s as [| c s IH]; intros pos skip loc H Hne.
  - destruct skip; simpl in H; [| congruence].
    destruct (matchAt re pos []) as [l |] eqn:E; [| congruence].
    exists [], []. split; [reflexivity |].
    change (len []) with 0. rewrite Z.add_0_r. congruence.
  - destruct skip as [| j]; simpl in H.
    + destruct (matchAt re pos (c :: s)) as [l |] eqn:E.
      * exists [], (c :: s). split; [reflexivity |].
        change (len []) with 0. rewrite Z.add_0_r. congruence.
      * destruct (IH _ _ _ H Hne) as [p [s' [Hs Hm]]].
        exists (c :: p), s'. split; [simpl; congruence |].
        replace (pos + len (c :: p)) with (pos + 1 + len p);
          [exact Hm | unfold len; simpl length; lia].
    + destruct (IH _ _ _ H Hne) as [p [s' [Hs Hm]]].
      exists (c :: p), s'. split; [simpl; congruence |].
      replace (pos + len (c :: p)) with (pos + 1 + len p);
        [exact Hm | unfold len; simpl length; lia].
Qed.

Lemma sliceTo_app :
  forall a b : gostring, sliceTo (a ++ b) (len a) = Some a.
Proof.
  intros a b. unfold sliceTo. rewrite len_app.
  pose proof (len_nonneg a). pose proof (len_nonneg b).
  replace ((0 <=? len a) && (len a <=? len a + len b)) with true
    by (symmetry; apply andb_true_intro; split; apply Z.leb_le; lia).
  unfold len. rewrite Nat2Z.id, firstn_app, firstn_all, Nat.sub_diag.
  simpl. rewrite app_nil_r. reflexivity.
Qed.

Lemma sliceFrom_app :
  forall a b : gostring, sliceFrom (a ++ b) (len a) = Some b.
Proof.
  intros a b. unfold sliceFrom. rewrite len_app.
  pose proof (len_nonneg a). pose proof (len_nonneg b).
  replace ((0 <=? len a) && (len a <=? len a + len b)) with true
    by (symmetry; apply andb_true_intro; split; apply Z.leb_le; lia).
  unfold len. rewrite Nat2Z.id, skipn_app, skipn_all, Nat.sub_diag.
  reflexivity.
Qed.

Lemma sliceTo_negative : forall s : gostring, sliceTo s (-1) = None.
Proof. reflexivity. Qed.

(** One replacement of a shrinking rule lowers the weight of the text. *)
Lemma subTurn_shrinks :
  forall wt r txt txt',
    shrinking wt r = true -> subTurn r txt = Replaced txt' ->
    (weight wt txt' < weight wt txt)%nat.
Proof.
  intros wt r txt txt' Hsh H. unfold subTurn in H.
  remember (FindStringSubmatchIndex (Pattern r) txt) as loc eqn:Hloc.
  destruct (0 <? length loc)%nat eqn:Hlen; [| discriminate].
  assert (Hne : loc <> []).
  { intro E. subst loc. rewrite E in Hlen. discriminate. }
  symmetry in Hloc. unfold FindStringSubmatchIndex in Hloc.
  destruct (search_sound _ _ _ _ _ Hloc Hne) as [p [s' [Hs Hm]]].
  assert (Hcoh : coh txt (0 + len p) s').
  { exists p. split; [exact Hs | lia]. }
  pose proof (matchAt_inv txt wt _ _ _ _ _ Hsh Hcoh Hm) as Hinv.
  unfold capInv in Hinv.
  destruct (nth_error loc 2) as [lo |]; [| discriminate].
  destruct (nth_error loc 3) as [hi |]; [| discriminate].
  destruct Hinv as [-> | [a [seg [b [HT [Hlo [Hhi HW]]]]]]].
  - rewrite sliceTo_negative in H. discriminate.
  - subst lo hi. clear Hs Hcoh Hm Hloc. subst txt.
    rewrite sliceTo_app in H.
    rewrite app_assoc, <- len_app, sliceFrom_app in H.
    injection H as <-. rewrite !weight_app. lia.
Qed.

Lemma Sub_stops_within :
  forall wt r, shrinking wt r = true ->
    forall m txt, (weight wt txt < m)%nat ->
      exists n, (n <= weight wt txt + 1)%nat /\ stopped (Sub n r txt) = true.
Proof.
  intros wt r Hsh m. induction m as [| m IH]; intros txt Hm; [lia |].
  destruct (subTurn r txt) as [| txt' | f] eqn:E.
  - exists 1%nat. split; [lia |]. simpl. rewrite E. reflexivity.
  - pose proof (subTurn_shrinks _ _ _ _ Hsh E) as Hlt.
    destruct (IH txt') as [n [Hn Hstop]]; [lia |].
    exists (S n). split; [lia |]. simpl. rewrite E. exact Hstop.
  - exists 1%nat. split; [lia |]. simpl. rewrite E. reflexivity.
Qed.

(** C2 (amended): [Sub] has no bound of its own; a rule whose first
    capturing group always covers more weight (more periods, or more bytes)
    than its replacement holds stops, by returning or by a panic, within
    [len(text) + 1] turns of the loop. *)
Theorem Sub_shrinking_rule_stops :
  forall (wt : ascii -> bool) (r : Rule),
    shrinking wt r = true ->
    forall txt : gostring,
      exists n : nat,
        (n <= length txt + 1)%nat /\ stopped (Sub n r txt) = true.
Proof.
  intros wt r Hsh txt.
  destruct (Sub_stops_within wt r Hsh (S (weight wt txt)) txt) as [n [Hn Hs]];
    [lia |].
  exists n. split; [| exact Hs].
  pose proof (weight_le_length wt txt). lia.
Qed.

Lemma Sub_shrinking_rule_stops_witness :
  shrinking isPeriod periodBeforeNumberRule = true /\
  exists n : nat,
    (n <= length exampleDecimal + 1)%nat /\
    stopped (Sub n periodBeforeNumberRule exampleDecimal) = true.
Proof.
  split.
  - reflexivity.
  - apply (Sub_shrinking_rule_stops isPeriod periodBeforeNumberRule).
    reflexivity.
Defined.

(** Every rule of the tables is shrinking, the AM/PM rules by the number
    of bytes and the others by the number of periods: [Sub] stops on every
    text with each of them. *)
Lemma table_rules_shrinking :
  forallb (fun r => shrinking isPeriod r || shrinking anyByte r) allRules
  = true.
Proof. reflexivity. Qed.

(** With each of the eighteen rules of the tables [Sub] stops on every
    text, by returning or by a panic, within [len(text) + 1] turns of its
    loop: none of them can loop for ever. *)
Corollary Sub_table_rule_stops :
  forall r, In r allRules ->
    forall txt : gostring,
      exists n : nat,
        (n <= length txt + 1)%nat /\ stopped (Sub n r txt) = true.
Proof.
  intros r Hin txt.
  pose proof table_rules_shrinking as H. rewrite forallb_forall in H.
  specialize (H r Hin). apply orb_prop in H.
  assert (G : forall wt, shrinking wt r = true ->
                         exists n : nat,
                           (n <= length txt + 1)%nat /\
                           stopped (Sub n r txt) = true).
  { intros wt Hsh.
    destruct (Sub_stops_within wt r Hsh (S (weight wt txt)) txt)
      as [n [Hn Hs]]; [lia |].
    exists n. split; [| exact Hs].
    pose proof (weight_le_length wt txt). lia. }
  destruct H as [H | H]; eapply G; exact H.
Qed.

(** ** The decoder on ASCII and on the other bytes *)

Lemma step_ascii :
  forall (b : ascii) (s : gostring),
    byteZ b < 128 -> step (b :: s) = Some (byteZ b, 1, s).
Proof.
  intros b s H. unfold step. cbv zeta.
  replace (byteZ b <? 128) with true by (symmetry; apply Z.ltb_lt; exact H).
  reflexivity.
Qed.

Ltac boolz :=
  repeat match goal with
         | H : (_ && _) = true |- _ => apply andb_prop in H; destruct H
         | H : (_ <=? _) = true |- _ => apply Z.leb_le in H
         | H : (_ <? _) = true |- _ => apply Z.ltb_lt in H
         | H : (_ <? _) = false |- _ => apply Z.ltb_ge in H
         | H : (_ =? _) = true |- _ => apply Z.eqb_eq in H
         | H : (_ =? _) = false |- _ => apply Z.eqb_neq in H
         end.

(** A rune decoded from a non-ASCII byte is not ASCII, and the bytes the
    step takes after the first are not ASCII either. *)
Lemma step_high :
  forall (b : ascii) (s rest : gostring) (c w : Z),
    128 <= byteZ b -> step (b :: s) = Some (c, w, rest) ->
    128 <= c /\ highPrefix (Z.to_nat w - 1) s.
Proof.
  intros b s rest c w Hb H. unfold step in H. cbv zeta in H.
  assert (Hbad : Some (RuneError, 1, s) = Some (c, w, rest) ->
                 128 <= c /\ highPrefix (Z.to_nat w - 1) s).
  { intro E. injection E as <- <- <-. split; [unfold RuneError; lia |].
    exists [], s. repeat split. constructor. }
  destruct (byteZ b <? 128) eqn:E0; [boolz; lia |].
  destruct ((194 <=? byteZ b) && (byteZ b <=? 223)) eqn:E1.
  { destruct s as [| c1 s2]; [auto |].
    destruct (isCont (byteZ c1)) eqn:C1; [| auto].
    injection H as <- <- <-. unfold isCont in C1. boolz. split; [lia |].
    exists [c1], s2. repeat split. repeat constructor. lia. }
  destruct ((224 <=? byteZ b) && (byteZ b <=? 239)) eqn:E2.
  { destruct s as [| c1 [| c2 s3]]; [auto | auto |].
    destruct (accepts (byteZ b) (byteZ c1) && isCont (byteZ c2)) eqn:C;
      [| auto].
    injection H as <- <- <-. unfold accepts, acceptLo, acceptHi, isCont in C.
    split.
    - destruct (byteZ b =? 224) eqn:B0; destruct (byteZ b =? 240) eqn:B1;
        boolz; lia.
    - exists [c1; c2], s3. repeat split.
      destruct (byteZ b =? 224) eqn:B0; destruct (byteZ b =? 240) eqn:B1;
        boolz; repeat constructor; lia. }
  destruct ((240 <=? byteZ b) && (byteZ b <=? 244)) eqn:E3; [| auto].
  destruct s as [| c1 [| c2 [| c3 s4]]]; [auto | auto | auto |].
  destruct (accepts (byteZ b) (byteZ c1) && isCont (byteZ c2)
            && isCont (byteZ c3)) eqn:C; [| auto].
  injection H as <- <- <-. unfold accepts, acceptLo, acceptHi, isCont in C.
  split.
  - destruct (byteZ b =? 224) eqn:B0; destruct (byteZ b =? 240) eqn:B1;
      boolz; lia.
  - exists [c1; c2; c3], s4. repeat split.
    destruct (byteZ b =? 224) eqn:B0; destruct (byteZ b =? 240) eqn:B1;
      boolz; repeat constructor; lia.
Qed.

Lemma step_cons_Some :
  forall (b : ascii) (s : gostring),
    exists c w rest, step (b :: s) = Some (c, w, rest).
Proof.
  intros b s. unfold step. cbv zeta.
  repeat match goal with
         | |- context [if ?x then _ else _] => destruct x
         | |- context [match ?l with [] => _ | _ :: _ => _ end] => destruct l
         end; eauto.
Qed.

(** After any step, the bytes still to pass are not ASCII. *)
Lemma width_highPrefix :
  forall (b : ascii) (s : gostring),
    highPrefix (Z.to_nat (width (b :: s)) - 1) s.
Proof.
  intros b s. unfold width.
  destruct (step_cons_Some b s) as [c [w [rest E]]]. rewrite E.
  destruct (Z.ltb_spec (byteZ b) 128) as [Hlt | Hge].
  - rewrite step_ascii in E by exact Hlt. injection E as <- <- <-.
    exists [], s. repeat split. constructor.
  - exact (proj2 (step_high _ _ _ _ _ Hge E)).
Qed.

(** A class of ASCII runes is a test on the next byte. *)
Lemma class_ascii :
  forall (p : Z -> bool) (A : Type) (K : Z -> gostring -> option A),
    (forall c, p c = true -> c < 128) ->
    forall s : gostring,
      match step s with
      | Some (c, w, s') => if p c then K w s' else None
      | None => None
      end
      = match s with
        | b :: s' => if p (byteZ b) then K 1 s' else None
        | [] => None
        end.
Proof.
  intros p A K Hp [| b s]; [reflexivity |].
  destruct (Z.ltb_spec (byteZ b) 128) as [Hlt | Hge].
  - rewrite step_ascii by exact Hlt. reflexivity.
  - destruct (step_cons_Some b s) as [c [w [rest E]]]. rewrite E.
    pose proof (proj1 (step_high _ _ _ _ _ Hge E)) as Hc.
    destruct (p c) eqn:Pc; [apply Hp in Pc; lia |].
    destruct (p (byteZ b)) eqn:Pb; [apply Hp in Pb; lia |].
    reflexivity.
Qed.

Lemma isSpace_ascii : forall c, isSpace c = true -> c < 128.
Proof.
  intros c H. unfold isSpace in H.
  repeat (apply orb_prop in H; destruct H as [H | H]); boolz; lia.
Qed.

Lemma isUpper_ascii : forall c, isUpper c = true -> c < 128.
Proof. intros c H. unfold isUpper, inRange in H. boolz. lia. Qed.

(** ** The AM/PM rules on every text *)

Lemma cons_eq_app :
  forall (A : Type) (c : A) (l p1 p2 : list A),
    c :: l = p1 ++ p2 ->
    (p1 = [] /\ p2 = c :: l) \/ (exists p1', p1 = c :: p1' /\ l = p1' ++ p2).
Proof.
  intros A c l [| x p1] p2 H; simpl in H.
  - left. auto.
  - right. injection H as <- ->. eauto.
Qed.

Section AmPm.

Variables a m : ascii.
Variable mk : gostring.
Hypothesis Ha : isLetter (byteZ a) = true.
Hypothesis Ham : a <> m.
Hypothesis Hmk : mk <> [].
Hypothesis Hhigh : forallb (fun x => 128 <=? byteZ x) mk = true.

Let head : gostring := a :: mk ++ [m].
Let re : regex := amPmPattern a m mk.
Let fires := amPmFires a m mk.
Let unmask := unmaskAmPm a m mk.

(** The index slice of the occurrence at offset [pos]. *)
Let locAt (pos : Z) : list Z :=
  [pos; pos + len head + len mk + 2; pos + len head; pos + len head + len mk].

Lemma a_ascii : byteZ a < 128.
Proof.
  unfold isLetter, isLower, isUpper, inRange in Ha.
  apply orb_prop in Ha. destruct Ha as [H | H]; boolz; lia.
Qed.

Lemma a_not_space : forall w, isSpace (byteZ w) = true -> w <> a.
Proof.
  intros w Hw ->. unfold isLetter, isLower, isUpper, inRange in Ha.
  unfold isSpace in Hw.
  apply orb_prop in Ha.
  repeat (apply orb_prop in Hw; destruct Hw as [Hw | Hw]);
    destruct Ha as [H | H]; boolz; lia.
Qed.

Lemma a_not_period : a <> "."%char.
Proof.
  intros ->. vm_compute in Ha. discriminate.
Qed.

Lemma mk_high : Forall (fun x => 128 <= byteZ x) mk.
Proof.
  apply Forall_forall. intros x Hx.
  rewrite forallb_forall in Hhigh. apply Z.leb_le. apply Hhigh. exact Hx.
Qed.

Lemma a_not_in_mk : ~ In a mk.
Proof.
  intro H. pose proof mk_high as F. rewrite Forall_forall in F.
  specialize (F a H). pose proof a_ascii. lia.
Qed.

Lemma fires_spec :
  forall s,
    fires s = true <->
    exists w u rest,
      s = head ++ mk ++ w :: u :: rest /\
      isSpace (byteZ w) = true /\ isUpper (byteZ u) = true.
Proof.
  intro s. unfold fires, amPmFires. fold head. split.
  - destruct (stripPrefix head s) as [s1 |] eqn:E1; [| discriminate].
    destruct (stripPrefix mk s1) as [[| w [| u rest]] |] eqn:E2;
      try discriminate.
    intro H. apply andb_prop in H. destruct H as [Hw Hu].
    apply stripPrefix_Some in E1. apply stripPrefix_Some in E2.
    exists w, u, rest. subst. auto.
  - intros [w [u [rest [-> [Hw Hu]]]]].
    rewrite stripPrefix_app, stripPrefix_app, Hw, Hu. reflexivity.
Qed.

Lemma fires_head : forall c s, fires (c :: s) = true -> c = a.
Proof.
  intros c s H. apply fires_spec in H.
  destruct H as [w [u [rest [E _]]]]. unfold head in E. simpl in E.
  congruence.
Qed.

Lemma fires_nil : fires [] = false.
Proof. reflexivity. Qed.

(** The pattern matches at an offset exactly when an occurrence starts
    there. *)
Lemma matchAt_amPm :
  forall pos s,
    matchAt re pos s = if fires s then Some (locAt pos) else None.
Proof.
  intros pos s. unfold matchAt, re, amPmPattern, fires, amPmFires, locAt.
  unfold head. cbn [cats rmatch].
  change ([a] ++ mk ++ [m]) with (a :: mk ++ [m]).
  destruct (stripPrefix (a :: mk ++ [m]) s) as [s1 |]; [| reflexivity].
  destruct (stripPrefix mk s1) as [s2 |]; [| reflexivity].
  rewrite (class_ascii isSpace _ _ isSpace_ascii).
  destruct s2 as [| w s3]; [reflexivity |].
  destruct (isSpace (byteZ w)); [| destruct s3; reflexivity].
  rewrite (class_ascii isUpper _ _ isUpper_ascii).
  destruct s3 as [| u rest]; [reflexivity |].
  destruct (isUpper (byteZ u)); [| reflexivity].
  cbn. repeat (f_equal; try lia).
Qed.

Lemma search_noFire :
  forall s pos skip, noFire a m mk s -> search re pos skip s = [].
Proof.
  induction s as [| c s IH]; intros pos skip Hno.
  - destruct skip; cbn [search]; [| reflexivity].
    rewrite matchAt_amPm, fires_nil. reflexivity.
  - assert (Hno' : noFire a m mk s).
    { intros p1 p2 E. apply (Hno (c :: p1) p2). simpl. congruence. }
    destruct skip as [| j]; cbn [search].
    + rewrite matchAt_amPm.
      replace (fires (c :: s)) with false
        by (symmetry; apply (Hno [] (c :: s)); reflexivity).
      apply IH. exact Hno'.
    + apply IH. exact Hno'.
Qed.

Lemma zoneFree_tail :
  forall c p s, zoneFree a m mk (c :: p) s -> zoneFree a m mk p s.
Proof.
  intros c p s H p1 p2 E Hne. apply (H (c :: p1) p2); [| exact Hne].
  simpl. congruence.
Qed.

Lemma highPrefix_tail :
  forall j c t, highPrefix (S j) (c :: t) -> highPrefix j t.
Proof.
  intros j c t [conts [t' [E [L F]]]].
  destruct conts as [| x conts]; [discriminate |].
  simpl in E. injection E as <- ->. inversion F; subst.
  exists conts, t'. simpl in L. repeat split; [lia | assumption].
Qed.

(** The leftmost occurrence is the one [search] reports. *)
Lemma search_first :
  forall p s pos skip,
    zoneFree a m mk p s -> fires s = true -> highPrefix skip (p ++ s) ->
    search re pos skip (p ++ s) = locAt (pos + len p).
Proof.
  induction p as [| c p IH]; intros s pos skip Hz Hf Hh.
  - simpl app in *. change (len []) with 0. rewrite Z.add_0_r.
    destruct skip as [| j].
    + destruct s as [| c s]; [rewrite fires_nil in Hf; discriminate |].
      cbn [search]. rewrite matchAt_amPm, Hf. reflexivity.
    + exfalso. destruct Hh as [conts [t' [E [L F]]]].
      destruct conts as [| x conts]; [discriminate |].
      destruct s as [| c s]; [discriminate |].
      simpl in E. injection E as <- _. apply fires_head in Hf. subst c.
      inversion F; subst. pose proof a_ascii. lia.
  - simpl app.
    replace (pos + len (c :: p)) with (pos + 1 + len p)
      by (unfold len; simpl length; lia).
    destruct skip as [| j]; cbn [search].
    + rewrite matchAt_amPm.
      replace (fires (c :: p ++ s)) with false
        by (symmetry; apply (Hz [] (c :: p)); [reflexivity | discriminate]).
      apply IH; [eapply zoneFree_tail; exact Hz | exact Hf |].
      apply width_highPrefix.
    + apply IH; [eapply zoneFree_tail; exact Hz | exact Hf |].
      eapply highPrefix_tail. exact Hh.
Qed.

(** A text has no occurrence, or a leftmost one. *)
Lemma first_occurrence :
  forall s,
    noFire a m mk s \/
    exists s1 s2, s = s1 ++ s2 /\ zoneFree a m mk s1 s2 /\ fires s2 = true.
Proof.
  induction s as [| c s IH].
  - left. intros p1 p2 E. symmetry in E. apply app_eq_nil in E.
    destruct E as [_ ->]. reflexivity.
  - destruct (fires (c :: s)) eqn:Hf.
    + right. exists [], (c :: s). repeat split; [| exact Hf].
      intros p1 p2 E Hne. symmetry in E. apply app_eq_nil in E.
      destruct E as [_ ->]. contradiction.
    + destruct IH as [Hno | [s1 [s2 [E [Hz Hf2]]]]].
      * left. intros p1 p2 E.
        destruct (cons_eq_app _ _ _ _ _ E) as [[-> ->] | [p1' [-> E']]].
        -- exact Hf.
        -- apply (Hno p1' p2 E').
      * right. exists (c :: s1), s2. repeat split;
          [simpl; congruence | | exact Hf2].
        intros p1 p2 E' Hne.
        destruct (cons_eq_app _ _ _ _ _ E') as [[-> ->] | [p1' [-> E'']]].
        -- simpl. rewrite <- E. exact Hf.
        -- apply (Hz p1' p2 E'' Hne).
Qed.

Lemma unmask_skip :
  forall p t j, unmask (length p + j) (p ++ t) = unmask j t.
Proof.
  induction p as [| c p IH]; intros t j; [reflexivity |].
  simpl. apply IH.
Qed.

Lemma unmask_zoneFree :
  forall p t, zoneFree a m mk p t -> unmask 0 (p ++ t) = p ++ unmask 0 t.
Proof.
  induction p as [| c p IH]; intros t Hz; [reflexivity |].
  simpl. unfold unmask in *. simpl.
  replace (amPmFires a m mk (c :: p ++ t)) with false
    by (symmetry; apply (Hz [] (c :: p)); [reflexivity | discriminate]).
  f_equal. apply IH. eapply zoneFree_tail. exact Hz.
Qed.

Lemma unmask_noFire : forall s, noFire a m mk s -> unmask 0 s = s.
Proof.
  induction s as [| c s IH]; intro Hno; [reflexivity |].
  unfold unmask in *. simpl.
  replace (amPmFires a m mk (c :: s)) with false
    by (symmetry; apply (Hno [] (c :: s)); reflexivity).
  f_equal. apply IH. intros p1 p2 E. apply (Hno (c :: p1) p2).
  simpl. congruence.
Qed.

Lemma unmask_cons_fire :
  forall c s,
    fires (c :: s) = true ->
    unmask 0 (c :: s)
    = head ++ str "." ++ unmask (length mk + S (length mk)) s.
Proof.
  intros c s Hf. unfold unmask, fires in *. cbn [unmaskAmPm].
  rewrite Hf. reflexivity.
Qed.

Lemma unmask_fire :
  forall w u rest,
    isSpace (byteZ w) = true -> isUpper (byteZ u) = true ->
    unmask 0 (head ++ mk ++ w :: u :: rest)
    = head ++ str "." ++ unmask 0 (w :: u :: rest).
Proof.
  intros w u rest Hw Hu.
  assert (Hf : fires (head ++ mk ++ w :: u :: rest) = true).
  { apply fires_spec. exists w, u, rest. auto. }
  change (head ++ mk ++ w :: u :: rest)
    with (a :: (mk ++ [m]) ++ mk ++ w :: u :: rest) in *.
  rewrite (unmask_cons_fire _ _ Hf). f_equal. f_equal.
  rewrite app_assoc.
  replace (length mk + S (length mk))%nat
    with (length ((mk ++ [m]) ++ mk) + 0)%nat
    by (rewrite !length_app; simpl; lia).
  apply unmask_skip.
Qed.

Lemma last_of_split :
  forall (Z l q : gostring) (u : ascii),
    Z ++ [u] = l ++ a :: q -> ~ In a Z -> q = [] /\ l = Z /\ u = a.
Proof.
  intros Z l q u E Hnot.
  destruct (app_eq_app _ _ _ _ E) as [t [[EZ Eq] | [El Eu]]].
  - destruct t as [| y t].
    + simpl in Eq. injection Eq as <- <-. rewrite app_nil_r in EZ. auto.
    + simpl in Eq. injection Eq as <- _. exfalso. apply Hnot. rewrite EZ.
      apply in_or_app. right. left. reflexivity.
  - destruct t as [| y t].
    + simpl in Eu. injection Eu as <- <-. rewrite app_nil_r in El. auto.
    + simpl in Eu. injection Eu as _ Eu. destruct t; discriminate.
Qed.

(** An occurrence that starts before a later [head] does not reach into
    what follows that [head]. *)
Lemma fires_before_head :
  forall l tl1 tl2,
    l <> [] -> fires (l ++ head ++ tl1) = true ->
    fires (l ++ head ++ tl2) = true.
Proof.
  intros l tl1 tl2 Hl Hf. apply fires_spec in Hf.
  destruct Hf as [w [u [rest [E [Hw Hu]]]]]. apply fires_spec.
  change (head ++ mk ++ w :: u :: rest)
    with (head ++ mk ++ [w; u] ++ rest) in E.
  rewrite !app_assoc in E. rewrite <- !app_assoc in E.
  replace (head ++ mk ++ [w; u] ++ rest)
    with ((head ++ mk ++ [w; u]) ++ rest) in E
    by (rewrite <- !app_assoc; reflexivity).
  destruct (app_eq_app _ _ _ _ E) as [t [[El Er] | [EW Et]]].
  - exists w, u, (t ++ head ++ tl2). repeat split; try assumption.
    rewrite El, <- !app_assoc. reflexivity.
  - destruct t as [| y t].
    + exists w, u, (head ++ tl2). repeat split; try assumption.
      rewrite app_nil_r in EW. rewrite <- EW, <- !app_assoc. reflexivity.
    + unfold head in Et at 1. simpl in Et. injection Et as <- Et.
      destruct l as [| x l]; [contradiction |].
      unfold head in EW. simpl in EW. injection EW as <- EW.
      assert (EW' : (mk ++ [m] ++ mk ++ [w]) ++ [u] = l ++ a :: t)
        by (rewrite <- EW, <- !app_assoc; reflexivity).
      apply last_of_split in EW'.
      * destruct EW' as [-> [El ->]].
        exists w, a, (mk ++ [m] ++ tl2). repeat split; try assumption.
        unfold head. simpl. f_equal. rewrite El, <- !app_assoc. reflexivity.
      * intro Hin.
        repeat (apply in_app_or in Hin; destruct Hin as [Hin | Hin]).
        -- exact (a_not_in_mk Hin).
        -- destruct Hin as [Hin | []]. exact (Ham (eq_sym Hin)).
        -- exact (a_not_in_mk Hin).
        -- destruct Hin as [Hin | []]. exact (a_not_space w Hw Hin).
Qed.

Lemma mk_head : exists b mk', mk = b :: mk' /\ 128 <= byteZ b.
Proof.
  assert (G : forall l : gostring,
             l <> [] -> Forall (fun x => 128 <= byteZ x) l ->
             exists b l', l = b :: l' /\ 128 <= byteZ b).
  { intros [| b l'] Hne F; [contradiction |]. inversion F; subst. eauto. }
  exact (G mk Hmk mk_high).
Qed.

(** No occurrence starts in the rewritten occurrence itself. *)
Lemma no_fire_in_rewritten :
  forall l p2 tl,
    head ++ str "." = l ++ p2 -> p2 <> [] -> fires (p2 ++ tl) = false.
Proof.
  intros l p2 tl E Hne. destruct (fires (p2 ++ tl)) eqn:Hf; [| reflexivity].
  exfalso. destruct l as [| x l].
  - change ([] ++ p2) with p2 in E. subst p2. apply fires_spec in Hf.
    destruct Hf as [w [u [rest [E _]]]].
    rewrite <- app_assoc in E. apply app_inv_head in E.
    destruct mk_head as [b [mk' [Emk Hb]]]. rewrite Emk in E.
    simpl in E. injection E as <- _.
    change (byteZ ".") with 46 in Hb. lia.
  - destruct p2 as [| c p2]; [contradiction |].
    simpl in Hf. apply fires_head in Hf. subst c.
    unfold head in E. simpl in E. injection E as _ E.
    assert (Hin : In a ((mk ++ [m]) ++ ["."%char])).
    { change (str ".") with ["."%char] in E. rewrite E.
      apply in_or_app. right. left. reflexivity. }
    repeat (apply in_app_or in Hin; destruct Hin as [Hin | Hin]).
    + exact (a_not_in_mk Hin).
    + destruct Hin as [Hin | []]. exact (Ham (eq_sym Hin)).
    + destruct Hin as [Hin | []]. exact (a_not_period (eq_sym Hin)).
Qed.

Lemma zoneFree_next :
  forall X w u rest,
    zoneFree a m mk X (head ++ mk ++ w :: u :: rest) ->
    zoneFree a m mk (X ++ head ++ str ".") (w :: u :: rest).
Proof.
  intros X w u rest Hz p1 p2 E Hne.
  change (fires (p2 ++ w :: u :: rest) = false).
  destruct (app_eq_app _ _ _ _ E) as [t [[EX Ep] | [_ EY]]].
  - destruct t as [| y t].
    + simpl in Ep. subst p2.
      apply (no_fire_in_rewritten [] (head ++ str ".")); auto.
    + subst p2. destruct (fires (((y :: t) ++ head ++ str ".") ++ w :: u :: rest))
        eqn:Hf; [| reflexivity].
      rewrite <- !app_assoc in Hf.
      apply (fires_before_head (y :: t) _ (mk ++ w :: u :: rest)) in Hf;
        [| discriminate].
      unfold fires in Hf.
      rewrite (Hz p1 (y :: t) EX) in Hf; [discriminate | discriminate].
  - apply (no_fire_in_rewritten t p2); auto.
Qed.

Lemma zoneFree_app :
  forall pre s1 s2,
    zoneFree a m mk pre (s1 ++ s2) -> zoneFree a m mk s1 s2 ->
    zoneFree a m mk (pre ++ s1) s2.
Proof.
  intros pre s1 s2 Hp Hs p1 p2 E Hne.
  destruct (app_eq_app _ _ _ _ E) as [t [[EX Ep] | [_ EY]]].
  - subst p2. rewrite <- app_assoc. destruct t as [| y t].
    + simpl. apply (Hs [] s1); [reflexivity |]. simpl in Hne. exact Hne.
    + apply (Hp p1 (y :: t) EX). discriminate.
  - apply (Hs t p2 EY Hne).
Qed.

Lemma noFire_app :
  forall pre s,
    zoneFree a m mk pre s -> noFire a m mk s -> noFire a m mk (pre ++ s).
Proof.
  intros pre s Hz Hno p1 p2 E.
  destruct (app_eq_app _ _ _ _ E) as [t [[EX Ep] | [_ EY]]].
  - subst p2. destruct t as [| y t].
    + simpl. apply (Hno [] s). reflexivity.
    + apply (Hz p1 (y :: t) EX). discriminate.
  - apply (Hno t p2 EY).
Qed.

Lemma Sub_amPm_from :
  forall n s pre,
    (length s < n)%nat -> zoneFree a m mk pre s ->
    exists k, (k <= length s + 1)%nat /\
              Sub k (amPmRule a m mk) (pre ++ s) = Done (pre ++ unmask 0 s).
Proof.
  induction n as [| n IH]; intros s pre Hlen Hz; [lia |].
  destruct (first_occurrence s) as [Hno | [s1 [s2 [Es [Hz1 Hf]]]]].
  - exists 1%nat. split; [lia |].
    cbn [Sub]. unfold subTurn, FindStringSubmatchIndex.
    change (Pattern (amPmRule a m mk)) with re.
    rewrite (search_noFire _ 0 0%nat (noFire_app _ _ Hz Hno)).
    cbn. rewrite (unmask_noFire _ Hno). reflexivity.
  - apply fires_spec in Hf. destruct Hf as [w [u [rest [E2 [Hw Hu]]]]].
    subst s s2.
    assert (Hz' : zoneFree a m mk (pre ++ s1) (head ++ mk ++ w :: u :: rest))
      by (apply zoneFree_app; assumption).
    destruct (IH (w :: u :: rest) ((pre ++ s1) ++ head ++ str "."))
      as [k [Hk HS]].
    { rewrite !length_app in Hlen. simpl in *. lia. }
    { apply zoneFree_next. exact Hz'. }
    exists (S k). split.
    { rewrite !length_app. simpl in *. lia. }
    cbn [Sub]. unfold subTurn, FindStringSubmatchIndex.
    change (Pattern (amPmRule a m mk)) with re.
    rewrite app_assoc.
    rewrite (search_first (pre ++ s1) _ 0 0%nat Hz').
    2:{ apply fires_spec. exists w, u, rest. auto. }
    2:{ exists [], ((pre ++ s1) ++ head ++ mk ++ w :: u :: rest).
        repeat split. constructor. }
    unfold locAt. cbn [length Nat.ltb Nat.leb nth_error].
    replace (0 + len (pre ++ s1) + len head) with (len ((pre ++ s1) ++ head))
      by (rewrite !len_app; lia).
    replace (len ((pre ++ s1) ++ head) + len mk)
      with (len (((pre ++ s1) ++ head) ++ mk))
      by (rewrite !len_app; lia).
    replace ((pre ++ s1) ++ head ++ mk ++ w :: u :: rest)
      with (((pre ++ s1) ++ head) ++ mk ++ w :: u :: rest)
      by (rewrite <- !app_assoc; reflexivity).
    rewrite sliceTo_app.
    replace (((pre ++ s1) ++ head) ++ mk ++ w :: u :: rest)
      with ((((pre ++ s1) ++ head) ++ mk) ++ w :: u :: rest)
      by (rewrite <- !app_assoc; reflexivity).
    rewrite sliceFrom_app.
    change (Replacement (amPmRule a m mk)) with (str ".").
    replace (((pre ++ s1) ++ head) ++ str "." ++ w :: u :: rest)
      with (((pre ++ s1) ++ head ++ str ".") ++ w :: u :: rest)
      by (rewrite <- !app_assoc; reflexivity).
    rewrite HS. f_equal.
    rewrite (unmask_zoneFree _ _ Hz1), (unmask_fire _ _ _ Hw Hu).
    rewrite <- !app_assoc. reflexivity.
Qed.

(** On every text the rule returns, within [len(text) + 1] turns, the text
    with every occurrence unmasked. *)
Lemma Sub_amPm :
  forall txt,
    exists k, (k <= length txt + 1)%nat /\
              Sub k (amPmRule a m mk) txt = Done (unmask 0 txt).
Proof.
  intro txt.
  destruct (Sub_amPm_from (S (length txt)) txt []) as [k [Hk HS]].
  - lia.
  - intros p1 p2 E Hne. symmetry in E. apply app_eq_nil in E.
    destruct E as [_ ->]. contradiction.
  - exists k. auto.
Qed.

End AmPm.

(** C8, as stated, fails: the claim spells the marker as the one rune
    U+222F (bytes e2 88 af), the four rules of the source as the six bytes
    d0 b2 d0 98 d1 93.  On the claim's own example [P∯M∯ Then], and on its
    three variants, the pattern finds no match and [Sub] returns the text
    as it was at the first turn, the marker after the second letter still
    in place; no number of turns gives [P∯M. Then]. *)
Theorem amPm_rules_keep_U222F_text :
  FindStringSubmatchIndex (Pattern upperCasePmRule) (str "P∯M∯ Then") = [] /\
  Sub 1 upperCasePmRule (str "P∯M∯ Then") = Done (str "P∯M∯ Then") /\
  Sub 1 upperCaseAmRule (str "A∯M∯ Then") = Done (str "A∯M∯ Then") /\
  Sub 1 lowerCasePmRule (str "p∯m∯ Then") = Done (str "p∯m∯ Then") /\
  Sub 1 lowerCaseAmRule (str "a∯m∯ Then") = Done (str "a∯m∯ Then") /\
  ~ (exists n : nat,
        Sub n upperCasePmRule (str "P∯M∯ Then") = Done (str "P∯M. Then")).
Proof.
  repeat split; try (vm_compute; reflexivity).
  intros [n H]. destruct n as [| n]; [discriminate H |].
  vm_compute in H. discriminate H.
Qed.

(** C8 (amended): with the marker as the source spells it, each AM/PM
    rule, on every text, returns the text in which every occurrence of its
    two letters with both periods masked, followed by a white-space byte
    and an upper-case letter, has the marker after the second letter
    replaced by a period and the marker between the letters left in place
    ([unmaskAmPm]); nothing else changes.  On a text that holds an
    occurrence for each rule, each rule restores its own and the four in
    sequence restore them all. *)
Theorem amPm_rules_unmask :
  forall txt : gostring,
    (exists k, (k <= length txt + 1)%nat /\
               Sub k upperCasePmRule txt
               = Done (unmaskAmPm "P" "M" periodMarker 0 txt)) /\
    (exists k, (k <= length txt + 1)%nat /\
               Sub k upperCaseAmRule txt
               = Done (unmaskAmPm "A" "M" periodMarker 0 txt)) /\
    (exists k, (k <= length txt + 1)%nat /\
               Sub k lowerCasePmRule txt
               = Done (unmaskAmPm "p" "m" periodMarker 0 txt)) /\
    (exists k, (k <= length txt + 1)%nat /\
               Sub k lowerCaseAmRule txt
               = Done (unmaskAmPm "a" "m" periodMarker 0 txt)) /\
    Sub 2 upperCasePmRule (exampleTimes masked masked masked masked)
    = Done (exampleTimes unmasked masked masked masked) /\
    Sub 2 upperCaseAmRule (exampleTimes masked masked masked masked)
    = Done (exampleTimes masked unmasked masked masked) /\
    Sub 2 lowerCasePmRule (exampleTimes masked masked masked masked)
    = Done (exampleTimes masked masked unmasked masked) /\
    Sub 2 lowerCaseAmRule (exampleTimes masked masked masked masked)
    = Done (exampleTimes masked masked masked unmasked) /\
    SubAll 2 allAmPmRules (exampleTimes masked masked masked masked)
    = Done (exampleTimes unmasked unmasked unmasked unmasked).
Proof.
  intro txt.
  split; [apply Sub_amPm; [reflexivity | discriminate | discriminate
                           | reflexivity] |].
  split; [apply Sub_amPm; [reflexivity | discriminate | discriminate
                           | reflexivity] |].
  split; [apply Sub_amPm; [reflexivity | discriminate | discriminate
                           | reflexivity] |].
  split; [apply Sub_amPm; [reflexivity | discriminate | discriminate
                           | reflexivity] |].
  repeat split; vm_compute; reflexivity.
Qed.

(** ** The index slice of a pattern without groups *)

Lemma starLoop_length :
  forall (n : nat) body,
    (forall pos s cap (k : cont) res,
        (forall p s' c r, length c = n -> k p s' c = Some r -> length r = n) ->
        length cap = n -> body pos s cap k = Some res -> length res = n) ->
    forall (k : cont),
      (forall p s' c r, length c = n -> k p s' c = Some r -> length r = n) ->
      forall fuel pos s cap res,
        length cap = n -> starLoop body k fuel pos s cap = Some res ->
        length res = n.
Proof.
  intros n body Hbody k Hk fuel.
  induction fuel as [| fuel IH]; intros pos s cap res Hc H; simpl in H.
  - exact (Hk _ _ _ _ Hc H).
  - match type of H with
    | match ?b with _ => _ end = _ => destruct b as [res' |] eqn:E
    end.
    + injection H as ->. apply (Hbody _ _ _ _ _) in E; [exact E | | exact Hc].
      intros p s' c r Hc' Hr. destruct (pos <? p); [| discriminate].
      exact (IH _ _ _ _ Hc' Hr).
    + exact (Hk _ _ _ _ Hc H).
Qed.

(** Matching keeps the length of the index slice. *)
Lemma rmatch_length :
  forall (n : nat) re pos s cap (k : cont) res,
    (forall p s' c r, length c = n -> k p s' c = Some r -> length r = n) ->
    length cap = n -> rmatch re pos s cap k = Some res -> length res = n.
Proof.
  intros n re.
  induction re as [| bs | p | r1 IH1 r2 IH2 | r1 IH1 r2 IH2 | r IH | i r IH
                   | |];
    intros pos s cap k res Hk Hc H; simpl in H.
  - exact (Hk _ _ _ _ Hc H).
  - destruct (stripPrefix bs s); [| discriminate]. exact (Hk _ _ _ _ Hc H).
  - destruct (step s) as [[[c w] s'] |]; [| discriminate].
    destruct (p c); [| discriminate]. exact (Hk _ _ _ _ Hc H).
  - apply (IH1 _ _ _ _ _) in H; [exact H | | exact Hc].
    intros p' s' c r' Hc' Hr. exact (IH2 _ _ _ _ _ Hk Hc' Hr).
  - destruct (rmatch r1 pos s cap k) as [res' |] eqn:E.
    + injection H as ->. exact (IH1 _ _ _ _ _ Hk Hc E).
    + exact (IH2 _ _ _ _ _ Hk Hc H).
  - exact (starLoop_length n (rmatch r) IH k Hk _ _ _ _ _ Hc H).
  - apply (IH _ _ _ _ _) in H; [exact H | | exact Hc].
    intros p' s' c r' Hc' Hr. apply (Hk _ _ _ _) in Hr; [exact Hr |].
    unfold setcap. rewrite !length_upd. exact Hc'.
  - destruct (pos =? 0); [| discriminate]. exact (Hk _ _ _ _ Hc H).
  - destruct s; [| discriminate]. exact (Hk _ _ _ _ Hc H).
Qed.

(** A match is reported with [2 * (1 + NumSubexp)] offsets. *)
Lemma search_length :
  forall re txt,
    FindStringSubmatchIndex re txt = [] \/
    length (FindStringSubmatchIndex re txt) = (2 * (1 + numSubexp re))%nat.
Proof.
  intros re txt.
  destruct (FindStringSubmatchIndex re txt) as [| x l] eqn:E; [left; reflexivity |].
  right. unfold FindStringSubmatchIndex in E.
  destruct (search_sound _ _ _ _ _ E) as [p [s' [_ Hm]]]; [discriminate |].
  unfold matchAt in Hm.
  apply (rmatch_length (2 * (1 + numSubexp re))) in Hm; [exact Hm | |].
  - intros q s'' c r Hc Hr. injection Hr as <-. unfold setcap.
    rewrite !length_upd. exact Hc.
  - unfold nocap. apply repeat_length.
Qed.

(** A turn of the loop on a pattern without a capturing group that
    matches: the index slice has two entries. *)
Lemma subTurn_no_group :
  forall (r : Rule) (txt : gostring),
    numSubexp (Pattern r) = 0%nat ->
    FindStringSubmatchIndex (Pattern r) txt <> [] ->
    subTurn r txt = Fault IndexOutOfRange.
Proof.
  intros r txt H0 Hm. unfold subTurn.
  destruct (search_length (Pattern r) txt) as [E | E]; [contradiction |].
  rewrite H0 in E.
  destruct (FindStringSubmatchIndex (Pattern r) txt) as [| x [| y [| z l]]];
    try discriminate.
  reflexivity.
Qed.

(** Whatever the rule and the text: when the pattern has no capturing
    group and matches, [Sub] panics on [loc[2]]; it replaces nothing. *)
Theorem Sub_no_group_panics :
  forall (r : Rule) (txt : gostring) (n : nat),
    numSubexp (Pattern r) = 0%nat ->
    FindStringSubmatchIndex (Pattern r) txt <> [] ->
    Sub (S n) r txt = Panics IndexOutOfRange.
Proof.
  intros r txt n H0 Hm. cbn [Sub]. rewrite (subTurn_no_group r txt H0 Hm).
  reflexivity.
Qed.

(** ** Literals: comparing decoded runes is comparing bytes *)

Lemma byteZ_inj : forall x y : ascii, byteZ x = byteZ y -> x = y.
Proof.
  intros x y H. unfold byteZ in H. apply N2Z.inj in H.
  rewrite <- (ascii_N_embedding x), <- (ascii_N_embedding y), H.
  reflexivity.
Qed.

(** The shape of a step that did not meet an invalid sequence. *)
Lemma step_shape :
  forall (s s' : gostring) (c w : Z),
    step s = Some (c, w, s') -> c <> RuneError ->
    (exists b0, s = b0 :: s' /\ w = 1 /\ c = byteZ b0 /\ c < 128) \/
    (exists b0 b1,
        s = b0 :: b1 :: s' /\ w = 2 /\
        c = (byteZ b0 - 192) * 64 + (byteZ b1 - 128) /\
        128 <= c < 2048 /\ step [b0; b1] = Some (c, 2, []) /\
        128 <= byteZ b1 <= 191) \/
    (exists b0 b1 b2,
        s = b0 :: b1 :: b2 :: s' /\ w = 3 /\
        c = (byteZ b0 - 224) * 4096 + (byteZ b1 - 128) * 64
            + (byteZ b2 - 128) /\
        2048 <= c < 65536 /\ step [b0; b1; b2] = Some (c, 3, []) /\
        128 <= byteZ b1 <= 191 /\ 128 <= byteZ b2 <= 191) \/
    (exists b0 b1 b2 b3,
        s = b0 :: b1 :: b2 :: b3 :: s' /\ w = 4 /\
        c = (byteZ b0 - 240) * 262144 + (byteZ b1 - 128) * 4096
            + (byteZ b2 - 128) * 64 + (byteZ b3 - 128) /\
        65536 <= c /\ step [b0; b1; b2; b3] = Some (c, 4, []) /\
        128 <= byteZ b1 <= 191 /\ 128 <= byteZ b2 <= 191 /\
        128 <= byteZ b3 <= 191).
Proof.
  intros s s' c w H Hc. destruct s as [| b0 s1]; [discriminate |].
  unfold step in H. cbv zeta in H.
  assert (Hbad : forall t, Some (RuneError, 1, t) <> Some (c, w, s'))
    by (intros t E; injection E as E _ _; congruence).
  destruct (byteZ b0 <? 128) eqn:E0.
  { injection H as <- <- <-. left. exists b0. boolz. auto. }
  destruct ((194 <=? byteZ b0) && (byteZ b0 <=? 223)) eqn:E1.
  { destruct s1 as [| b1 s2]; [destruct (Hbad _ H) |].
    destruct (isCont (byteZ b1)) eqn:C1; [| destruct (Hbad _ H)].
    injection H as <- <- <-. right. left. exists b0, b1.
    assert (Hs : step [b0; b1]
                 = Some ((byteZ b0 - 192) * 64 + (byteZ b1 - 128), 2, []))
      by (unfold step; cbv zeta; rewrite E0, E1, C1; reflexivity).
    unfold isCont in C1. boolz. repeat split; try lia; exact Hs. }
  destruct ((224 <=? byteZ b0) && (byteZ b0 <=? 239)) eqn:E2.
  { destruct s1 as [| b1 [| b2 s3]];
      [destruct (Hbad _ H) | destruct (Hbad _ H) |].
    destruct (accepts (byteZ b0) (byteZ b1) && isCont (byteZ b2)) eqn:C;
      [| destruct (Hbad _ H)].
    injection H as <- <- <-. right. right. left. exists b0, b1, b2.
    assert (Hs : step [b0; b1; b2]
                 = Some ((byteZ b0 - 224) * 4096 + (byteZ b1 - 128) * 64
                         + (byteZ b2 - 128), 3, []))
      by (unfold step; cbv zeta; rewrite E0, E1, E2, C; reflexivity).
    unfold accepts, acceptLo, acceptHi, isCont in C.
    destruct (byteZ b0 =? 224) eqn:B0; destruct (byteZ b0 =? 237) eqn:B1;
      destruct (byteZ b0 =? 240) eqn:B2; destruct (byteZ b0 =? 244) eqn:B3;
      boolz; repeat split; try lia; exact Hs. }
  destruct ((240 <=? byteZ b0) && (byteZ b0 <=? 244)) eqn:E3;
    [| destruct (Hbad _ H)].
  destruct s1 as [| b1 [| b2 [| b3 s4]]];
    [destruct (Hbad _ H) | destruct (Hbad _ H) | destruct (Hbad _ H) |].
  destruct (accepts (byteZ b0) (byteZ b1) && isCont (byteZ b2)
            && isCont (byteZ b3)) eqn:C; [| destruct (Hbad _ H)].
  injection H as <- <- <-. right. right. right. exists b0, b1, b2, b3.
  assert (Hs : step [b0; b1; b2; b3]
               = Some ((byteZ b0 - 240) * 262144 + (byteZ b1 - 128) * 4096
                       + (byteZ b2 - 128) * 64 + (byteZ b3 - 128), 4, []))
    by (unfold step; cbv zeta; rewrite E0, E1, E2, E3, C; reflexivity).
  unfold accepts, acceptLo, acceptHi, isCont in C.
  destruct (byteZ b0 =? 224) eqn:B0; destruct (byteZ b0 =? 237) eqn:B1;
    destruct (byteZ b0 =? 240) eqn:B2; destruct (byteZ b0 =? 244) eqn:B3;
    boolz; repeat split; try lia; exact Hs.
Qed.

Lemma step_inj :
  forall (s s' bs : gostring) (c w : Z),
    step s = Some (c, w, s') -> step bs = Some (c, len bs, []) ->
    c <> RuneError -> s = bs ++ s'.
Proof.
  intros s s' bs c w Hs Hb Hc.
  apply step_shape in Hs; [| exact Hc]. apply step_shape in Hb; [| exact Hc].
  destruct Hs as [[x0 [-> [_ [Ex Rx]]]]
                 | [[x0 [x1 [-> [_ [Ex [Rx [_ X1]]]]]]]
                   | [[x0 [x1 [x2 [-> [_ [Ex [Rx [_ [X1 X2]]]]]]]]]
                     | [x0 [x1 [x2 [x3 [-> [_ [Ex [Rx [_ [X1 [X2 X3]]]]]]]]]]]]]];
    destruct Hb as [[y0 [-> [_ [Ey Ry]]]]
                   | [[y0 [y1 [-> [_ [Ey [Ry [_ Y1]]]]]]]
                     | [[y0 [y1 [y2 [-> [_ [Ey [Ry [_ [Y1 Y2]]]]]]]]]
                       | [y0 [y1 [y2 [y3 [-> [_ [Ey [Ry [_ [Y1 [Y2 Y3]]]]]]]]]]]]]];
    try (exfalso; lia);
    pose proof (byteZ_range x0); pose proof (byteZ_range y0).
  - assert (x0 = y0) by (apply byteZ_inj; lia). subst. reflexivity.
  - assert (x0 = y0) by (apply byteZ_inj; lia).
    assert (x1 = y1) by (apply byteZ_inj; lia). subst. reflexivity.
  - assert (x0 = y0) by (apply byteZ_inj; lia).
    assert (x1 = y1) by (apply byteZ_inj; lia).
    assert (x2 = y2) by (apply byteZ_inj; lia). subst. reflexivity.
  - assert (x0 = y0) by (apply byteZ_inj; lia).
    assert (x1 = y1) by (apply byteZ_inj; lia).
    assert (x2 = y2) by (apply byteZ_inj; lia).
    assert (x3 = y3) by (apply byteZ_inj; lia). subst. reflexivity.
Qed.

(** A step looks at the bytes of its rune only. *)
Lemma step_chunk :
  forall (s s' : gostring) (c w : Z),
    step s = Some (c, w, s') -> c <> RuneError ->
    exists bs, s = bs ++ s' /\ len bs = w /\ bs <> [] /\
               firstn (Z.to_nat w) s = bs /\
               step bs = Some (c, len bs, []).
Proof.
  intros s s' c w Hs Hc. apply step_shape in Hs; [| exact Hc].
  destruct Hs as [[x0 [-> [-> [Ex Rx]]]]
                 | [[x0 [x1 [-> [-> [_ [_ [R _]]]]]]]
                   | [[x0 [x1 [x2 [-> [-> [_ [_ [R _]]]]]]]]
                     | [x0 [x1 [x2 [x3 [-> [-> [_ [_ [R _]]]]]]]]]]]].
  - exists [x0]. repeat split; try discriminate; try reflexivity.
    subst c. apply step_ascii. exact Rx.
  - exists [x0; x1]. repeat split; try discriminate; try reflexivity. exact R.
  - exists [x0; x1; x2].
    repeat split; try discriminate; try reflexivity. exact R.
  - exists [x0; x1; x2; x3].
    repeat split; try discriminate; try reflexivity. exact R.
Qed.

Lemma step_app :
  forall (bs s' : gostring) (c : Z),
    step bs = Some (c, len bs, []) -> c <> RuneError ->
    step (bs ++ s') = Some (c, len bs, s').
Proof.
  intros bs s' c Hb Hc.
  apply step_shape in Hb; [| exact Hc].
  destruct Hb as [[x0 [-> [_ [Ex Rx]]]]
                 | [[x0 [x1 [-> [_ [_ [_ [R _]]]]]]]
                   | [[x0 [x1 [x2 [-> [_ [_ [_ [R _]]]]]]]]
                     | [x0 [x1 [x2 [x3 [-> [_ [_ [_ [R _]]]]]]]]]]]].
  - simpl app. rewrite step_ascii by lia. subst c. reflexivity.
  - unfold len. simpl length. simpl Z.of_nat.
    simpl app. unfold step in *. cbv beta iota zeta in *.
    repeat match goal with
           | |- context [if ?x then _ else _] =>
             let E := fresh "E" in destruct x eqn:E; try rewrite E in R
           end; try discriminate; injection R as <-; reflexivity.
  - unfold len. simpl length. simpl Z.of_nat.
    simpl app. unfold step in *. cbv beta iota zeta in *.
    repeat match goal with
           | |- context [if ?x then _ else _] =>
             let E := fresh "E" in destruct x eqn:E; try rewrite E in R
           end; try discriminate; injection R as <-; reflexivity.
  - unfold len. simpl length. simpl Z.of_nat.
    simpl app. unfold step in *. cbv beta iota zeta in *.
    repeat match goal with
           | |- context [if ?x then _ else _] =>
             let E := fresh "E" in destruct x eqn:E; try rewrite E in R
           end; try discriminate; injection R as <-; reflexivity.
Qed.

(** The class of one rune is the literal of its bytes. *)
Lemma class_rune_lit :
  forall (bs : gostring) (c : Z),
    step bs = Some (c, len bs, []) -> c <> RuneError ->
    forall pos s cap k,
      rmatch (Class (Z.eqb c)) pos s cap k = rmatch (Lit bs) pos s cap k.
Proof.
  intros bs c Hb Hc pos s cap k. simpl.
  destruct (stripPrefix bs s) as [s' |] eqn:E.
  - apply stripPrefix_Some in E. subst s.
    rewrite (step_app _ _ _ Hb Hc), Z.eqb_refl. reflexivity.
  - destruct (step s) as [[[c' w] s'] |] eqn:Es; [| reflexivity].
    destruct (Z.eqb_spec c c') as [<- | _]; [| reflexivity].
    rewrite (step_inj _ _ _ _ _ Es Hb Hc), stripPrefix_app in E.
    discriminate.
Qed.

Lemma stripPrefix_app_l :
  forall x y s : gostring,
    stripPrefix (x ++ y) s
    = match stripPrefix x s with
      | Some s1 => stripPrefix y s1
      | None => None
      end.
Proof.
  induction x as [| a x IH]; intros y s; simpl; [reflexivity |].
  destruct s as [| b s]; [reflexivity |].
  destruct (Ascii.eqb a b); [apply IH | reflexivity].
Qed.

Lemma rmatch_Cat :
  forall r1 r2 pos s cap k,
    rmatch (Cat r1 r2) pos s cap k
    = rmatch r1 pos s cap (fun pos1 s1 cap1 => rmatch r2 pos1 s1 cap1 k).
Proof. reflexivity. Qed.

Lemma Lit_runeChain :
  forall fuel bs,
    (length bs <= fuel)%nat -> properRunes (chunks fuel bs) = true ->
    forall pos s cap k,
      rmatch (runeChain (chunks fuel bs)) pos s cap k
      = rmatch (Lit bs) pos s cap k.
Proof.
  induction fuel as [| fuel IH]; intros bs Hlen Hp pos s cap k.
  - destruct bs; [| simpl in Hlen; lia]. simpl.
    change (len []) with 0. rewrite Z.add_0_r. reflexivity.
  - cbn [chunks] in *. destruct (step bs) as [[[c w] bs'] |] eqn:E.
    + cbn [properRunes forallb fst] in Hp. apply andb_prop in Hp.
      destruct Hp as [Hc Hp]. apply negb_true_iff in Hc.
      apply Z.eqb_neq in Hc.
      destruct (step_chunk _ _ _ _ E Hc) as [ch [-> [Hw [Hne [_ Hch]]]]].
      cbn [runeChain]. rewrite rmatch_Cat.
      rewrite (class_rune_lit ch c Hch Hc). cbn [rmatch].
      rewrite stripPrefix_app_l.
      destruct (stripPrefix ch s) as [s1 |]; [| reflexivity].
      rewrite IH.
      * cbn [rmatch]. rewrite len_app, Z.add_assoc. reflexivity.
      * rewrite length_app in Hlen. destruct ch; [contradiction |].
        simpl in Hlen. lia.
      * exact Hp.
    + destruct bs; [| destruct (step_cons_Some a bs) as [? [? [? E']]];
                      congruence].
      simpl. change (len []) with 0. rewrite Z.add_0_r. reflexivity.
Qed.

(** Matching depends on the continuation only through its values. *)
Lemma starLoop_ext :
  forall body1 body2 : Z -> gostring -> list Z -> cont -> option (list Z),
    (forall pos s cap k1 k2,
        (forall p t c, k1 p t c = k2 p t c) ->
        body1 pos s cap k1 = body2 pos s cap k2) ->
    forall k1 k2 : cont,
      (forall p t c, k1 p t c = k2 p t c) ->
      forall fuel pos s cap,
        starLoop body1 k1 fuel pos s cap = starLoop body2 k2 fuel pos s cap.
Proof.
  intros body1 body2 Hb k1 k2 Hk fuel.
  induction fuel as [| fuel IH]; intros pos s cap; simpl.
  - apply Hk.
  - rewrite (Hb pos s cap _
                (fun pos1 s1 cap1 =>
                   if pos <? pos1 then starLoop body2 k2 fuel pos1 s1 cap1
                   else None)).
    + rewrite Hk. reflexivity.
    + intros p t c. destruct (pos <? p); [apply IH | reflexivity].
Qed.

Lemma rmatch_toRunes :
  forall re,
    properLits re = true ->
    forall pos s cap (k1 k2 : cont),
      (forall p t c, k1 p t c = k2 p t c) ->
      rmatch (toRunes re) pos s cap k1 = rmatch re pos s cap k2.
Proof.
  induction re as [| bs | p | r1 IH1 r2 IH2 | r1 IH1 r2 IH2 | r IH | i r IH
                   | |];
    intros Hp pos s cap k1 k2 Hk; cbn [toRunes properLits] in *.
  - simpl. apply Hk.
  - rewrite (Lit_runeChain _ _ (le_n _) Hp). simpl.
    destruct (stripPrefix bs s); [apply Hk | reflexivity].
  - simpl. destruct (step s) as [[[c w] s'] |]; [| reflexivity].
    destruct (p c); [apply Hk | reflexivity].
  - apply andb_prop in Hp. destruct Hp as [H1 H2]. cbn [rmatch].
    apply IH1; [exact H1 |]. intros p t c. apply IH2; assumption.
  - apply andb_prop in Hp. destruct Hp as [H1 H2]. cbn [rmatch].
    rewrite (IH1 H1 pos s cap k1 k2 Hk), (IH2 H2 pos s cap k1 k2 Hk).
    reflexivity.
  - cbn [rmatch]. apply starLoop_ext; [| exact Hk].
    intros pos0 s0 cap0 k3 k4 Hk'. apply IH; assumption.
  - cbn [rmatch]. apply IH; [exact Hp |]. intros p t c. apply Hk.
  - simpl. destruct (pos =? 0); [apply Hk | reflexivity].
  - simpl. destruct s; [apply Hk | reflexivity].
Qed.

Lemma numSubexp_runeChain : forall l, numSubexp (runeChain l) = 0%nat.
Proof.
  induction l as [| [c bs] l IH]; [reflexivity |]. simpl. exact IH.
Qed.

Lemma numSubexp_toRunes : forall re, numSubexp (toRunes re) = numSubexp re.
Proof.
  induction re; simpl; try reflexivity; try congruence.
  apply numSubexp_runeChain.
Qed.

Lemma search_toRunes :
  forall re, properLits re = true ->
    forall s pos skip, search (toRunes re) pos skip s = search re pos skip s.
Proof.
  intros re Hp. induction s as [| c s IH]; intros pos skip.
  - destruct skip; cbn [search]; [| reflexivity].
    unfold matchAt, nocap. rewrite numSubexp_toRunes.
    rewrite (rmatch_toRunes re Hp _ _ _ _
                            (fun e _ cap => Some (setcap 0 pos e cap)));
      reflexivity.
  - destruct skip; cbn [search]; [| apply IH].
    unfold matchAt, nocap. rewrite numSubexp_toRunes.
    rewrite (rmatch_toRunes re Hp _ _ _ _
                            (fun e _ cap => Some (setcap 0 pos e cap)));
      [| reflexivity].
    rewrite IH. reflexivity.
Qed.

(** The literals of a pattern can be read as byte strings: with every
    literal written rune by rune, the way [regexp] compares them, the
    pattern finds the same match in every text. *)
Lemma literals_as_bytes :
  forall re, properLits re = true ->
    forall txt,
      FindStringSubmatchIndex (toRunes re) txt
      = FindStringSubmatchIndex re txt.
Proof.
  intros re Hp txt. apply search_toRunes. exact Hp.
Qed.

(** Every pattern of the source has proper literals. *)
Lemma source_literals_proper : forallb properLits allPatterns = true.
Proof. vm_compute. reflexivity. Qed.

(** ** The second copy of the source *)

(** The examples of C7 and C3 and the dead step of C10 read the same on the
    tables of the second copy. *)
Lemma second_copy_examples :
  (forall n : nat,
      SubAll (2 + n) Part000.allNumberRules exampleDecimal
      = Done Part000.exampleDecimalProtected) /\
  Part000.replaceBetweenQuotes exampleQuote = Part000.exampleQuoteProtected /\
  (forall rtext content : gostring,
      let r5 := sub rtext content (str "?") Part000.questionMarker in
      sub (fst r5) (snd r5) (str "? ") Part000.questionSpaceMarker = r5).
Proof.
  split; [intro n; vm_compute; reflexivity |].
  split; [vm_compute; reflexivity |].
  intros rtext content r5.
  assert (Hgone : ~ In "?"%char (snd r5)).
  { subst r5. unfold sub. cbn [snd]. unfold Replace.
    replace (eqbytes (str "?") Part000.questionMarker) with false
      by reflexivity.
    change (str "?") with ["?"%char].
    apply replaceScan_byte_gone. vm_compute. intuition discriminate. }
  destruct r5 as [t5 sub5] eqn:E. cbn [fst snd] in *. unfold sub.
  assert (Hid : Replace sub5 (str "? ") Part000.questionSpaceMarker = sub5).
  { unfold Replace.
    replace (eqbytes (str "? ") Part000.questionSpaceMarker) with false
      by reflexivity.
    change (str "? ") with ("?"%char :: [" "%char]).
    apply replaceScan_absent. exact Hgone. }
  rewrite Hid, Replace_same. reflexivity.
Qed.

Lemma second_copy_literals_proper :
  forallb properLits
          [Part000.betweenArrowQuotesRE; Part000.betweenSmartQuotesRE] = true.
Proof. vm_compute. reflexivity. Qed.

(** * Further properties of the code *)

(** ** What [Sub] returns *)

Lemma subTurn_NoMatch :
  forall r txt,
    subTurn r txt = NoMatch <-> FindStringSubmatchIndex (Pattern r) txt = [].
Proof.
  intros r txt. unfold subTurn.
  destruct (FindStringSubmatchIndex (Pattern r) txt) as [| x l] eqn:E.
  - simpl. tauto.
  - cbn [length Nat.ltb Nat.leb]. split; [| discriminate].
    destruct (nth_error (x :: l) 2); [| discriminate].
    destruct (nth_error (x :: l) 3); [| discriminate].
    destruct (sliceTo txt z); [| discriminate].
    destruct (sliceFrom txt z0); discriminate.
Qed.

(** A text that [Sub] returns holds no match of the pattern, and [Sub]
    returns it unchanged when it is given that text again. *)
Theorem Sub_returns_fixed_text :
  forall (n : nat) (r : Rule) (txt txt' : gostring),
    Sub n r txt = Done txt' ->
    FindStringSubmatchIndex (Pattern r) txt' = [] /\
    forall m : nat, Sub (S m) r txt' = Done txt'.
Proof.
  induction n as [| n IH]; intros r txt txt' H; [discriminate |].
  cbn [Sub] in H. destruct (subTurn r txt) as [| t1 | f] eqn:E.
  - injection H as <-. split.
    + apply subTurn_NoMatch. exact E.
    + intro m. cbn [Sub]. rewrite E. reflexivity.
  - exact (IH _ _ _ H).
  - discriminate.
Qed.

Lemma Sub_returns_fixed_text_witness :
  Sub 2 periodBeforeNumberRule exampleDecimal = Done exampleDecimalProtected /\
  FindStringSubmatchIndex (Pattern periodBeforeNumberRule)
                          exampleDecimalProtected = [] /\
  forall m : nat,
    Sub (S m) periodBeforeNumberRule exampleDecimalProtected
    = Done exampleDecimalProtected.
Proof.
  split; [vm_compute; reflexivity |].
  apply (Sub_returns_fixed_text 2 periodBeforeNumberRule exampleDecimal).
  vm_compute. reflexivity.
Defined.

(** More turns change nothing once the loop has stopped. *)
Lemma Sub_more_fuel :
  forall (n k : nat) (r : Rule) (txt : gostring),
    stopped (Sub n r txt) = true -> Sub (n + k) r txt = Sub n r txt.
Proof.
  induction n as [| n IH]; intros k r txt H; [discriminate |].
  cbn [Sub Nat.add] in *. destruct (subTurn r txt); auto.
Qed.

Lemma Sub_table_rule_stops_witness :
  In threeSpaceRule allRules /\
  exists n : nat,
    (n <= length (str "a . . . b") + 1)%nat /\
    stopped (Sub n threeSpaceRule (str "a . . . b")) = true.
Proof.
  split.
  - vm_compute. tauto.
  - apply (Sub_table_rule_stops threeSpaceRule). vm_compute. tauto.
Defined.

Lemma Sub_no_group_panics_witness :
  numSubexp (Pattern otherThreePeriodRule) = 0%nat /\
  FindStringSubmatchIndex (Pattern otherThreePeriodRule) (str "So... what")
  <> [] /\
  Sub 1 otherThreePeriodRule (str "So... what") = Panics IndexOutOfRange.
Proof.
  split; [reflexivity |]. split; [vm_compute; discriminate |].
  apply (Sub_no_group_panics otherThreePeriodRule (str "So... what") 0).
  - reflexivity.
  - vm_compute. discriminate.
Defined.

(** ** Escaping *)

(** Escaping adds one byte for every reserved character and nothing
    else. *)
Lemma escape_length :
  forall s : gostring,
    length (escape s) = (length s + reservedCount s)%nat.
Proof.
  induction s as [| c s IH]; [reflexivity |].
  rewrite escape_cons, length_app, IH. unfold reservedCount. simpl filter.
  destruct (isReserved c); simpl; lia.
Qed.

(** ** The leftmost match of a pattern that starts on an ASCII byte *)

Lemma firesSomewhere_false :
  forall fires s,
    firesSomewhere fires s = false ->
    forall p1 p2, s = p1 ++ p2 -> fires p2 = false.
Proof.
  intros fires s. induction s as [| c s IH]; intros H p1 p2 E; simpl in H;
    apply orb_false_elim in H; destruct H as [H0 H1].
  - symmetry in E. apply app_eq_nil in E. destruct E as [_ ->]. exact H0.
  - destruct (cons_eq_app _ _ _ _ _ E) as [[-> ->] | [p1' [-> E']]].
    + exact H0.
    + exact (IH H1 p1' p2 E').
Qed.

Lemma firesSomewhere_true :
  forall fires s,
    firesSomewhere fires s = true ->
    exists s1 s2, s = s1 ++ s2 /\ zoneFreeOf fires s1 s2 /\ fires s2 = true.
Proof.
  intros fires s. induction s as [| c s IH]; intro H; simpl in H.
  - rewrite orb_false_r in H. exists [], []. repeat split; [| exact H].
    intros p1 p2 E Hne. symmetry in E. apply app_eq_nil in E.
    destruct E as [_ ->]. contradiction.
  - destruct (fires (c :: s)) eqn:Hf.
    + exists [], (c :: s). repeat split; [| exact Hf].
      intros p1 p2 E Hne. symmetry in E. apply app_eq_nil in E.
      destruct E as [_ ->]. contradiction.
    + simpl in H. destruct (IH H) as [s1 [s2 [E [Hz Hf2]]]].
      exists (c :: s1), s2. repeat split; [simpl; congruence | | exact Hf2].
      intros p1 p2 E' Hne.
      destruct (cons_eq_app _ _ _ _ _ E') as [[-> ->] | [p1' [-> E'']]].
      * simpl. rewrite <- E. exact Hf.
      * exact (Hz p1' p2 E'' Hne).
Qed.

Lemma zoneFreeOf_nil : forall fires s, zoneFreeOf fires [] s.
Proof.
  intros fires s p1 p2 E Hne. symmetry in E. apply app_eq_nil in E.
  destruct E as [_ ->]. contradiction.
Qed.

Lemma zoneFreeOf_tail :
  forall fires c p s, zoneFreeOf fires (c :: p) s -> zoneFreeOf fires p s.
Proof.
  intros fires c p s H p1 p2 E Hne. apply (H (c :: p1) p2); [| exact Hne].
  simpl. congruence.
Qed.

Lemma zoneFreeOf_app :
  forall fires pre s1 s2,
    zoneFreeOf fires pre (s1 ++ s2) -> zoneFreeOf fires s1 s2 ->
    zoneFreeOf fires (pre ++ s1) s2.
Proof.
  intros fires pre s1 s2 Hp Hs p1 p2 E Hne.
  destruct (app_eq_app _ _ _ _ E) as [t [[EX Ep] | [_ EY]]].
  - subst p2. rewrite <- app_assoc. destruct t as [| y t].
    + simpl. apply (Hs [] s1); [reflexivity |]. simpl in Hne. exact Hne.
    + apply (Hp p1 (y :: t) EX). discriminate.
  - apply (Hs t p2 EY Hne).
Qed.

Lemma firesSomewhere_app :
  forall fires pre s,
    zoneFreeOf fires pre s ->
    firesSomewhere fires (pre ++ s) = firesSomewhere fires s.
Proof.
  intros fires pre. induction pre as [| c pre IH]; intros s Hz; [reflexivity |].
  change ((c :: pre) ++ s) with (c :: pre ++ s). cbn [firesSomewhere].
  replace (fires (c :: pre ++ s)) with false
    by (symmetry; apply (Hz [] (c :: pre)); [reflexivity | discriminate]).
  simpl. apply IH. eapply zoneFreeOf_tail. exact Hz.
Qed.

Section Occurrences.

Variable re : regex.
Variable fires : gostring -> bool.
Variable locOf : Z -> gostring -> list Z.

(** The pattern matches at an offset exactly when the test holds on the
    text from there; the test asks for an ASCII byte first. *)
Hypothesis Hmatch :
  forall pos s, matchAt re pos s = if fires s then Some (locOf pos s) else None.
Hypothesis Hascii : forall c s, fires (c :: s) = true -> byteZ c < 128.

Lemma search_nowhere :
  forall s pos skip,
    firesSomewhere fires s = false -> search re pos skip s = [].
Proof.
  induction s as [| c s IH]; intros pos skip H; simpl in H;
    apply orb_false_elim in H; destruct H as [H0 H1].
  - destruct skip; cbn [search]; [| reflexivity].
    rewrite Hmatch, H0. reflexivity.
  - destruct skip as [| j]; cbn [search].
    + rewrite Hmatch, H0. apply IH. exact H1.
    + apply IH. exact H1.
Qed.

Lemma search_leftmost :
  forall p s pos skip,
    zoneFreeOf fires p s -> fires s = true -> highPrefix skip (p ++ s) ->
    search re pos skip (p ++ s) = locOf (pos + len p) s.
Proof.
  induction p as [| c p IH]; intros s pos skip Hz Hf Hh.
  - simpl app in *. change (len []) with 0. rewrite Z.add_0_r.
    destruct skip as [| j].
    + destruct s; cbn [search]; rewrite Hmatch, Hf; reflexivity.
    + exfalso. destruct Hh as [conts [t' [E [L F]]]].
      destruct conts as [| x conts]; [discriminate |].
      destruct s as [| c s]; [discriminate |].
      simpl in E. injection E as <- _. apply Hascii in Hf.
      inversion F; subst. lia.
  - simpl app.
    replace (pos + len (c :: p)) with (pos + 1 + len p)
      by (unfold len; simpl length; lia).
    destruct skip as [| j]; cbn [search].
    + rewrite Hmatch.
      replace (fires (c :: p ++ s)) with false
        by (symmetry; apply (Hz [] (c :: p)); [reflexivity | discriminate]).
      apply IH; [eapply zoneFreeOf_tail; exact Hz | exact Hf |].
      apply width_highPrefix.
    + apply IH; [eapply zoneFreeOf_tail; exact Hz | exact Hf |].
      eapply highPrefix_tail. exact Hh.
Qed.

Lemma find_nowhere :
  forall txt,
    firesSomewhere fires txt = false -> FindStringSubmatchIndex re txt = [].
Proof. intros txt H. apply search_nowhere. exact H. Qed.

Lemma find_leftmost :
  forall p s,
    zoneFreeOf fires p s -> fires s = true ->
    FindStringSubmatchIndex re (p ++ s) = locOf (len p) s.
Proof.
  intros p s Hz Hf. unfold FindStringSubmatchIndex.
  rewrite (search_leftmost p s 0 0%nat Hz Hf); [reflexivity |].
  exists [], (p ++ s). repeat split. constructor.
Qed.

(** Without a capturing group: a panic on every text that holds a match,
    the text itself otherwise. *)
Lemma Sub_groupless :
  forall (repl : gostring) (n : nat) (txt : gostring),
    numSubexp re = 0%nat ->
    Sub (S n) {| Pattern := re; Replacement := repl |} txt
    = if firesSomewhere fires txt then Panics IndexOutOfRange else Done txt.
Proof.
  intros repl n txt H0.
  destruct (firesSomewhere fires txt) eqn:E.
  - cbn [Sub]. rewrite subTurn_no_group; [reflexivity | exact H0 |].
    cbn [Pattern].
    destruct (firesSomewhere_true _ _ E) as [s1 [s2 [-> [Hz Hf]]]].
    intro Hnil. pose proof (Hmatch (len s1) s2) as Hm. rewrite Hf in Hm.
    rewrite (find_leftmost _ _ Hz Hf) in Hnil. rewrite Hnil in Hm.
    unfold matchAt in Hm.
    apply (rmatch_length (2 * (1 + numSubexp re))) in Hm;
      [simpl in Hm; lia | | apply repeat_length].
    intros q s'' c r Hc Hr. injection Hr as <-. unfold setcap.
    rewrite !length_upd. exact Hc.
  - cbn [Sub]. unfold subTurn. cbn [Pattern].
    rewrite (find_nowhere _ E). reflexivity.
Qed.

End Occurrences.

(** ** The two rules without a capturing group *)

Lemma startsWith_ascii :
  forall (x0 : ascii) (x : gostring) (c : ascii) (s : gostring),
    byteZ x0 < 128 -> startsWith (x0 :: x) (c :: s) = true -> byteZ c < 128.
Proof.
  intros x0 x c s Hx H. unfold startsWith in H. simpl in H.
  destruct (Ascii.eqb x0 c) eqn:E; [| discriminate].
  apply Ascii.eqb_eq in E. subst c. exact Hx.
Qed.

(** [otherThreePeriodRule] panics on exactly the texts that hold three
    periods in a row, and returns every other text unchanged. *)
Theorem otherThreePeriodRule_panics_on_ellipsis :
  forall (n : nat) (txt : gostring),
    Sub (S n) otherThreePeriodRule txt
    = if occursIn (str "...") txt then Panics IndexOutOfRange else Done txt.
Proof.
  intros n txt.
  apply (Sub_groupless (Lit (str "...")) (startsWith (str "..."))
                       (fun pos _ => [pos; pos + 3])).
  - intros pos s. unfold matchAt, startsWith. cbn [rmatch].
    destruct (stripPrefix (str "...") s); reflexivity.
  - intros c s. apply startsWith_ascii. reflexivity.
  - reflexivity.
Qed.

Lemma isDigit_ascii : forall c, isDigit c = true -> c < 128.
Proof. intros c H. unfold isDigit, inRange in H. boolz. lia. Qed.

Lemma initialAt_matchAt :
  forall pos s,
    matchAt (Pattern singleUpperCaseLetterRule) pos s
    = if initialAt s then Some [pos; pos + 4] else None.
Proof.
  intros pos s. unfold matchAt, initialAt. cbn [Pattern singleUpperCaseLetterRule
                                                 cats rmatch dot].
  rewrite (class_ascii isSpace _ _ isSpace_ascii).
  destruct s as [| w1 s]; [reflexivity |].
  destruct (isSpace (byteZ w1)); [| destruct s as [| ? [| ? [| ? ?]]];
                                    reflexivity].
  rewrite (class_ascii isUpper _ _ isUpper_ascii).
  destruct s as [| u s]; [reflexivity |].
  destruct (isUpper (byteZ u)); [| destruct s as [| ? [| ? ?]]; reflexivity].
  destruct s as [| c s]; [reflexivity |].
  change (stripPrefix (str ".") (c :: s))
    with (if Ascii.eqb "." c then Some s else None).
  destruct (Ascii.eqb "." c); [| destruct s; reflexivity].
  rewrite (class_ascii isSpace _ _ isSpace_ascii).
  destruct s as [| w2 s]; [reflexivity |].
  destruct (isSpace (byteZ w2)); [| reflexivity].
  cbn. repeat (f_equal; try lia).
Qed.

(** [singleUpperCaseLetterRule] panics on exactly the texts that hold an
    initial between white space, and returns every other text unchanged:
    it never masks a period. *)
Theorem singleUpperCaseLetterRule_panics_on_initial :
  forall (n : nat) (txt : gostring),
    Sub (S n) singleUpperCaseLetterRule txt
    = if firesSomewhere initialAt txt then Panics IndexOutOfRange
      else Done txt.
Proof.
  intros n txt.
  apply (Sub_groupless (Pattern singleUpperCaseLetterRule) initialAt
                       (fun pos _ => [pos; pos + 4])).
  - exact initialAt_matchAt.
  - intros c s H. unfold initialAt in H.
    destruct s as [| u [| c' [| w2 s]]]; try discriminate.
    apply andb_prop in H. destruct H as [H _].
    apply andb_prop in H. destruct H as [H _].
    apply andb_prop in H. destruct H as [H _].
    apply isSpace_ascii. exact H.
  - reflexivity.
Qed.

(** ** [periodBeforeNumberRule] on every text *)

Lemma periodDigit_matchAt :
  forall pos s,
    matchAt (Pattern periodBeforeNumberRule) pos s
    = if periodDigit s then Some [pos; pos + 2; pos; pos + 1] else None.
Proof.
  intros pos s. unfold matchAt, periodDigit.
  cbn [Pattern periodBeforeNumberRule cats rmatch dot].
  destruct s as [| c s]; [reflexivity |].
  change (stripPrefix (str ".") (c :: s))
    with (if Ascii.eqb "." c then Some s else None).
  destruct (Ascii.eqb "." c); [| destruct s; reflexivity].
  rewrite (class_ascii isDigit _ _ isDigit_ascii).
  destruct s as [| d s]; [reflexivity |].
  destruct (isDigit (byteZ d)); [| reflexivity].
  cbn. repeat (f_equal; try lia).
Qed.

Lemma periodDigit_head :
  forall c s, periodDigit (c :: s) = true -> c = "."%char.
Proof.
  intros c s H. unfold periodDigit in H. destruct s as [| d s]; [discriminate |].
  apply andb_prop in H. destruct H as [H _]. apply Ascii.eqb_eq in H.
  congruence.
Qed.

Lemma periodDigit_ascii :
  forall c s, periodDigit (c :: s) = true -> byteZ c < 128.
Proof.
  intros c s H. apply periodDigit_head in H. subst c. reflexivity.
Qed.

Lemma periodDigit_spec :
  forall s,
    periodDigit s = true ->
    exists d rest, s = "."%char :: d :: rest /\ isDigit (byteZ d) = true.
Proof.
  intros s H. unfold periodDigit in H.
  destruct s as [| c [| d rest]]; try discriminate.
  apply andb_prop in H. destruct H as [Hc Hd]. apply Ascii.eqb_eq in Hc.
  subst c. eauto.
Qed.

Lemma mask_nowhere :
  forall mk s,
    firesSomewhere periodDigit s = false -> maskPeriodsBeforeDigits mk s = s.
Proof.
  intros mk s. induction s as [| c s IH]; intro H; [reflexivity |].
  cbn [firesSomewhere] in H. apply orb_false_elim in H. destruct H as [H0 H1].
  cbn [maskPeriodsBeforeDigits]. rewrite H0. f_equal. exact (IH H1).
Qed.

Lemma mask_zoneFree :
  forall mk p s,
    zoneFreeOf periodDigit p s ->
    maskPeriodsBeforeDigits mk (p ++ s) = p ++ maskPeriodsBeforeDigits mk s.
Proof.
  intros mk p. induction p as [| c p IH]; intros s Hz; [reflexivity |].
  change ((c :: p) ++ s) with (c :: p ++ s). cbn [maskPeriodsBeforeDigits].
  replace (periodDigit (c :: p ++ s)) with false
    by (symmetry; apply (Hz [] (c :: p)); [reflexivity | discriminate]).
  simpl. f_equal. apply IH. eapply zoneFreeOf_tail. exact Hz.
Qed.

Section PeriodBeforeNumber.

Variable mk : gostring.
Hypothesis Hmk : mk <> [].
Hypothesis Hhigh : forallb (fun x => 128 <=? byteZ x) mk = true.

Let rule : Rule :=
  {| Pattern := Pattern periodBeforeNumberRule; Replacement := mk |}.

Lemma marker_high : Forall (fun x => 128 <= byteZ x) mk.
Proof.
  apply Forall_forall. intros x Hx.
  rewrite forallb_forall in Hhigh. apply Z.leb_le. apply Hhigh. exact Hx.
Qed.

Lemma marker_head : exists b mk', mk = b :: mk' /\ 128 <= byteZ b.
Proof.
  assert (G : forall l : gostring,
             l <> [] -> Forall (fun x => 128 <= byteZ x) l ->
             exists b l', l = b :: l' /\ 128 <= byteZ b).
  { intros [| b l'] Hne F; [contradiction |]. inversion F; subst. eauto. }
  exact (G mk Hmk marker_high).
Qed.

(** The marker that replaces a period makes no new match. *)
Lemma periodDigit_zone_next :
  forall X d rest,
    zoneFreeOf periodDigit X ("."%char :: d :: rest) ->
    zoneFreeOf periodDigit (X ++ mk) (d :: rest).
Proof.
  intros X d rest Hz p1 p2 E Hne.
  destruct (periodDigit (p2 ++ d :: rest)) eqn:Hf; [| reflexivity].
  exfalso.
  destruct (app_eq_app _ _ _ _ E) as [t [[EX Ep] | [_ EY]]].
  - destruct t as [| y t].
    + simpl in Ep. subst p2. destruct marker_head as [b [mk' [Emk Hb]]].
      rewrite Emk in Hf. cbn [app] in Hf. apply periodDigit_head in Hf.
      subst b.
      change (byteZ ".") with 46 in Hb. lia.
    + subst p2. pose proof (Hz p1 (y :: t) EX) as Hno.
      assert (Hy : y = "."%char).
      { cbn [app] in Hf. apply periodDigit_head in Hf. exact Hf. }
      subst y. destruct t as [| e t].
      * destruct marker_head as [b [mk' [Emk Hb]]]. rewrite Emk in Hf.
        cbn [app] in Hf. unfold periodDigit in Hf.
        apply andb_prop in Hf. destruct Hf as [_ Hd].
        apply isDigit_ascii in Hd. lia.
      * cbn [app] in Hf, Hno. unfold periodDigit in Hf, Hno.
        rewrite Hf in Hno.
        specialize (Hno ltac:(discriminate)). discriminate.
  - assert (Hin : forall c s, p2 = c :: s -> In c mk).
    { intros c s ->. rewrite EY. apply in_or_app. right. left. reflexivity. }
    destruct p2 as [| c p2]; [contradiction |].
    cbn [app] in Hf. apply periodDigit_head in Hf. subst c.
    pose proof marker_high as F. rewrite Forall_forall in F.
    specialize (F _ (Hin _ _ eq_refl)). change (byteZ ".") with 46 in F. lia.
Qed.

Lemma Sub_periodBeforeNumber_from :
  forall n s pre,
    (length s < n)%nat -> zoneFreeOf periodDigit pre s ->
    exists k, (k <= length s + 1)%nat /\
              Sub k rule (pre ++ s)
              = Done (pre ++ maskPeriodsBeforeDigits mk s).
Proof.
  induction n as [| n IH]; intros s pre Hlen Hz; [lia |].
  destruct (firesSomewhere periodDigit s) eqn:Hs.
  - destruct (firesSomewhere_true _ _ Hs) as [s1 [s2 [-> [Hz1 Hf]]]].
    destruct (periodDigit_spec _ Hf) as [d [rest [-> Hd]]].
    assert (Hz' : zoneFreeOf periodDigit (pre ++ s1) ("."%char :: d :: rest))
      by (apply zoneFreeOf_app; assumption).
    destruct (IH (d :: rest) ((pre ++ s1) ++ mk)) as [k [Hk HS]].
    { rewrite length_app in Hlen. simpl in *. lia. }
    { apply periodDigit_zone_next. exact Hz'. }
    exists (S k). split.
    { rewrite length_app. simpl in *. lia. }
    cbn [Sub]. unfold subTurn. cbn [Pattern rule].
    rewrite app_assoc.
    rewrite (find_leftmost _ periodDigit
                           (fun pos _ => [pos; pos + 2; pos; pos + 1])
                           periodDigit_matchAt periodDigit_ascii
                           (pre ++ s1) _ Hz' Hf).
    cbn [length Nat.ltb Nat.leb nth_error].
    rewrite sliceTo_app.
    change ((pre ++ s1) ++ "."%char :: d :: rest)
      with ((pre ++ s1) ++ ["."%char] ++ d :: rest).
    rewrite app_assoc.
    replace (len (pre ++ s1) + 1) with (len ((pre ++ s1) ++ ["."%char]))
      by (rewrite (len_app (pre ++ s1)); reflexivity).
    rewrite sliceFrom_app. cbn [Replacement rule].
    rewrite app_assoc, HS. f_equal.
    rewrite (mask_zoneFree mk _ _ Hz1). cbn [maskPeriodsBeforeDigits].
    rewrite Hf, <- !app_assoc. reflexivity.
  - exists 1%nat. split; [lia |].
    cbn [Sub]. unfold subTurn. cbn [Pattern rule].
    rewrite (find_nowhere _ periodDigit
                          (fun pos _ => [pos; pos + 2; pos; pos + 1])
                          periodDigit_matchAt).
    + cbn. rewrite (mask_nowhere mk _ Hs). reflexivity.
    + rewrite (firesSomewhere_app _ _ _ Hz). exact Hs.
Qed.

Lemma Sub_periodBeforeNumber :
  forall txt,
    exists k, (k <= length txt + 1)%nat /\
              Sub k rule txt = Done (maskPeriodsBeforeDigits mk txt).
Proof.
  intro txt.
  destruct (Sub_periodBeforeNumber_from (S (length txt)) txt [])
    as [k [Hk HS]]; [lia | apply zoneFreeOf_nil |].
  exists k. auto.
Qed.

End PeriodBeforeNumber.

(** On every text [periodBeforeNumberRule] returns, within
    [len(text) + 1] turns, the text with the marker for every period that
    a digit follows, and nothing else changed; so does its second copy. *)
Theorem periodBeforeNumberRule_masks :
  forall txt : gostring,
    (exists k, (k <= length txt + 1)%nat /\
               Sub k periodBeforeNumberRule txt
               = Done (maskPeriodsBeforeDigits periodMarker txt)) /\
    (exists k, (k <= length txt + 1)%nat /\
               Sub k (Part000.respelled periodBeforeNumberRule) txt
               = Done (maskPeriodsBeforeDigits Part000.periodMarker txt)).
Proof.
  intro txt. split.
  - apply (Sub_periodBeforeNumber periodMarker); [discriminate | reflexivity].
  - apply (Sub_periodBeforeNumber Part000.periodMarker);
      [discriminate | reflexivity].
Qed.

(** ** The rules that never panic *)

Lemma nth_upd_other :
  forall n m v l d, n <> m -> nth m (upd n v l) d = nth m l d.
Proof.
  induction n as [| n IH]; intros [| m] v [| x l] d H; simpl; try reflexivity.
  - contradiction.
  - apply IH. lia.
Qed.

Lemma nth_upd_same :
  forall n v l d, (n < length l)%nat -> nth n (upd n v l) d = v.
Proof.
  induction n as [| n IH]; intros v [| x l] d H; simpl in *; try lia.
  apply IH. lia.
Qed.

Lemma group1Set_setcap :
  forall i a b cap,
    (4 <= length cap)%nat -> 0 <= a ->
    (i = 1%nat \/ group1Set cap) -> group1Set (setcap i a b cap).
Proof.
  intros i a b cap Hlen Ha H. unfold group1Set, setcap in *.
  destruct (Nat.eq_dec i 1) as [-> | Hne].
  - change (2 * 1 + 1)%nat with 3%nat. change (2 * 1)%nat with 2%nat.
    rewrite nth_upd_other by lia. rewrite nth_upd_same by lia. exact Ha.
  - destruct H as [H | H]; [contradiction |].
    rewrite !nth_upd_other by lia. exact H.
Qed.

(** What the continuation of a match is handed: a position not before
    the start, an index slice of the same length, and group 1 set when the
    pattern always sets it or it was set already. *)
Definition contSets (k : cont) (res : list Z) (Q : Prop) (sets : bool)
           (pos : Z) (cap : list Z) : Prop :=
  forall pos' s' cap',
    pos <= pos' -> length cap' = length cap ->
    (sets = true \/ group1Set cap -> group1Set cap') ->
    k pos' s' cap' = Some res -> Q.

Lemma contSets_here :
  forall k res Q pos s cap,
    contSets k res Q false pos cap -> k pos s cap = Some res -> Q.
Proof.
  intros k res Q pos s cap Hk H. apply (Hk pos s cap).
  - lia.
  - reflexivity.
  - intros [Hf | Hg]; [discriminate | exact Hg].
  - exact H.
Qed.

Lemma starLoop_sets :
  forall body,
    (forall pos s cap k res Q,
        0 <= pos -> (4 <= length cap)%nat ->
        contSets k res Q false pos cap ->
        body pos s cap k = Some res -> Q) ->
    forall k res Q fuel pos s cap,
      0 <= pos -> (4 <= length cap)%nat ->
      contSets k res Q false pos cap ->
      starLoop body k fuel pos s cap = Some res -> Q.
Proof.
  intros body Hbody k res Q fuel.
  induction fuel as [| fuel IH]; intros pos s cap Hpos Hlen Hk H; simpl in H.
  - exact (contSets_here _ _ _ _ _ _ Hk H).
  - match type of H with
    | match ?b with _ => _ end = _ => destruct b as [res' |] eqn:E
    end.
    + injection H as ->.
      apply (Hbody _ _ _ _ _ Q Hpos Hlen) in E; [exact E |].
      intros pos1 s1 cap1 Hp1 Hl1 Hs1 Hk1.
      destruct (pos <? pos1); [| discriminate].
      apply (IH pos1 s1 cap1); [lia | lia | | exact Hk1].
      intros pos2 s2 cap2 Hp2 Hl2 Hs2. apply Hk; [lia | lia |].
      intros [Hf | Hg]; [discriminate |].
      apply Hs2. right. apply Hs1. right. exact Hg.
    + exact (contSets_here _ _ _ _ _ _ Hk H).
Qed.

Lemma rmatch_sets :
  forall re pos s cap k res Q,
    0 <= pos -> (4 <= length cap)%nat ->
    contSets k res Q (alwaysSets1 re) pos cap ->
    rmatch re pos s cap k = Some res -> Q.
Proof.
  induction re as [| bs | p | r1 IH1 r2 IH2 | r1 IH1 r2 IH2 | r IH | i r IH
                   | |];
    intros pos s cap k res Q Hpos Hlen Hk H; simpl in H;
    cbn [alwaysSets1] in Hk.
  - exact (contSets_here _ _ _ _ _ _ Hk H).
  - destruct (stripPrefix bs s) as [s' |]; [| discriminate].
    apply (Hk _ _ _) in H; auto.
    + pose proof (len_nonneg bs). lia.
    + intros [Hf | Hg]; [discriminate | auto].
  - destruct (step s) as [[[c w] s'] |] eqn:E; [| discriminate].
    destruct (p c); [| discriminate].
    destruct (step_split _ _ _ _ E) as [seg [_ [Hw _]]].
    apply (Hk _ _ _) in H; auto.
    + pose proof (len_nonneg seg). lia.
    + intros [Hf | Hg]; [discriminate | auto].
  - apply (IH1 _ _ _ _ _ Q Hpos Hlen) in H; [exact H |].
    intros pos1 s1 cap1 Hp1 Hl1 Hs1 H1.
    apply (IH2 _ _ _ _ _ Q) in H1; [exact H1 | lia | lia |].
    intros pos2 s2 cap2 Hp2 Hl2 Hs2. apply Hk; [lia | lia |].
    intros Hor. apply Hs2.
    destruct (alwaysSets1 r2); [left; reflexivity |].
    right. apply Hs1. rewrite orb_false_r in Hor. exact Hor.
  - destruct (rmatch r1 pos s cap k) as [res' |] eqn:E.
    + injection H as ->. apply (IH1 _ _ _ _ _ Q Hpos Hlen) in E; [exact E |].
      intros pos1 s1 cap1 Hp1 Hl1 Hs1. apply Hk; auto.
      intros [Hf | Hg]; apply Hs1; [left | right; exact Hg].
      apply andb_prop in Hf. tauto.
    + apply (IH2 _ _ _ _ _ Q Hpos Hlen) in H; [exact H |].
      intros pos1 s1 cap1 Hp1 Hl1 Hs1. apply Hk; auto.
      intros [Hf | Hg]; apply Hs1; [left | right; exact Hg].
      apply andb_prop in Hf. tauto.
  - refine (starLoop_sets (rmatch r) _ k res Q _ pos s cap Hpos Hlen Hk H).
    intros pos0 s0 cap0 k0 res0 Q0 Hp0 Hl0 Hk0.
    apply IH; auto.
    intros pos1 s1 cap1 Hp1 Hl1 Hs1. apply Hk0; auto.
    intros [Hf | Hg]; [discriminate |]. apply Hs1. right. exact Hg.
  - apply (IH _ _ _ _ _ Q Hpos Hlen) in H; [exact H |].
    intros pos1 s1 cap1 Hp1 Hl1 Hs1 Hk1.
    apply (Hk pos1 s1 (setcap i pos pos1 cap1)); auto.
    + unfold setcap. rewrite !length_upd. exact Hl1.
    + intros Hor. apply group1Set_setcap; [lia | exact Hpos |].
      destruct (Nat.eqb_spec i 1) as [-> | Hne]; [left; reflexivity |].
      right. apply Hs1. simpl in Hor. exact Hor.
  - destruct (pos =? 0); [| discriminate].
    exact (contSets_here _ _ _ _ _ _ Hk H).
  - destruct s; [| discriminate].
    exact (contSets_here _ _ _ _ _ _ Hk H).
Qed.

Lemma alwaysSets1_numSubexp :
  forall re, alwaysSets1 re = true -> (1 <= numSubexp re)%nat.
Proof.
  induction re; simpl; intro H; try discriminate.
  - apply orb_prop in H. destruct H as [H | H]; [apply IHre1 in H |
                                                  apply IHre2 in H]; lia.
  - apply andb_prop in H. destruct H as [H _]. apply IHre1 in H. lia.
  - apply orb_prop in H. destruct H as [H | H].
    + apply Nat.eqb_eq in H. lia.
    + apply IHre in H. lia.
Qed.

(** A turn of the loop with such a rule finds no match or replaces: it
    does not panic. *)
Lemma subTurn_no_fault :
  forall wt r txt,
    shrinking wt r = true -> alwaysSets1 (Pattern r) = true ->
    forall f, subTurn r txt <> Fault f.
Proof.
  intros wt r txt Hsh Hset f H. unfold subTurn in H.
  remember (FindStringSubmatchIndex (Pattern r) txt) as loc eqn:Hloc.
  destruct (0 <? length loc)%nat eqn:Hlen; [| discriminate].
  assert (Hne : loc <> []).
  { intro E. subst loc. rewrite E in Hlen. discriminate. }
  symmetry in Hloc. unfold FindStringSubmatchIndex in Hloc.
  destruct (search_sound _ _ _ _ _ Hloc Hne) as [p [s' [Hs Hm]]].
  assert (Hcoh : coh txt (0 + len p) s').
  { exists p. split; [exact Hs | lia]. }
  pose proof (matchAt_inv txt wt _ _ _ _ _ Hsh Hcoh Hm) as Hinv.
  pose proof (alwaysSets1_numSubexp _ Hset) as Hnum.
  assert (Hl : (4 <= length (nocap (Pattern r)))%nat).
  { unfold nocap. rewrite repeat_length. lia. }
  assert (Hg : (4 <= length loc)%nat /\ group1Set loc).
  { unfold matchAt in Hm.
    apply (rmatch_sets _ _ _ _ _ _ ((4 <= length loc)%nat /\ group1Set loc))
      in Hm; [exact Hm | pose proof (len_nonneg p); lia | exact Hl |].
    intros pos' s'' cap' Hp Hl' Hs' Hk. injection Hk as <-. split.
    - unfold setcap. rewrite !length_upd. lia.
    - apply group1Set_setcap; [lia | pose proof (len_nonneg p); lia |].
      right. apply Hs'. left. exact Hset. }
  destruct Hg as [Hl4 Hg]. unfold group1Set in Hg. unfold capInv in Hinv.
  destruct (nth_error loc 2) as [lo |] eqn:E2.
  2:{ apply nth_error_None in E2. lia. }
  destruct (nth_error loc 3) as [hi |] eqn:E3.
  2:{ apply nth_error_None in E3. lia. }
  rewrite (nth_error_nth _ _ _ E2) in Hg.
  destruct Hinv as [-> | [a [seg [b [HT [Hlo [Hhi HW]]]]]]]; [lia |].
  subst lo hi. clear Hs Hcoh Hm Hloc. subst txt.
  rewrite sliceTo_app in H.
  rewrite app_assoc, <- len_app, sliceFrom_app in H. discriminate.
Qed.

Lemma Sub_returns_within :
  forall wt r,
    shrinking wt r = true -> alwaysSets1 (Pattern r) = true ->
    forall m txt, (weight wt txt < m)%nat ->
      exists n txt', (n <= weight wt txt + 1)%nat /\ Sub n r txt = Done txt'.
Proof.
  intros wt r Hsh Hset m. induction m as [| m IH]; intros txt Hm; [lia |].
  destruct (subTurn r txt) as [| t1 | f] eqn:E.
  - exists 1%nat, txt. split; [lia |]. simpl. rewrite E. reflexivity.
  - pose proof (subTurn_shrinks _ _ _ _ Hsh E) as Hlt.
    destruct (IH t1) as [n [t' [Hn HS]]]; [lia |].
    exists (S n), t'. split; [lia |]. simpl. rewrite E. exact HS.
  - destruct (subTurn_no_fault wt r txt Hsh Hset f E).
Qed.

(** Fifteen of the eighteen rules of the tables return on every text,
    within [len(text) + 1] turns of the loop: no panic, no endless loop. *)
Theorem Sub_rule_with_group1_returns :
  forall r : Rule,
    In r rulesWithGroup1 ->
    forall txt : gostring,
      exists (n : nat) (txt' : gostring),
        (n <= length txt + 1)%nat /\ Sub n r txt = Done txt'.
Proof.
  intros r Hin txt.
  assert (H : forallb (fun r => (shrinking isPeriod r || shrinking anyByte r)
                                && alwaysSets1 (Pattern r)) rulesWithGroup1
              = true) by reflexivity.
  rewrite forallb_forall in H. specialize (H r Hin).
  apply andb_prop in H. destruct H as [Hsh Hset].
  assert (G : forall wt, shrinking wt r = true ->
                         exists (n : nat) (txt' : gostring),
                           (n <= length txt + 1)%nat /\ Sub n r txt = Done txt').
  { intros wt Hw.
    destruct (Sub_returns_within wt r Hw Hset (S (weight wt txt)) txt)
      as [n [t' [Hn HS]]]; [lia |].
    exists n, t'. split; [| exact HS].
    pose proof (weight_le_length wt txt). lia. }
  apply orb_prop in Hsh. destruct Hsh as [Hw | Hw]; eapply G; exact Hw.
Qed.

Lemma Sub_rule_with_group1_returns_witness :
  In fourConsecutiveRule rulesWithGroup1 /\
  exists (n : nat) (txt' : gostring),
    (n <= length (str "etc.... Then") + 1)%nat /\
    Sub n fourConsecutiveRule (str "etc.... Then") = Done txt'.
Proof.
  split.
  - vm_compute. tauto.
  - apply (Sub_rule_with_group1_returns fourConsecutiveRule).
    vm_compute. tauto.
Defined.

(** ** [possessiveAbbreviationRule] on every text *)

Lemma possessive_matchAt :
  forall pos s,
    matchAt (Pattern possessiveAbbreviationRule) pos s
    = if possessiveAt s then Some (possessiveLoc pos s) else None.
Proof.
  intros pos s.
  unfold matchAt, possessiveAt, possessiveLoc, possessiveSpace, possessiveEnd,
    possessiveHead.
  cbn [Pattern possessiveAbbreviationRule alts cats rmatch dot].
  destruct s as [| c1 s]; [reflexivity |].
  change (stripPrefix (str ".") (c1 :: s))
    with (if Ascii.eqb "." c1 then Some s else None).
  destruct (Ascii.eqb "." c1); [| destruct s as [| ? [| ? ?]]; reflexivity].
  destruct s as [| c2 s]; [reflexivity |].
  change (stripPrefix (str "'s") (c2 :: s))
    with (if Ascii.eqb "'" c2
          then match s with
               | [] => None
               | c3 :: s' => if Ascii.eqb "s" c3 then Some s' else None
               end
          else None).
  destruct (Ascii.eqb "'" c2); [| destruct s; reflexivity].
  destruct s as [| c3 s]; [reflexivity |].
  destruct (Ascii.eqb "s" c3); [| reflexivity].
  cbn [andb].
  rewrite (class_ascii isSpace _ _ isSpace_ascii).
  destruct s as [| w s].
  - cbn. repeat (f_equal; try lia).
  - destruct (isSpace (byteZ w)); [| reflexivity].
    cbn. repeat (f_equal; try lia).
Qed.

Lemma possessiveHead_Some :
  forall s rest,
    possessiveHead s = Some rest -> s = str ".'s" ++ rest.
Proof.
  intros s rest H. unfold possessiveHead in H.
  destruct s as [| c1 [| c2 [| c3 r]]]; try discriminate.
  destruct (Ascii.eqb "." c1) eqn:E1; [| discriminate].
  destruct (Ascii.eqb "'" c2) eqn:E2; [| discriminate].
  destruct (Ascii.eqb "s" c3) eqn:E3; [| discriminate].
  apply Ascii.eqb_eq in E1, E2, E3. subst. injection H as <-. reflexivity.
Qed.

Lemma possessiveAt_head :
  forall c s, possessiveAt (c :: s) = true -> c = "."%char.
Proof.
  intros c s H. unfold possessiveAt, possessiveSpace, possessiveEnd in H.
  destruct (possessiveHead (c :: s)) as [rest |] eqn:E; [| discriminate].
  apply possessiveHead_Some in E. simpl in E. congruence.
Qed.

Lemma possessiveAt_ascii :
  forall c s, possessiveAt (c :: s) = true -> byteZ c < 128.
Proof.
  intros c s H. apply possessiveAt_head in H. subst c. reflexivity.
Qed.

Lemma possessiveEnd_spec :
  forall s, possessiveEnd s = true -> s = str ".'s".
Proof.
  intros s H. unfold possessiveEnd in H.
  destruct (possessiveHead s) as [[| ? ?] |] eqn:E; try discriminate.
  apply possessiveHead_Some in E. rewrite app_nil_r in E. exact E.
Qed.

Lemma possessiveSpace_spec :
  forall s,
    possessiveSpace s = true ->
    exists w rest, s = str ".'s" ++ w :: rest /\ isSpace (byteZ w) = true.
Proof.
  intros s H. unfold possessiveSpace in H.
  destruct (possessiveHead s) as [[| w rest] |] eqn:E; try discriminate.
  apply possessiveHead_Some in E. eauto.
Qed.

Lemma firesSomewhere_suffix :
  forall fires p s,
    fires s = true -> firesSomewhere fires (p ++ s) = true.
Proof.
  intros fires p s H. induction p as [| c p IH].
  - destruct s; simpl; rewrite H; reflexivity.
  - simpl. rewrite IH. apply orb_true_r.
Qed.

Lemma firesSomewhere_weaker :
  forall (f g : gostring -> bool) s,
    (forall t, f t = true -> g t = true) ->
    firesSomewhere g s = false -> firesSomewhere f s = false.
Proof.
  intros f g s Hfg. induction s as [| c s IH]; intro H; simpl in *;
    apply orb_false_elim in H; destruct H as [H0 H1].
  - destruct (f []) eqn:E; [apply Hfg in E; congruence | reflexivity].
  - destruct (f (c :: s)) eqn:E; [apply Hfg in E; congruence |].
    simpl. exact (IH H1).
Qed.

Lemma zoneFreeOf_weaker :
  forall (f g : gostring -> bool) p s,
    (forall t, f t = true -> g t = true) ->
    zoneFreeOf g p s -> zoneFreeOf f p s.
Proof.
  intros f g p s Hfg Hz p1 p2 E Hne.
  destruct (f (p2 ++ s)) eqn:Ef; [| reflexivity].
  apply Hfg in Ef. rewrite (Hz p1 p2 E Hne) in Ef. discriminate.
Qed.

Lemma possessiveSpace_At : forall t, possessiveSpace t = true -> possessiveAt t = true.
Proof. intros t H. unfold possessiveAt. rewrite H. reflexivity. Qed.

Lemma possessiveEnd_At : forall t, possessiveEnd t = true -> possessiveAt t = true.
Proof. intros t H. unfold possessiveAt. rewrite H. apply orb_true_r. Qed.

Lemma maskPossessives_nowhere :
  forall mk s,
    firesSomewhere possessiveSpace s = false -> maskPossessives mk s = s.
Proof.
  intros mk s. induction s as [| c s IH]; intro H; [reflexivity |].
  cbn [firesSomewhere] in H. apply orb_false_elim in H. destruct H as [H0 H1].
  cbn [maskPossessives]. rewrite H0. f_equal. exact (IH H1).
Qed.

Lemma maskPossessives_zoneFree :
  forall mk p s,
    zoneFreeOf possessiveSpace p s ->
    maskPossessives mk (p ++ s) = p ++ maskPossessives mk s.
Proof.
  intros mk p. induction p as [| c p IH]; intros s Hz; [reflexivity |].
  change ((c :: p) ++ s) with (c :: p ++ s). cbn [maskPossessives].
  replace (possessiveSpace (c :: p ++ s)) with false
    by (symmetry; apply (Hz [] (c :: p)); [reflexivity | discriminate]).
  simpl. f_equal. apply IH. eapply zoneFreeOf_tail. exact Hz.
Qed.

(** [.'s] at the end of the text is further right than any text longer
    than three bytes. *)
Lemma possessiveEnd_zone :
  forall p s, (3 <= length s)%nat -> zoneFreeOf possessiveEnd p s.
Proof.
  intros p s Hs p1 p2 E Hne.
  destruct (possessiveEnd (p2 ++ s)) eqn:H; [| reflexivity].
  apply possessiveEnd_spec in H. apply (f_equal (@length ascii)) in H.
  rewrite length_app in H. change (length (str ".'s")) with 3%nat in H.
  destruct p2; [contradiction |]. simpl in H. lia.
Qed.

Section Possessive.

Variable mk : gostring.
Hypothesis Hmk : mk <> [].
Hypothesis Hhigh : forallb (fun x => 128 <=? byteZ x) mk = true.

Let rule : Rule :=
  {| Pattern := Pattern possessiveAbbreviationRule; Replacement := mk |}.

Lemma possessive_marker_head :
  exists b mk', mk = b :: mk' /\ 128 <= byteZ b.
Proof. exact (marker_head mk Hmk Hhigh). Qed.

(** The marker that replaces a period makes no new match. *)
Lemma possessive_zone_next :
  forall X s',
    zoneFreeOf possessiveAt X ("."%char :: s') ->
    zoneFreeOf possessiveAt (X ++ mk) s'.
Proof.
  intros X s' Hz p1 p2 E Hne.
  destruct (possessiveAt (p2 ++ s')) eqn:Hf; [| reflexivity].
  exfalso.
  destruct possessive_marker_head as [b [mk' [Emk Hb]]].
  assert (Hsp : isSpace (byteZ b) = false).
  { destruct (isSpace (byteZ b)) eqn:Es; [| reflexivity].
    apply isSpace_ascii in Es. lia. }
  assert (Hq : Ascii.eqb "'" b = false).
  { destruct (Ascii.eqb "'" b) eqn:Eb; [| reflexivity].
    apply Ascii.eqb_eq in Eb. subst b. change (byteZ "'") with 39 in Hb. lia. }
  assert (Hs : Ascii.eqb "s" b = false).
  { destruct (Ascii.eqb "s" b) eqn:Eb; [| reflexivity].
    apply Ascii.eqb_eq in Eb. subst b. change (byteZ "s") with 115 in Hb. lia. }
  assert (Hd : Ascii.eqb "." b = false).
  { destruct (Ascii.eqb "." b) eqn:Eb; [| reflexivity].
    apply Ascii.eqb_eq in Eb. subst b. change (byteZ ".") with 46 in Hb. lia. }
  destruct (app_eq_app _ _ _ _ E) as [t [[EX Ep] | [_ EY]]].
  - subst p2. destruct t as [| c1 t].
    + rewrite Emk in Hf. cbn [app] in Hf. apply possessiveAt_head in Hf.
      subst b. discriminate.
    + pose proof (Hz p1 (c1 :: t) EX ltac:(discriminate)) as Hno.
      rewrite Emk in Hf. rewrite <- app_assoc in Hf.
      unfold possessiveAt, possessiveSpace, possessiveEnd, possessiveHead
        in Hf, Hno.
      destruct t as [| c2 [| c3 [| c4 t]]]; cbn [app] in Hf, Hno.
      * rewrite Hq, andb_false_r in Hf. destruct mk', s'; discriminate.
      * rewrite Hs, andb_false_r in Hf. discriminate.
      * destruct (Ascii.eqb "." c1 && Ascii.eqb "'" c2 && Ascii.eqb "s" c3);
          [| discriminate].
        rewrite Hsp in Hf. discriminate.
      * destruct (Ascii.eqb "." c1 && Ascii.eqb "'" c2 && Ascii.eqb "s" c3);
          [| discriminate].
        rewrite Hf in Hno. discriminate.
  - assert (Hin : forall c s, p2 = c :: s -> In c mk).
    { intros c s ->. rewrite EY. apply in_or_app. right. left. reflexivity. }
    destruct p2 as [| c p2]; [contradiction |].
    cbn [app] in Hf. apply possessiveAt_head in Hf. subst c.
    pose proof (marker_high mk Hhigh) as F. rewrite Forall_forall in F.
    specialize (F _ (Hin _ _ eq_refl)). change (byteZ ".") with 46 in F. lia.
Qed.

Lemma Sub_possessive_from :
  forall n s pre,
    (length s < n)%nat -> zoneFreeOf possessiveAt pre s ->
    exists k, (k <= length s + 1)%nat /\
              Sub k rule (pre ++ s)
              = if firesSomewhere possessiveEnd s
                then Panics SliceBoundsOutOfRange
                else Done (pre ++ maskPossessives mk s).
Proof.
  induction n as [| n IH]; intros s pre Hlen Hz; [lia |].
  destruct (firesSomewhere possessiveAt s) eqn:Hs.
  - destruct (firesSomewhere_true _ _ Hs) as [s1 [s2 [-> [Hz1 Hf]]]].
    assert (Hz' : zoneFreeOf possessiveAt (pre ++ s1) s2)
      by (apply zoneFreeOf_app; assumption).
    pose proof (find_leftmost _ possessiveAt possessiveLoc
                              possessive_matchAt possessiveAt_ascii
                              (pre ++ s1) _ Hz' Hf) as Hfind.
    destruct (possessiveSpace s2) eqn:Hsp.
    + destruct (possessiveSpace_spec _ Hsp) as [w [rest [E Hw]]].
      remember ("'"%char :: "s"%char :: w :: rest) as s' eqn:Es'.
      assert (E2 : s2 = "."%char :: s') by (rewrite Es'; exact E).
      assert (Hl : length s' = (3 + length rest)%nat)
        by (rewrite Es'; reflexivity).
      rewrite E2 in Hsp.
      rewrite E2 in Hz'.
      destruct (IH s' ((pre ++ s1) ++ mk)) as [k [Hk HS]].
      { rewrite E2, length_app in Hlen. simpl in Hlen. lia. }
      { apply possessive_zone_next. exact Hz'. }
      exists (S k). split.
      { rewrite E2, length_app. simpl. lia. }
      cbn [Sub]. unfold subTurn. cbn [Pattern rule].
      rewrite app_assoc, Hfind. rewrite E2. unfold possessiveLoc. rewrite Hsp.
      cbn [length Nat.ltb Nat.leb nth_error].
      rewrite sliceTo_app.
      change ((pre ++ s1) ++ "."%char :: s')
        with ((pre ++ s1) ++ ["."%char] ++ s').
      rewrite app_assoc.
      replace (len (pre ++ s1) + 1) with (len ((pre ++ s1) ++ ["."%char]))
        by (rewrite (len_app (pre ++ s1)); reflexivity).
      rewrite sliceFrom_app. cbn [Replacement rule].
      rewrite app_assoc, HS.
      change (s1 ++ "."%char :: s') with (s1 ++ ["."%char] ++ s').
      rewrite (app_assoc s1).
      rewrite (firesSomewhere_app possessiveEnd (s1 ++ ["."%char]) s')
        by (apply possessiveEnd_zone; lia).
      destruct (firesSomewhere possessiveEnd s'); [reflexivity |].
      f_equal. rewrite <- (app_assoc s1).
      rewrite (maskPossessives_zoneFree mk s1 (["."%char] ++ s'))
        by (apply (zoneFreeOf_weaker _ _ _ _ possessiveSpace_At);
            change (["."%char] ++ s') with ("."%char :: s');
            rewrite <- E2; exact Hz1).
      change (["."%char] ++ s') with ("."%char :: s').
      cbn [maskPossessives]. rewrite Hsp, <- !app_assoc. reflexivity.
    + unfold possessiveAt in Hf. rewrite Hsp in Hf. cbn [orb] in Hf.
      exists 1%nat. split; [lia |].
      rewrite (firesSomewhere_suffix possessiveEnd s1 s2 Hf).
      cbn [Sub]. unfold subTurn. cbn [Pattern rule].
      rewrite app_assoc, Hfind. unfold possessiveLoc. rewrite Hsp.
      cbn [length Nat.ltb Nat.leb nth_error]. reflexivity.
  - exists 1%nat. split; [lia |].
    rewrite (firesSomewhere_weaker _ _ _ possessiveEnd_At Hs).
    cbn [Sub]. unfold subTurn. cbn [Pattern rule].
    rewrite (find_nowhere _ possessiveAt possessiveLoc possessive_matchAt).
    + cbn.
      rewrite (maskPossessives_nowhere mk _
                 (firesSomewhere_weaker _ _ _ possessiveSpace_At Hs)).
      reflexivity.
    + rewrite (firesSomewhere_app _ _ _ Hz). exact Hs.
Qed.

Lemma Sub_possessive :
  forall txt,
    exists k, (k <= length txt + 1)%nat /\
              Sub k rule txt
              = if firesSomewhere possessiveEnd txt
                then Panics SliceBoundsOutOfRange
                else Done (maskPossessives mk txt).
Proof.
  intro txt.
  destruct (Sub_possessive_from (S (length txt)) txt [])
    as [k [Hk HS]]; [lia | apply zoneFreeOf_nil |].
  exists k. auto.
Qed.

End Possessive.

(** [possessiveAbbreviationRule] on every text: a text that ends in [.'s]
    makes [Sub] panic on the slice bound [-1] of the group that did not
    take part, after the periods further left have been masked; any other
    text is returned with the period of every [.'s] that white space
    follows replaced by the marker, and nothing else changed. *)
Theorem possessiveAbbreviationRule_masks_or_panics :
  forall txt : gostring,
    exists k, (k <= length txt + 1)%nat /\
      Sub k possessiveAbbreviationRule txt
      = if firesSomewhere possessiveEnd txt
        then Panics SliceBoundsOutOfRange
        else Done (maskPossessives periodMarker txt).
Proof.
  intro txt.
  apply (Sub_possessive periodMarker); [discriminate | reflexivity].
Qed.

(** The texts on which the rule panics are those that end in [.'s]. *)
Lemma firesSomewhere_possessiveEnd :
  forall txt,
    firesSomewhere possessiveEnd txt = true <->
    exists p, txt = p ++ str ".'s".
Proof.
  intro txt. split.
  - intro H. destruct (firesSomewhere_true _ _ H) as [s1 [s2 [-> [_ Hf]]]].
    apply possessiveEnd_spec in Hf. subst s2. eauto.
  - intros [p ->]. apply firesSomewhere_suffix. reflexivity.
Qed.

(** ** Texts without an opening delimiter *)

Lemma search_never :
  forall (re : regex) (fires : gostring -> bool),
    (forall pos s, fires s = false -> matchAt re pos s = None) ->
    forall s pos skip,
      firesSomewhere fires s = false -> search re pos skip s = [].
Proof.
  intros re fires Hm.
  induction s as [| c s IH]; intros pos skip H; simpl in H;
    apply orb_false_elim in H; destruct H as [H0 H1].
  - destruct skip; cbn [search]; [| reflexivity].
    rewrite (Hm _ _ H0). reflexivity.
  - destruct skip as [| j]; cbn [search].
    + rewrite (Hm _ _ H0). apply IH. exact H1.
    + apply IH. exact H1.
Qed.

Lemma matchAt_Lit_first :
  forall o r pos s,
    startsWith o s = false -> matchAt (Cat (Lit o) r) pos s = None.
Proof.
  intros o r pos s H. unfold matchAt. cbn [rmatch].
  unfold startsWith in H. destruct (stripPrefix o s); [discriminate |].
  reflexivity.
Qed.

Lemma matchAt_space_Lit :
  forall o r pos s,
    nextStartsWith o s = false ->
    matchAt (Cat (Class isSpace) (Cat (Lit o) r)) pos s = None.
Proof.
  intros o r pos s H. unfold matchAt. cbn [rmatch].
  rewrite (class_ascii isSpace _ _ isSpace_ascii).
  destruct s as [| b s]; [reflexivity |].
  destruct (isSpace (byteZ b)); [| reflexivity].
  unfold nextStartsWith, startsWith in H.
  destruct (stripPrefix o s); [discriminate |]. reflexivity.
Qed.

Lemma nextStartsWith_nowhere :
  forall o s,
    occursIn o s = false -> firesSomewhere (nextStartsWith o) s = false.
Proof.
  intros o s. unfold occursIn. induction s as [| c s IH]; intro H.
  - reflexivity.
  - cbn [firesSomewhere] in H. apply orb_false_elim in H.
    destruct H as [_ H1]. cbn [firesSomewhere]. rewrite (IH H1).
    rewrite orb_false_r. cbn [nextStartsWith].
    destruct s; simpl in H1; apply orb_false_elim in H1; tauto.
Qed.

Lemma FindAllString_unmatched :
  forall re txt,
    FindStringSubmatchIndex re txt = [] -> FindAllString re txt = [].
Proof.
  intros re txt H. unfold FindAllString.
  replace (length txt + 2)%nat with (S (length txt + 1)) by lia.
  cbn [allMatches].
  replace (0 <=? len txt) with true
    by (symmetry; apply Z.leb_le; unfold len; lia).
  change (skipn (Z.to_nat 0) txt) with txt.
  unfold FindStringSubmatchIndex in H. rewrite H. reflexivity.
Qed.

Lemma subPat_unmatched :
  forall txt mtype pat,
    FindStringSubmatchIndex pat txt = [] -> subPat txt mtype pat = txt.
Proof.
  intros txt mtype pat H. unfold subPat, replace, replacePunctuation.
  rewrite (FindAllString_unmatched _ _ H). simpl. apply unescape_escape.
Qed.

Lemma subPat_without_opener :
  forall o r txt mtype,
    occursIn o txt = false -> subPat txt mtype (Cat (Lit o) r) = txt.
Proof.
  intros o r txt mtype H. apply subPat_unmatched.
  unfold FindStringSubmatchIndex.
  apply (search_never _ (startsWith o)); [| exact H].
  intros pos s Hs. apply matchAt_Lit_first. exact Hs.
Qed.

(** A text that holds no single quote, no double quote, no opening square
    bracket, no opening parenthesis and neither of the two opening quote
    marks of the source's patterns goes through [replaceBetweenQuotes]
    unchanged: none of the six patterns matches, and unescaping undoes the
    escaping. *)
Theorem replaceBetweenQuotes_without_openers :
  forall txt : gostring,
    (forall o, In o openers -> occursIn o txt = false) ->
    replaceBetweenQuotes txt = txt.
Proof.
  intros txt H. unfold replaceBetweenQuotes.
  assert (H1 : subPat txt (str "single") betweenSingleQuotesRE = txt).
  { apply subPat_unmatched. unfold FindStringSubmatchIndex.
    apply (search_never _ (nextStartsWith (str "'"))).
    - intros pos s Hs. apply matchAt_space_Lit. exact Hs.
    - apply nextStartsWith_nowhere. apply H. simpl. auto. }
  rewrite H1.
  assert (H2 : subPat txt (str "double") betweenDoubleQuotesRE = txt)
    by (apply subPat_without_opener; apply H; simpl; auto).
  rewrite H2.
  assert (H3 : subPat txt (str "double") betweenSquareBracketsRE = txt)
    by (apply subPat_without_opener; apply H; simpl; auto).
  rewrite H3.
  assert (H4 : subPat txt (str "double") betweenParensRE = txt)
    by (apply subPat_without_opener; apply H; simpl; auto).
  rewrite H4.
  assert (H5 : subPat txt (str "double") betweenArrowQuotesRE = txt)
    by (apply subPat_without_opener; apply H; simpl; auto 7).
  rewrite H5.
  apply subPat_without_opener. apply H. simpl. auto 8.
Qed.

Lemma replaceBetweenQuotes_without_openers_witness :
  (forall o, In o openers -> occursIn o examplePlain = false) /\
  replaceBetweenQuotes examplePlain = examplePlain.
Proof.
  assert (H : forall o, In o openers -> occursIn o examplePlain = false).
  { intros o Ho. simpl in Ho.
    repeat (destruct Ho as [<- | Ho]; [vm_compute; reflexivity |]).
    contradiction. }
  split; [exact H |].
  exact (replaceBetweenQuotes_without_openers examplePlain H).
Defined.

(** ** Matches with nothing to mask *)

Lemma replaceScan_no_occurrence :
  forall old new s,
    occursIn old s = false -> replaceScan old new 0 s = s.
Proof.
  intros old new s. unfold occursIn.
  induction s as [| c s IH]; intro H; [reflexivity |].
  cbn [firesSomewhere] in H. apply orb_false_elim in H. destruct H as [H0 H1].
  cbn [replaceScan]. unfold startsWith in H0.
  destruct (stripPrefix old (c :: s)); [discriminate |].
  f_equal. exact (IH H1).
Qed.

Lemma Replace_no_occurrence :
  forall s old new,
    old <> [] -> occursIn old s = false -> Replace s old new = s.
Proof.
  intros s old new Hne H. unfold Replace.
  destruct (eqbytes old new); [reflexivity |].
  destruct old; [contradiction |]. apply replaceScan_no_occurrence. exact H.
Qed.

Lemma sub_no_occurrence :
  forall rtext content a b,
    a <> [] -> occursIn a content = false ->
    sub rtext content a b = (rtext, content).
Proof.
  intros rtext content a b Hne H. unfold sub.
  rewrite (Replace_no_occurrence _ _ _ Hne H).
  unfold Replace. rewrite eqbytes_refl. reflexivity.
Qed.

Lemma startsWith_app :
  forall x y s, startsWith (x ++ y) s = true -> startsWith x s = true.
Proof.
  unfold startsWith. induction x as [| a x IH]; intros y s H.
  - reflexivity.
  - destruct s as [| b s]; [discriminate |]. simpl in *.
    destruct (Ascii.eqb a b); [| discriminate]. exact (IH _ _ H).
Qed.

Lemma occursIn_app :
  forall x y s, occursIn x s = false -> occursIn (x ++ y) s = false.
Proof.
  intros x y s. unfold occursIn. apply firesSomewhere_weaker.
  intro t. apply startsWith_app.
Qed.

(** Escaping neither makes nor hides an occurrence of a string of plain
    bytes. *)
Lemma startsWith_escape :
  forall x s,
    x <> [] -> forallb plainByte x = true ->
    startsWith x (escape s) = startsWith x s.
Proof.
  induction x as [| a x IH]; intros s Hne Hp; [contradiction |].
  cbn [forallb] in Hp. apply andb_prop in Hp. destruct Hp as [Ha Hx].
  unfold plainByte in Ha. apply andb_prop in Ha. destruct Ha as [Hr Hb].
  apply negb_true_iff in Hr, Hb.
  destruct s as [| c s]; [reflexivity |].
  rewrite escape_cons. destruct (isReserved c) eqn:Ec.
  - unfold startsWith. cbn [app stripPrefix].
    rewrite Ascii.eqb_sym, Hb.
    destruct (Ascii.eqb a c) eqn:Eac; [| reflexivity].
    apply Ascii.eqb_eq in Eac. congruence.
  - unfold startsWith. cbn [app stripPrefix].
    destruct (Ascii.eqb a c); [| reflexivity].
    destruct x as [| a' x]; [reflexivity |].
    apply (IH s); [discriminate | exact Hx].
Qed.

Lemma occursIn_escape :
  forall x s,
    x <> [] -> forallb plainByte x = true ->
    occursIn x (escape s) = occursIn x s.
Proof.
  intros x s Hne Hp. unfold occursIn.
  induction s as [| c s IH]; [reflexivity |].
  cbn [firesSomewhere]. rewrite <- IH.
  rewrite <- (startsWith_escape x (c :: s) Hne Hp).
  rewrite escape_cons. destruct (isReserved c) eqn:Ec; [| reflexivity].
  cbn [app firesSomewhere].
  replace (startsWith x (c :: escape s)) with false; [reflexivity |].
  destruct x as [| a x]; [contradiction |].
  cbn [forallb] in Hp. apply andb_prop in Hp. destruct Hp as [Ha _].
  unfold plainByte in Ha. apply andb_prop in Ha. destruct Ha as [Hr _].
  apply negb_true_iff in Hr.
  unfold startsWith. cbn [stripPrefix].
  destruct (Ascii.eqb a c) eqn:Eac; [| reflexivity].
  apply Ascii.eqb_eq in Eac. congruence.
Qed.

Lemma protect_nothing_to_mask :
  forall mtype rtext m,
    (forall x, In x (maskedStrings mtype) -> occursIn x m = false) ->
    protect mtype rtext m = rtext.
Proof.
  intros mtype rtext m H.
  assert (He : forall x, In x (maskedStrings mtype) ->
                         occursIn x (escape m) = false).
  { intros x Hx. rewrite occursIn_escape; [exact (H x Hx) | |];
      unfold maskedStrings in Hx; apply in_app_or in Hx;
      destruct Hx as [Hx | Hx].
    - simpl in Hx.
      repeat (destruct Hx as [<- | Hx]; [discriminate |]). contradiction.
    - destruct (eqbytes mtype (str "single")); [contradiction |].
      destruct Hx as [<- | []]. discriminate.
    - simpl in Hx.
      repeat (destruct Hx as [<- | Hx]; [reflexivity |]). contradiction.
    - destruct (eqbytes mtype (str "single")); [contradiction |].
      destruct Hx as [<- | []]. reflexivity. }
  assert (Hin : forall x, In x [str "."; str "гАВ"; str "пЉО"; str "пЉБ";
                                str "!"; str "?"] ->
                          occursIn x (escape m) = false).
  { intros x Hx. apply He. unfold maskedStrings. apply in_or_app. left.
    exact Hx. }
  unfold protect.
  rewrite sub_no_occurrence; [| discriminate | apply Hin; simpl; auto].
  rewrite sub_no_occurrence; [| discriminate | apply Hin; simpl; auto].
  rewrite sub_no_occurrence; [| discriminate | apply Hin; simpl; auto].
  rewrite sub_no_occurrence; [| discriminate | apply Hin; simpl; auto].
  rewrite sub_no_occurrence; [| discriminate | apply Hin; simpl; auto 6].
  rewrite sub_no_occurrence; [| discriminate | apply Hin; simpl; auto 7].
  rewrite sub_no_occurrence;
    [| discriminate
     | apply (occursIn_app (str "?") (str " ")); apply Hin; simpl; auto 7].
  destruct (eqbytes mtype (str "single")) eqn:Et; cbn [negb]; [reflexivity |].
  rewrite sub_no_occurrence; [reflexivity | discriminate |].
  apply He. unfold maskedStrings. rewrite Et. apply in_or_app. right.
  left. reflexivity.
Qed.

Lemma fold_protect_nothing_to_mask :
  forall (mtype : gostring) (ms : list gostring) (t : gostring),
    (forall m x, In m ms -> In x (maskedStrings mtype) ->
                 occursIn x m = false) ->
    fold_left (protect mtype) ms t = t.
Proof.
  intros mtype ms. induction ms as [| m ms IH]; intros t H; [reflexivity |].
  cbn [fold_left]. rewrite protect_nothing_to_mask.
  - apply IH. intros m' x Hm Hx. apply (H m' x); [right |]; assumption.
  - intros x Hx. apply (H m x); [left; reflexivity | exact Hx].
Qed.

(** [replacePunctuation] returns the text of the replacer unchanged when
    no match holds a mark to mask: a period, an exclamation mark, a
    question mark, one of the three wide marks as the source spells them
    and, for a kind other than [single], an apostrophe.  The reserved
    characters and backslashes of the text and of the matches make no
    difference. *)
Theorem replacePunctuation_nothing_to_mask :
  forall (r : punctuationReplacer) (ms : list gostring),
    (forall m x, In m ms -> In x (maskedStrings (matchType r)) ->
                 occursIn x m = false) ->
    replacePunctuation r ms = text r.
Proof.
  intros r ms H. unfold replacePunctuation.
  rewrite (fold_protect_nothing_to_mask _ _ _ H). apply unescape_escape.
Qed.

Lemma replacePunctuation_nothing_to_mask_witness :
  (forall m x,
      In m [str "(see [1-2])"; str "(and \ then)"] ->
      In x (maskedStrings (str "double")) -> occursIn x m = false) /\
  replacePunctuation
    {| matches := []; text := str "One (see [1-2]). Two (and \ then)!";
       matchType := str "double" |}
    [str "(see [1-2])"; str "(and \ then)"]
  = str "One (see [1-2]). Two (and \ then)!".
Proof.
  assert (H : forall m x,
             In m [str "(see [1-2])"; str "(and \ then)"] ->
             In x (maskedStrings (str "double")) -> occursIn x m = false).
  { intros m x Hm Hx. simpl in Hm.
    destruct Hm as [<- | [<- | []]]; vm_compute in Hx;
      repeat (destruct Hx as [<- | Hx]; [vm_compute; reflexivity |]);
      contradiction. }
  split; [exact H |].
  exact (replacePunctuation_nothing_to_mask
           {| matches := []; text := str "One (see [1-2]). Two (and \ then)!";
              matchType := str "double" |}
           [str "(see [1-2])"; str "(and \ then)"] H).
Defined.

(** ** Texts with nothing to mask *)

Lemma factorOf_refl : forall s, factorOf s s.
Proof. intro s. exists [], []. rewrite app_nil_r. reflexivity. Qed.

Lemma factorOf_trans :
  forall f g s, factorOf f g -> factorOf g s -> factorOf f s.
Proof.
  intros f g s [a [b ->]] [a' [b' ->]]. exists (a' ++ a), (b ++ b').
  rewrite <- !app_assoc. reflexivity.
Qed.

Lemma startsWith_longer :
  forall x s b, startsWith x s = true -> startsWith x (s ++ b) = true.
Proof.
  unfold startsWith. induction x as [| c x IH]; intros s b H; [reflexivity |].
  destruct s as [| d s]; [discriminate |]. simpl in *.
  destruct (Ascii.eqb c d); [| discriminate]. exact (IH _ _ H).
Qed.

Lemma occursIn_factor :
  forall x f s,
    factorOf f s -> occursIn x s = false -> occursIn x f = false.
Proof.
  intros x f s [a [b ->]] H. unfold occursIn in *.
  destruct (firesSomewhere (startsWith x) f) eqn:Hf; [| reflexivity].
  destruct (firesSomewhere_true _ _ Hf) as [f1 [f2 [-> [_ Hs]]]].
  apply (startsWith_longer _ _ b) in Hs.
  rewrite <- app_assoc, app_assoc in H.
  rewrite (firesSomewhere_suffix _ (a ++ f1) (f2 ++ b) Hs) in H.
  discriminate.
Qed.

Lemma substr_factor : forall txt lo hi, factorOf (substr txt lo hi) txt.
Proof.
  intros txt lo hi. unfold substr.
  exists (firstn (Z.to_nat lo) txt),
         (skipn (Z.to_nat (hi - lo)) (skipn (Z.to_nat lo) txt)).
  rewrite firstn_skipn, firstn_skipn. reflexivity.
Qed.

Lemma chunks_concat :
  forall fuel s,
    (length s <= fuel)%nat -> concat (map snd (chunks fuel s)) = s.
Proof.
  induction fuel as [| fuel IH]; intros s H.
  - destruct s; [reflexivity | simpl in H; lia].
  - cbn [chunks]. destruct (step s) as [[[r w] s'] |] eqn:E.
    + destruct (step_split _ _ _ _ E) as [seg [Es [Hw Hne]]].
      cbn [map concat snd]. rewrite IH.
      * subst s. unfold len in Hw. rewrite <- Hw, Nat2Z.id.
        rewrite firstn_app, Nat.sub_diag, firstn_all. simpl.
        rewrite app_nil_r. reflexivity.
      * subst s. rewrite length_app in H. destruct seg; [contradiction |].
        simpl in H. lia.
    + destruct s as [| b s]; [reflexivity |].
      destruct (step_cons_Some b s) as [c [w [rest E']]]. congruence.
Qed.

Lemma dropWhile_suffix :
  forall (A : Type) (p : A -> bool) (l : list A),
    exists l1, l = l1 ++ dropWhile p l.
Proof.
  intros A p l. induction l as [| x l [l1 IH]]; [exists []; reflexivity |].
  simpl. destruct (p x).
  - exists (x :: l1). simpl. congruence.
  - exists []. reflexivity.
Qed.

Lemma TrimSpace_factor : forall s, factorOf (TrimSpace s) s.
Proof.
  intro s. unfold TrimSpace. cbv zeta.
  set (sp := fun c : Z * gostring => unicodeIsSpace (fst c)).
  destruct (dropWhile_suffix _ sp (chunks (length s) s)) as [l1 E1].
  destruct (dropWhile_suffix _ sp
              (rev (dropWhile sp (chunks (length s) s)))) as [l2 E2].
  apply (f_equal (@rev _)) in E2. rewrite rev_involutive, rev_app_distr in E2.
  exists (concat (map snd l1)), (concat (map snd (rev l2))).
  rewrite <- !concat_app, <- !map_app, <- E2, <- E1.
  symmetry. apply chunks_concat. lia.
Qed.

Lemma subPat_nothing_to_mask :
  forall txt mtype pat,
    (forall x, In x (maskedStrings mtype) -> occursIn x txt = false) ->
    subPat txt mtype pat = txt.
Proof.
  intros txt mtype pat H. unfold subPat, replace, replacePunctuation.
  cbn [matches matchType text].
  rewrite fold_protect_nothing_to_mask; [apply unescape_escape |].
  intros m x Hm Hx.
  apply in_map_iff in Hm. destruct Hm as [c [<- Hc]].
  unfold FindAllString in Hc. apply in_map_iff in Hc.
  destruct Hc as [loc [<- _]].
  apply (occursIn_factor x _ txt); [| exact (H x Hx)].
  eapply factorOf_trans; [apply TrimSpace_factor | apply substr_factor].
Qed.

(** [replaceBetweenQuotes] returns unchanged every text that holds no
    period, no exclamation mark, no question mark, no apostrophe and none
    of the three wide marks as the source spells them, whatever spans it
    holds: the marks are all that the protector replaces. *)
Theorem replaceBetweenQuotes_nothing_to_mask :
  forall txt : gostring,
    (forall x, In x (maskedStrings (str "double")) ->
               occursIn x txt = false) ->
    replaceBetweenQuotes txt = txt.
Proof.
  intros txt H. unfold replaceBetweenQuotes.
  rewrite (subPat_nothing_to_mask txt (str "single")).
  - rewrite (subPat_nothing_to_mask txt (str "double") betweenDoubleQuotesRE H).
    rewrite (subPat_nothing_to_mask txt (str "double")
                                    betweenSquareBracketsRE H).
    rewrite (subPat_nothing_to_mask txt (str "double") betweenParensRE H).
    rewrite (subPat_nothing_to_mask txt (str "double") betweenArrowQuotesRE H).
    exact (subPat_nothing_to_mask txt (str "double") betweenSmartQuotesRE H).
  - intros x Hx. apply H.
    change (In x ([str "."; str "гАВ"; str "пЉО"; str "пЉБ"; str "!"; str "?"]
                  ++ [])) in Hx.
    rewrite app_nil_r in Hx.
    change (In x ([str "."; str "гАВ"; str "пЉО"; str "пЉБ"; str "!"; str "?"]
                  ++ [str "'"])).
    apply in_or_app. left. exact Hx.
Qed.

Lemma replaceBetweenQuotes_nothing_to_mask_witness :
  (forall x, In x (maskedStrings (str "double")) ->
             occursIn x exampleNoMarks = false) /\
  FindAllString betweenParensRE exampleNoMarks = [str "(span)"] /\
  replaceBetweenQuotes exampleNoMarks = exampleNoMarks.
Proof.
  assert (H : forall x, In x (maskedStrings (str "double")) ->
                        occursIn x exampleNoMarks = false).
  { intros x Hx. vm_compute in Hx.
    repeat (destruct Hx as [<- | Hx]; [vm_compute; reflexivity |]).
    contradiction. }
  split; [exact H |]. split; [vm_compute; reflexivity |].
  exact (replaceBetweenQuotes_nothing_to_mask exampleNoMarks H).
Defined.

(** ** The rules anchored at the start of the text *)

Lemma matchAt_BeginText_later :
  forall r pos s, pos <> 0 -> matchAt (Cat BeginText r) pos s = None.
Proof.
  intros r pos s H. unfold matchAt. cbn [rmatch].
  destruct (pos =? 0) eqn:E; [apply Z.eqb_eq in E; contradiction |].
  reflexivity.
Qed.

Lemma search_BeginText_later :
  forall r s pos skip, 0 < pos -> search (Cat BeginText r) pos skip s = [].
Proof.
  intros r. induction s as [| c s IH]; intros pos skip H.
  - destruct skip; cbn [search]; [| reflexivity].
    rewrite matchAt_BeginText_later by lia. reflexivity.
  - destruct skip; cbn [search].
    + rewrite matchAt_BeginText_later by lia. apply IH. lia.
    + apply IH. lia.
Qed.

Lemma find_BeginText :
  forall r txt,
    FindStringSubmatchIndex (Cat BeginText r) txt
    = match matchAt (Cat BeginText r) 0 txt with
      | Some loc => loc
      | None => []
      end.
Proof.
  intros r txt. unfold FindStringSubmatchIndex.
  destruct txt as [| c s]; cbn [search];
    destruct (matchAt (Cat BeginText r) 0 _); try reflexivity.
  apply search_BeginText_later. lia.
Qed.

(** A rule anchored at the start of the text whose matches set group 1 to
    the byte at offset [k], and whose replacement undoes the match: one
    replacement at most, at the start of the text. *)
Lemma Sub_at_start :
  forall (r : regex) (repl : gostring) (fires : gostring -> bool) (k : nat),
    (forall s, fires s = false -> matchAt (Cat BeginText r) 0 s = None) ->
    (forall s, fires s = true ->
               (S k <= length s)%nat /\
               exists e l, matchAt (Cat BeginText r) 0 s
                           = Some (0 :: e :: Z.of_nat k :: Z.of_nat k + 1 :: l)) ->
    (forall s, fires s = true -> fires (maskByteAt k repl s) = false) ->
    forall (n : nat) (txt : gostring),
      Sub (2 + n) {| Pattern := Cat BeginText r; Replacement := repl |} txt
      = Done (if fires txt then maskByteAt k repl txt else txt).
Proof.
  intros r repl fires k Hno Hyes Hgone n txt.
  assert (Hstop : forall m t, fires t = false ->
            Sub (S m) {| Pattern := Cat BeginText r; Replacement := repl |} t
            = Done t).
  { intros m t Ht. cbn [Sub]. unfold subTurn. cbn [Pattern].
    rewrite find_BeginText, (Hno t Ht). reflexivity. }
  change (2 + n)%nat with (S (S n)).
  destruct (fires txt) eqn:Hf; [| apply Hstop; exact Hf].
  destruct (Hyes txt Hf) as [Hlen [e [l Hm]]].
  cbn [Sub]. unfold subTurn at 1. cbn [Pattern Replacement].
  rewrite find_BeginText, Hm.
  cbn [length Nat.ltb Nat.leb nth_error].
  unfold sliceTo, sliceFrom, len.
  replace ((0 <=? Z.of_nat k) && (Z.of_nat k <=? Z.of_nat (length txt)))
    with true by (symmetry; apply andb_true_intro; split; apply Z.leb_le; lia).
  replace ((0 <=? Z.of_nat k + 1)
           && (Z.of_nat k + 1 <=? Z.of_nat (length txt)))
    with true by (symmetry; apply andb_true_intro; split; apply Z.leb_le; lia).
  rewrite Nat2Z.id.
  replace (Z.to_nat (Z.of_nat k + 1)) with (S k) by lia.
  apply (Hstop n). apply Hgone. exact Hf.
Qed.

(** The three rules whose patterns begin with [^] act at the start of the
    text only, never at the start of a later line: each returns the text
    unchanged, or with the marker in place of the one period that follows
    the leading digit, the two leading digits or the leading upper-case
    letter. *)
Theorem start_of_line_rules_act_at_text_start :
  forall (n : nat) (txt : gostring),
    Sub (2 + n) startLineNumberPeriodRule txt
    = Done (if digitPeriodAtStart txt
            then maskByteAt 1 periodMarker txt else txt) /\
    Sub (2 + n) startLineTwoDigitNumberPeriodRule txt
    = Done (if twoDigitsPeriodAtStart txt
            then maskByteAt 2 periodMarker txt else txt) /\
    Sub (2 + n) singleUpperCaseLetterAtStartOfLineRule txt
    = Done (if initialAtStart txt
            then maskByteAt 1 periodMarker txt else txt).
Proof.
  intros n txt. repeat split.
  - apply (Sub_at_start
             (cats [Class isDigit; Group 1 dot; anyOrParen])
             periodMarker digitPeriodAtStart 1).
    + intros s H. unfold matchAt. cbn [cats rmatch dot anyOrParen Z.eqb].
      rewrite (class_ascii isDigit _ _ isDigit_ascii).
      destruct s as [| d s]; [reflexivity |].
      destruct (isDigit (byteZ d)) eqn:Ed; [| reflexivity].
      destruct s as [| c s]; [reflexivity |].
      change (stripPrefix (str ".") (c :: s))
        with (if Ascii.eqb "." c then Some s else None).
      destruct (Ascii.eqb "." c) eqn:Ec; [| reflexivity].
      destruct s as [| x s]; [reflexivity |].
      unfold digitPeriodAtStart in H. rewrite Ed, Ec in H. discriminate.
    + intros s H. unfold digitPeriodAtStart in H.
      destruct s as [| d [| c [| x s]]]; try discriminate.
      apply andb_prop in H. destruct H as [Ed Ec].
      split; [simpl; lia |].
      unfold matchAt. cbn [cats rmatch dot anyOrParen Z.eqb].
      rewrite (class_ascii isDigit _ _ isDigit_ascii), Ed.
      change (stripPrefix (str ".") (c :: x :: s)) with
        (if Ascii.eqb "." c then Some (x :: s) else None).
      rewrite Ec. destruct (step_cons_Some x s) as [q [w [rest E]]].
      rewrite E. cbn. eauto.
    + intros s H. unfold digitPeriodAtStart in H.
      destruct s as [| d [| c [| x s]]]; try discriminate.
      cbn. rewrite andb_false_r. reflexivity.
  - apply (Sub_at_start
             (cats [Class isDigit; Class isDigit; Group 1 dot; anyOrParen])
             periodMarker twoDigitsPeriodAtStart 2).
    + intros s H. unfold matchAt. cbn [cats rmatch dot anyOrParen Z.eqb].
      rewrite (class_ascii isDigit _ _ isDigit_ascii).
      destruct s as [| d1 s]; [reflexivity |].
      destruct (isDigit (byteZ d1)) eqn:Ed1; [| reflexivity].
      rewrite (class_ascii isDigit _ _ isDigit_ascii).
      destruct s as [| d2 s]; [reflexivity |].
      destruct (isDigit (byteZ d2)) eqn:Ed2; [| reflexivity].
      destruct s as [| c s]; [reflexivity |].
      change (stripPrefix (str ".") (c :: s))
        with (if Ascii.eqb "." c then Some s else None).
      destruct (Ascii.eqb "." c) eqn:Ec; [| reflexivity].
      destruct s as [| x s]; [reflexivity |].
      unfold twoDigitsPeriodAtStart in H. rewrite Ed1, Ed2, Ec in H.
      discriminate.
    + intros s H. unfold twoDigitsPeriodAtStart in H.
      destruct s as [| d1 [| d2 [| c [| x s]]]]; try discriminate.
      apply andb_prop in H. destruct H as [H Ec].
      apply andb_prop in H. destruct H as [Ed1 Ed2].
      split; [simpl; lia |].
      unfold matchAt. cbn [cats rmatch dot anyOrParen Z.eqb].
      rewrite (class_ascii isDigit _ _ isDigit_ascii), Ed1.
      rewrite (class_ascii isDigit _ _ isDigit_ascii), Ed2.
      change (stripPrefix (str ".") (c :: x :: s)) with
        (if Ascii.eqb "." c then Some (x :: s) else None).
      rewrite Ec. destruct (step_cons_Some x s) as [q [w [rest E]]].
      rewrite E. cbn. eauto.
    + intros s H. unfold twoDigitsPeriodAtStart in H.
      destruct s as [| d1 [| d2 [| c [| x s]]]]; try discriminate.
      cbn. rewrite !andb_false_r. reflexivity.
  - apply (Sub_at_start
             (cats [Class isUpper; Group 1 dot; Class isSpace])
             periodMarker initialAtStart 1).
    + intros s H. unfold matchAt. cbn [cats rmatch dot Z.eqb].
      rewrite (class_ascii isUpper _ _ isUpper_ascii).
      destruct s as [| u s]; [reflexivity |].
      destruct (isUpper (byteZ u)) eqn:Eu; [| reflexivity].
      destruct s as [| c s]; [reflexivity |].
      change (stripPrefix (str ".") (c :: s))
        with (if Ascii.eqb "." c then Some s else None).
      destruct (Ascii.eqb "." c) eqn:Ec; [| reflexivity].
      rewrite (class_ascii isSpace _ _ isSpace_ascii).
      destruct s as [| w s]; [reflexivity |].
      destruct (isSpace (byteZ w)) eqn:Ew; [| reflexivity].
      unfold initialAtStart in H. rewrite Eu, Ec, Ew in H. discriminate.
    + intros s H. unfold initialAtStart in H.
      destruct s as [| u [| c [| w s]]]; try discriminate.
      apply andb_prop in H. destruct H as [H Ew].
      apply andb_prop in H. destruct H as [Eu Ec].
      split; [simpl; lia |].
      unfold matchAt. cbn [cats rmatch dot Z.eqb].
      rewrite (class_ascii isUpper _ _ isUpper_ascii), Eu.
      change (stripPrefix (str ".") (c :: w :: s)) with
        (if Ascii.eqb "." c then Some (w :: s) else None).
      rewrite Ec.
      rewrite (class_ascii isSpace _ _ isSpace_ascii), Ew.
      cbn. eauto.
    + intros s H. unfold initialAtStart in H.
      destruct s as [| u [| c [| w s]]]; try discriminate.
      cbn. rewrite andb_false_r. reflexivity.
Qed.

(** ** Rules that mask one byte of every occurrence *)

Section MaskLoop.

Variable re : regex.
Variable fires : gostring -> bool.
Variable locOf : Z -> gostring -> list Z.
Variable mk : gostring.
Variable k : nat.

Hypothesis Hmatch :
  forall pos s,
    matchAt re pos s = if fires s then Some (locOf pos s) else None.
Hypothesis Hascii : forall c s, fires (c :: s) = true -> byteZ c < 128.
Hypothesis Hloc :
  forall pos s,
    fires s = true ->
    exists e l,
      locOf pos s = pos :: e :: pos + Z.of_nat k :: pos + Z.of_nat k + 1 :: l.
Hypothesis Hlen : forall s, fires s = true -> (k < length s)%nat.
Hypothesis Hnext :
  forall X s,
    fires s = true -> zoneFreeOf fires X s ->
    zoneFreeOf fires (X ++ firstn k s ++ mk) (skipn (S k) s).

Let rule : Rule := {| Pattern := re; Replacement := mk |}.

Lemma maskOccurrences_due :
  forall j s,
    (j < length s)%nat ->
    maskOccurrences fires k mk (Some j) s
    = firstn j s ++ mk ++ maskOccurrences fires k mk None (skipn (S j) s).
Proof.
  induction j as [| j IH]; intros s H; destruct s as [| c s];
    try (simpl in H; lia).
  - reflexivity.
  - cbn [maskOccurrences firstn skipn app]. f_equal. apply IH.
    simpl in H. lia.
Qed.

Lemma maskOccurrences_fires :
  forall s,
    fires s = true ->
    maskOccurrences fires k mk None s
    = firstn k s ++ mk ++ maskOccurrences fires k mk None (skipn (S k) s).
Proof.
  intros s Hf. pose proof (Hlen s Hf) as Hl.
  rewrite <- (maskOccurrences_due k s Hl).
  destruct s as [| c s]; [simpl in Hl; lia |].
  cbn [maskOccurrences]. rewrite Hf. reflexivity.
Qed.

Lemma maskOccurrences_nowhere :
  forall s,
    firesSomewhere fires s = false -> maskOccurrences fires k mk None s = s.
Proof.
  induction s as [| c s IH]; intro H; [reflexivity |].
  cbn [firesSomewhere] in H. apply orb_false_elim in H. destruct H as [H0 H1].
  cbn [maskOccurrences]. rewrite H0. f_equal. exact (IH H1).
Qed.

Lemma maskOccurrences_zoneFree :
  forall p s,
    zoneFreeOf fires p s ->
    maskOccurrences fires k mk None (p ++ s)
    = p ++ maskOccurrences fires k mk None s.
Proof.
  induction p as [| c p IH]; intros s Hz; [reflexivity |].
  change ((c :: p) ++ s) with (c :: p ++ s). cbn [maskOccurrences].
  replace (fires (c :: p ++ s)) with false
    by (symmetry; apply (Hz [] (c :: p)); [reflexivity | discriminate]).
  simpl. f_equal. apply IH. eapply zoneFreeOf_tail. exact Hz.
Qed.

Lemma Sub_maskLoop_from :
  forall n s pre,
    (length s < n)%nat -> zoneFreeOf fires pre s ->
    exists j, (j <= length s + 1)%nat /\
              Sub j rule (pre ++ s)
              = Done (pre ++ maskOccurrences fires k mk None s).
Proof.
  induction n as [| n IH]; intros s pre Hlt Hz; [lia |].
  destruct (firesSomewhere fires s) eqn:Hs.
  - destruct (firesSomewhere_true _ _ Hs) as [s1 [s2 [-> [Hz1 Hf]]]].
    assert (Hz' : zoneFreeOf fires (pre ++ s1) s2)
      by (apply zoneFreeOf_app; assumption).
    pose proof (Hlen s2 Hf) as Hl.
    assert (Es2 : s2 = firstn k s2 ++ firstn 1 (skipn k s2) ++ skipn (S k) s2).
    { rewrite <- (firstn_skipn k s2) at 1. f_equal.
      rewrite <- (firstn_skipn 1 (skipn k s2)) at 1. f_equal.
      rewrite skipn_skipn. reflexivity. }
    assert (L1 : length (firstn k s2) = k) by (rewrite length_firstn; lia).
    assert (L2 : length (firstn 1 (skipn k s2)) = 1%nat)
      by (rewrite length_firstn, length_skipn; lia).
    destruct (IH (skipn (S k) s2) ((pre ++ s1) ++ firstn k s2 ++ mk))
      as [j [Hj HS]].
    { rewrite length_skipn. rewrite length_app in Hlt. lia. }
    { apply Hnext; assumption. }
    exists (S j). split.
    { rewrite length_skipn in Hj. rewrite length_app. lia. }
    assert (HsT : sliceTo ((pre ++ s1) ++ s2)
                          (len (pre ++ s1) + Z.of_nat k)
                  = Some ((pre ++ s1) ++ firstn k s2)).
    { rewrite Es2 at 1. rewrite app_assoc.
      replace (len (pre ++ s1) + Z.of_nat k)
        with (len ((pre ++ s1) ++ firstn k s2))
        by (rewrite (len_app (pre ++ s1)); unfold len; rewrite L1;
            reflexivity).
      apply sliceTo_app. }
    assert (HsF : sliceFrom ((pre ++ s1) ++ s2)
                            (len (pre ++ s1) + Z.of_nat k + 1)
                  = Some (skipn (S k) s2)).
    { rewrite Es2 at 1. rewrite !app_assoc.
      replace (len (pre ++ s1) + Z.of_nat k + 1)
        with (len (((pre ++ s1) ++ firstn k s2) ++ firstn 1 (skipn k s2)))
        by (rewrite !len_app; unfold len; rewrite L1, L2; lia).
      apply sliceFrom_app. }
    cbn [Sub]. unfold subTurn. cbn [Pattern rule].
    rewrite app_assoc.
    rewrite (find_leftmost _ fires locOf Hmatch Hascii (pre ++ s1) _ Hz' Hf).
    destruct (Hloc (len (pre ++ s1)) s2 Hf) as [e [l ->]].
    cbn [length Nat.ltb Nat.leb nth_error].
    rewrite HsT, HsF. cbn [Replacement rule].
    rewrite <- !app_assoc in HS. rewrite <- !app_assoc.
    rewrite HS. f_equal. f_equal.
    rewrite (maskOccurrences_zoneFree _ _ Hz1).
    rewrite (maskOccurrences_fires _ Hf). reflexivity.
  - exists 1%nat. split; [lia |].
    cbn [Sub]. unfold subTurn. cbn [Pattern rule].
    rewrite (find_nowhere _ fires locOf Hmatch).
    + cbn. rewrite (maskOccurrences_nowhere _ Hs). reflexivity.
    + rewrite (firesSomewhere_app _ _ _ Hz). exact Hs.
Qed.

Lemma Sub_maskLoop :
  forall txt,
    exists j, (j <= length txt + 1)%nat /\
              Sub j rule txt = Done (maskOccurrences fires k mk None txt).
Proof.
  intro txt.
  destruct (Sub_maskLoop_from (S (length txt)) txt [])
    as [j [Hj HS]]; [lia | apply zoneFreeOf_nil |].
  exists j. auto.
Qed.

End MaskLoop.

Lemma high_suffix_no_fire :
  forall (fires : gostring -> bool) (mk : gostring),
    forallb (fun x => 128 <=? byteZ x) mk = true ->
    (forall c s, fires (c :: s) = true -> byteZ c < 128) ->
    forall l p2 r, mk = l ++ p2 -> p2 <> [] -> fires (p2 ++ r) = false.
Proof.
  intros fires mk Hhigh Hascii l p2 r E Hne.
  destruct p2 as [| c p2]; [contradiction |].
  destruct (fires ((c :: p2) ++ r)) eqn:Hf; [| reflexivity].
  cbn [app] in Hf. apply Hascii in Hf.
  pose proof (marker_high mk Hhigh) as F. rewrite Forall_forall in F.
  assert (Hin : In c mk) by (rewrite E; apply in_or_app; right; left;
                             reflexivity).
  specialize (F _ Hin). simpl in F. lia.
Qed.

(** The zone stays free after a replacement when the marker neither
    completes an occurrence that starts in the bytes copied before it nor
    one that starts further left. *)
Lemma zone_next_of :
  forall (fires : gostring -> bool) (mk : gostring) (k : nat),
    mk <> [] ->
    forallb (fun x => 128 <=? byteZ x) mk = true ->
    (forall c s, fires (c :: s) = true -> byteZ c < 128) ->
    (forall s, fires s = true -> (k < length s)%nat) ->
    (forall s i, fires s = true -> (i < k)%nat ->
                 fires (skipn i (firstn k s) ++ mk ++ skipn (S k) s) = false) ->
    (forall s t, fires s = true -> t <> [] -> fires (t ++ s) = false ->
                 fires (t ++ firstn k s ++ mk ++ skipn (S k) s) = false) ->
    forall X s,
      fires s = true -> zoneFreeOf fires X s ->
      zoneFreeOf fires (X ++ firstn k s ++ mk) (skipn (S k) s).
Proof.
  intros fires mk k Hmk Hhigh Hascii Hlen Ha Hb X s Hf Hz p1 p2 E Hne.
  assert (Lk : length (firstn k s) = k)
    by (rewrite length_firstn; pose proof (Hlen s Hf); lia).
  assert (Hin : forall l l', firstn k s = l ++ l' -> l' <> [] ->
                             fires (l' ++ mk ++ skipn (S k) s) = false).
  { intros l l' Ef Hl'.
    assert (El' : l' = skipn (length l) (firstn k s)).
    { rewrite Ef, skipn_app, skipn_all, Nat.sub_diag. reflexivity. }
    rewrite El'. apply Ha; [exact Hf |].
    rewrite Ef, length_app in Lk. destruct l'; [contradiction |].
    simpl in Lk. lia. }
  destruct (app_eq_app _ _ _ _ E) as [l [[EX Ep] | [Ep1 Ea]]].
  - subst p2. rewrite <- !app_assoc. destruct l as [| y l].
    + cbn [app]. destruct (firstn k s) as [| a0 a] eqn:Ea.
      * cbn [app]. apply (high_suffix_no_fire fires mk Hhigh Hascii [] mk);
          [reflexivity | exact Hmk].
      * apply (Hin [] (a0 :: a)); [reflexivity | discriminate].
    + apply Hb; [exact Hf | discriminate |].
      apply (Hz p1 (y :: l) EX). discriminate.
  - destruct (app_eq_app _ _ _ _ Ea) as [l' [[Ef Ep] | [El Emk]]].
    + subst p2. rewrite <- app_assoc. destruct l' as [| y l'].
      * cbn [app]. apply (high_suffix_no_fire fires mk Hhigh Hascii [] mk);
          [reflexivity | exact Hmk].
      * apply (Hin l (y :: l')); [exact Ef | discriminate].
    + apply (high_suffix_no_fire fires mk Hhigh Hascii l' p2);
        [exact Emk | exact Hne].
Qed.

(** *** [kommanditgesellschaftRule] *)

Lemma coPeriodKG_spec :
  forall s,
    coPeriodKG s = true ->
    exists w rest,
      s = "C"%char :: "o"%char :: "."%char :: w :: "K"%char :: "G"%char :: rest
      /\ isSpace (byteZ w) = true.
Proof.
  intros s H. unfold coPeriodKG in H.
  destruct s as [| c1 [| c2 [| c3 [| w [| c5 [| c6 rest]]]]]];
    try discriminate.
  repeat (apply andb_prop in H; destruct H as [H ?]).
  repeat match goal with
         | E : Ascii.eqb _ _ = true |- _ => apply Ascii.eqb_eq in E
         end.
  subst. eauto.
Qed.

Lemma coPeriodKG_matchAt :
  forall pos s,
    matchAt (Pattern kommanditgesellschaftRule) pos s
    = if coPeriodKG s then Some [pos; pos + 6; pos + 2; pos + 3] else None.
Proof.
  intros pos s. unfold matchAt, coPeriodKG.
  cbn [Pattern kommanditgesellschaftRule cats rmatch dot].
  destruct s as [| c1 s]; [reflexivity |].
  change (stripPrefix (str "Co") (c1 :: s))
    with (if Ascii.eqb "C" c1
          then match s with
               | [] => None
               | c2 :: s' => if Ascii.eqb "o" c2 then Some s' else None
               end
          else None).
  destruct (Ascii.eqb "C" c1);
    [| destruct s as [| ? [| ? [| ? [| ? [| ? ?]]]]]; reflexivity].
  destruct s as [| c2 s]; [reflexivity |].
  destruct (Ascii.eqb "o" c2);
    [| destruct s as [| ? [| ? [| ? [| ? ?]]]]; reflexivity].
  destruct s as [| c3 s]; [reflexivity |].
  change (stripPrefix (str ".") (c3 :: s))
    with (if Ascii.eqb "." c3 then Some s else None).
  destruct (Ascii.eqb "." c3);
    [| destruct s as [| ? [| ? [| ? ?]]]; reflexivity].
  rewrite (class_ascii isSpace _ _ isSpace_ascii).
  destruct s as [| w s]; [reflexivity |].
  destruct (isSpace (byteZ w)); [| destruct s as [| ? [| ? ?]]; reflexivity].
  destruct s as [| c5 s]; [reflexivity |].
  change (stripPrefix (str "KG") (c5 :: s))
    with (if Ascii.eqb "K" c5
          then match s with
               | [] => None
               | c6 :: s' => if Ascii.eqb "G" c6 then Some s' else None
               end
          else None).
  destruct (Ascii.eqb "K" c5); [| destruct s; reflexivity].
  destruct s as [| c6 s]; [reflexivity |].
  destruct (Ascii.eqb "G" c6); [| reflexivity].
  cbn. repeat (f_equal; try lia).
Qed.

Lemma high_not_ascii :
  forall b c : ascii, 128 <= byteZ b -> byteZ c < 128 -> b <> c.
Proof. intros b c Hb Hc E. subst c. lia. Qed.

Lemma Sub_kommanditgesellschaft :
  forall mk : gostring,
    mk <> [] -> forallb (fun x => 128 <=? byteZ x) mk = true ->
    forall txt,
      exists j, (j <= length txt + 1)%nat /\
        Sub j {| Pattern := Pattern kommanditgesellschaftRule;
                 Replacement := mk |} txt
        = Done (maskOccurrences coPeriodKG 2 mk None txt).
Proof.
  intros mk Hmk Hhigh.
  destruct (marker_head mk Hmk Hhigh) as [b [mk' [Emk Hb]]].
  assert (Hbd : b <> "."%char) by (apply high_not_ascii; [exact Hb | reflexivity]).
  assert (Hascii : forall c s, coPeriodKG (c :: s) = true -> byteZ c < 128).
  { intros c s H. apply coPeriodKG_spec in H.
    destruct H as [w [rest [E _]]]. injection E as -> _. reflexivity. }
  assert (Hlen : forall s, coPeriodKG s = true -> (2 < length s)%nat).
  { intros s H. apply coPeriodKG_spec in H.
    destruct H as [w [rest [-> _]]]. simpl. lia. }
  apply (Sub_maskLoop (Pattern kommanditgesellschaftRule) coPeriodKG
                      (fun pos _ => [pos; pos + 6; pos + 2; pos + 3]) mk 2
                      coPeriodKG_matchAt Hascii).
  - intros pos s _. exists (pos + 6), []. repeat (f_equal; try lia).
  - exact Hlen.
  - apply (zone_next_of coPeriodKG mk 2 Hmk Hhigh Hascii Hlen).
    + intros s i Hf Hi. apply coPeriodKG_spec in Hf.
      destruct Hf as [w [rest [-> Hw]]]. rewrite Emk.
      cbn [firstn skipn app].
      match goal with |- coPeriodKG ?x = false =>
        destruct (coPeriodKG x) eqn:E; [exfalso | reflexivity] end.
      apply coPeriodKG_spec in E. destruct E as [w' [rest' [E _]]].
      destruct i as [| [| i]]; [| | lia]; cbn [skipn app] in E;
        congruence.
    + intros s t Hf Hne Hno. apply coPeriodKG_spec in Hf.
      destruct Hf as [w [rest [-> Hw]]]. rewrite Emk.
      cbn [firstn skipn app].
      destruct t as [| y1 [| y2 [| y3 [| y4 [| y5 [| y6 t]]]]]];
        [contradiction | | | | | |];
        cbn [app] in Hno |- *; try exact Hno;
        match goal with |- coPeriodKG ?x = false =>
          destruct (coPeriodKG x) eqn:E; [exfalso | reflexivity] end;
        apply coPeriodKG_spec in E; destruct E as [w' [rest' [E Hw']]];
        congruence.
Qed.

(** On every text [kommanditgesellschaftRule] returns, within
    [len(text) + 1] turns, the text with the marker in place of the period
    of every [Co.] that a white-space byte and [KG] follow, and nothing
    else changed. *)
Theorem kommanditgesellschaftRule_masks :
  forall txt : gostring,
    exists j, (j <= length txt + 1)%nat /\
      Sub j kommanditgesellschaftRule txt
      = Done (maskOccurrences coPeriodKG 2 periodMarker None txt).
Proof.
  intro txt.
  apply (Sub_kommanditgesellschaft periodMarker); [discriminate | reflexivity].
Qed.

(** *** [numberAfterPeriodBeforeLetterRule] *)

Lemma step_isSpace :
  forall (x : ascii) (s r : gostring) (q w : Z),
    step (x :: s) = Some (q, w, r) -> isSpace q = isSpace (byteZ x).
Proof.
  intros x s r q w E.
  destruct (Z.ltb_spec (byteZ x) 128) as [Hlt | Hge].
  - rewrite step_ascii in E by exact Hlt. injection E as <- _ _. reflexivity.
  - destruct (step_high _ _ _ _ _ Hge E) as [Hq _].
    destruct (isSpace q) eqn:E1; [apply isSpace_ascii in E1; lia |].
    destruct (isSpace (byteZ x)) eqn:E2; [apply isSpace_ascii in E2; lia |].
    reflexivity.
Qed.

Lemma digitPeriodNonSpace_spec :
  forall s,
    digitPeriodNonSpace s = true ->
    exists d x rest,
      s = d :: "."%char :: x :: rest /\ isDigit (byteZ d) = true.
Proof.
  intros s H. unfold digitPeriodNonSpace in H.
  destruct s as [| d [| c [| x rest]]]; try discriminate.
  apply andb_prop in H. destruct H as [H _].
  apply andb_prop in H. destruct H as [Hd Hc].
  apply Ascii.eqb_eq in Hc. subst c. eauto.
Qed.

Lemma digitPeriodNonSpace_matchAt :
  forall pos s,
    matchAt (Pattern numberAfterPeriodBeforeLetterRule) pos s
    = if digitPeriodNonSpace s
      then Some [pos; pos + 2 + width (skipn 2 s); pos + 1; pos + 2]
      else None.
Proof.
  intros pos s. unfold matchAt, digitPeriodNonSpace.
  cbn [Pattern numberAfterPeriodBeforeLetterRule cats rmatch dot].
  rewrite (class_ascii isDigit _ _ isDigit_ascii).
  destruct s as [| d s]; [reflexivity |].
  destruct (isDigit (byteZ d)); [| destruct s as [| ? [| ? ?]]; reflexivity].
  destruct s as [| c s]; [reflexivity |].
  change (stripPrefix (str ".") (c :: s))
    with (if Ascii.eqb "." c then Some s else None).
  destruct (Ascii.eqb "." c); [| destruct s; reflexivity].
  destruct s as [| x s]; [reflexivity |].
  destruct (step_cons_Some x s) as [q [w [r E]]]. rewrite E.
  unfold notSpace. rewrite (step_isSpace _ _ _ _ _ E).
  destruct (isSpace (byteZ x)); [reflexivity |].
  cbn [skipn andb negb]. unfold width. rewrite E.
  cbn. repeat (f_equal; try lia).
Qed.

Lemma Sub_numberAfterPeriodBeforeLetter :
  forall mk : gostring,
    mk <> [] -> forallb (fun x => 128 <=? byteZ x) mk = true ->
    forall txt,
      exists j, (j <= length txt + 1)%nat /\
        Sub j {| Pattern := Pattern numberAfterPeriodBeforeLetterRule;
                 Replacement := mk |} txt
        = Done (maskOccurrences digitPeriodNonSpace 1 mk None txt).
Proof.
  intros mk Hmk Hhigh.
  destruct (marker_head mk Hmk Hhigh) as [b [mk' [Emk Hb]]].
  assert (Hbd : b <> "."%char)
    by (apply high_not_ascii; [exact Hb | reflexivity]).
  assert (Hascii : forall c s,
             digitPeriodNonSpace (c :: s) = true -> byteZ c < 128).
  { intros c s H. apply digitPeriodNonSpace_spec in H.
    destruct H as [d [x [rest [E Hd]]]]. injection E as -> _.
    apply isDigit_ascii. exact Hd. }
  assert (Hlen : forall s, digitPeriodNonSpace s = true ->
                           (1 < length s)%nat).
  { intros s H. apply digitPeriodNonSpace_spec in H.
    destruct H as [d [x [rest [-> _]]]]. simpl. lia. }
  apply (Sub_maskLoop (Pattern numberAfterPeriodBeforeLetterRule)
                      digitPeriodNonSpace
                      (fun pos s => [pos; pos + 2 + width (skipn 2 s);
                                     pos + 1; pos + 2]) mk 1
                      digitPeriodNonSpace_matchAt Hascii).
  - intros pos s _. exists (pos + 2 + width (skipn 2 s)), [].
    repeat (f_equal; try lia).
  - exact Hlen.
  - apply (zone_next_of digitPeriodNonSpace mk 1 Hmk Hhigh Hascii Hlen).
    + intros s i Hf Hi. apply digitPeriodNonSpace_spec in Hf.
      destruct Hf as [d [x [rest [-> Hd]]]]. rewrite Emk.
      cbn [firstn skipn app].
      match goal with |- digitPeriodNonSpace ?y = false =>
        destruct (digitPeriodNonSpace y) eqn:E; [exfalso | reflexivity] end.
      apply digitPeriodNonSpace_spec in E.
      destruct E as [d' [x' [rest' [E _]]]].
      destruct i as [| i]; [| lia]. cbn [skipn app] in E. congruence.
    + intros s t Hf Hne Hno. apply digitPeriodNonSpace_spec in Hf.
      destruct Hf as [d [x [rest [-> Hd]]]]. rewrite Emk.
      cbn [firstn skipn app].
      destruct t as [| y1 [| y2 [| y3 t]]];
        [contradiction | | |]; cbn [app] in Hno |- *; try exact Hno.
      match goal with |- digitPeriodNonSpace ?y = false =>
        destruct (digitPeriodNonSpace y) eqn:E; [exfalso | reflexivity] end.
      apply digitPeriodNonSpace_spec in E.
      destruct E as [d' [x' [rest' [E _]]]].
      injection E as _ E2 _. subst d. discriminate Hd.
Qed.

(** On every text [numberAfterPeriodBeforeLetterRule] returns, within
    [len(text) + 1] turns, the text with the marker in place of every
    period that stands between an ASCII digit and a byte other than ASCII
    white space, the occurrences taken from left to right, and nothing
    else changed; so does its second copy with its own marker. *)
Theorem numberAfterPeriodBeforeLetterRule_masks :
  forall txt : gostring,
    (exists j, (j <= length txt + 1)%nat /\
       Sub j numberAfterPeriodBeforeLetterRule txt
       = Done (maskOccurrences digitPeriodNonSpace 1 periodMarker None txt)) /\
    (exists j, (j <= length txt + 1)%nat /\
       Sub j (Part000.respelled numberAfterPeriodBeforeLetterRule) txt
       = Done (maskOccurrences digitPeriodNonSpace 1 Part000.periodMarker
                               None txt)).
Proof.
  intro txt. split.
  - apply (Sub_numberAfterPeriodBeforeLetter periodMarker);
      [discriminate | reflexivity].
  - apply (Sub_numberAfterPeriodBeforeLetter Part000.periodMarker);
      [discriminate | reflexivity].
Qed.

(** *** [newLineNumberPeriodSpaceLetterRule] *)

Lemma newline_ascii : forall c, oneOf [10; 13] c = true -> c < 128.
Proof.
  intros c H. unfold oneOf in H. cbn [existsb] in H.
  rewrite orb_false_r in H. apply orb_prop in H.
  destruct H as [H | H]; apply Z.eqb_eq in H; lia.
Qed.

Lemma newline_not_digit :
  forall c, oneOf [10; 13] c = true -> isDigit c = true -> False.
Proof.
  intros c H Hd. unfold oneOf in H. cbn [existsb] in H.
  rewrite orb_false_r in H. apply orb_prop in H.
  unfold isDigit, inRange in Hd. apply andb_prop in Hd.
  destruct Hd as [Hd _]. apply Z.leb_le in Hd.
  destruct H as [H | H]; apply Z.eqb_eq in H; lia.
Qed.

Lemma newlineDigitPeriod_spec :
  forall s,
    newlineDigitPeriod s = true ->
    exists nl d x rest,
      s = nl :: d :: "."%char :: x :: rest
      /\ oneOf [10; 13] (byteZ nl) = true /\ isDigit (byteZ d) = true.
Proof.
  intros s H. unfold newlineDigitPeriod in H.
  destruct s as [| nl [| d [| c [| x rest]]]]; try discriminate.
  apply andb_prop in H. destruct H as [H Hc].
  apply andb_prop in H. destruct H as [Hn Hd].
  apply Ascii.eqb_eq in Hc. subst c. exists nl, d, x, rest. auto.
Qed.

Lemma newlineDigitPeriod_matchAt :
  forall pos s,
    matchAt (Pattern newLineNumberPeriodSpaceLetterRule) pos s
    = if newlineDigitPeriod s
      then Some [pos; pos + 3 + width (skipn 3 s); pos + 2; pos + 3]
      else None.
Proof.
  intros pos s. unfold matchAt, newlineDigitPeriod.
  cbn [Pattern newLineNumberPeriodSpaceLetterRule cats rmatch dot anyOrParen].
  rewrite (class_ascii (oneOf [10; 13]) _ _ newline_ascii).
  destruct s as [| nl s]; [reflexivity |].
  destruct (oneOf [10; 13] (byteZ nl));
    [| destruct s as [| ? [| ? [| ? ?]]]; reflexivity].
  rewrite (class_ascii isDigit _ _ isDigit_ascii).
  destruct s as [| d s]; [reflexivity |].
  destruct (isDigit (byteZ d)); [| destruct s as [| ? [| ? ?]]; reflexivity].
  destruct s as [| c s]; [reflexivity |].
  change (stripPrefix (str ".") (c :: s))
    with (if Ascii.eqb "." c then Some s else None).
  destruct (Ascii.eqb "." c); [| destruct s; reflexivity].
  destruct s as [| x s]; [reflexivity |].
  destruct (step_cons_Some x s) as [q [w [r E]]]. rewrite E.
  cbn [skipn andb anyRune]. unfold width. rewrite E.
  cbn. repeat (f_equal; try lia).
Qed.

Lemma Sub_newLineNumberPeriodSpaceLetter :
  forall mk : gostring,
    mk <> [] -> forallb (fun x => 128 <=? byteZ x) mk = true ->
    forall txt,
      exists j, (j <= length txt + 1)%nat /\
        Sub j {| Pattern := Pattern newLineNumberPeriodSpaceLetterRule;
                 Replacement := mk |} txt
        = Done (maskOccurrences newlineDigitPeriod 2 mk None txt).
Proof.
  intros mk Hmk Hhigh.
  destruct (marker_head mk Hmk Hhigh) as [b [mk' [Emk Hb]]].
  assert (Hbd : b <> "."%char)
    by (apply high_not_ascii; [exact Hb | reflexivity]).
  assert (Hascii : forall c s,
             newlineDigitPeriod (c :: s) = true -> byteZ c < 128).
  { intros c s H. apply newlineDigitPeriod_spec in H.
    destruct H as [nl [d [x [rest [E [Hn _]]]]]]. injection E as -> _.
    apply newline_ascii. exact Hn. }
  assert (Hlen : forall s, newlineDigitPeriod s = true ->
                           (2 < length s)%nat).
  { intros s H. apply newlineDigitPeriod_spec in H.
    destruct H as [nl [d [x [rest [-> _]]]]]. simpl. lia. }
  apply (Sub_maskLoop (Pattern newLineNumberPeriodSpaceLetterRule)
                      newlineDigitPeriod
                      (fun pos s => [pos; pos + 3 + width (skipn 3 s);
                                     pos + 2; pos + 3]) mk 2
                      newlineDigitPeriod_matchAt Hascii).
  - intros pos s _. exists (pos + 3 + width (skipn 3 s)), [].
    repeat (f_equal; try lia).
  - exact Hlen.
  - apply (zone_next_of newlineDigitPeriod mk 2 Hmk Hhigh Hascii Hlen).
    + intros s i Hf Hi. apply newlineDigitPeriod_spec in Hf.
      destruct Hf as [nl [d [x [rest [-> [Hn Hd]]]]]]. rewrite Emk.
      cbn [firstn skipn app].
      match goal with |- newlineDigitPeriod ?y = false =>
        destruct (newlineDigitPeriod y) eqn:E; [exfalso | reflexivity] end.
      apply newlineDigitPeriod_spec in E.
      destruct E as [nl' [d' [x' [rest' [E [Hn' Hd']]]]]].
      destruct i as [| [| i]]; [| | lia]; cbn [skipn app] in E.
      * congruence.
      * injection E as E1 _. subst nl'.
        exact (newline_not_digit _ Hn' Hd).
    + intros s t Hf Hne Hno. apply newlineDigitPeriod_spec in Hf.
      destruct Hf as [nl [d [x [rest [-> [Hn Hd]]]]]]. rewrite Emk.
      cbn [firstn skipn app].
      destruct t as [| y1 [| y2 [| y3 [| y4 t]]]];
        [contradiction | | | |]; cbn [app] in Hno |- *; exact Hno.
Qed.

(** On every text [newLineNumberPeriodSpaceLetterRule] returns, within
    [len(text) + 1] turns, the text with the marker in place of every
    period that follows a line feed or carriage return and an ASCII digit
    and is not the last byte of the text, and nothing else changed; so
    does its second copy with its own marker. *)
Theorem newLineNumberPeriodSpaceLetterRule_masks :
  forall txt : gostring,
    (exists j, (j <= length txt + 1)%nat /\
       Sub j newLineNumberPeriodSpaceLetterRule txt
       = Done (maskOccurrences newlineDigitPeriod 2 periodMarker None txt)) /\
    (exists j, (j <= length txt + 1)%nat /\
       Sub j (Part000.respelled newLineNumberPeriodSpaceLetterRule) txt
       = Done (maskOccurrences newlineDigitPeriod 2 Part000.periodMarker
                               None txt)).
Proof.
  intro txt. split.
  - apply (Sub_newLineNumberPeriodSpaceLetter periodMarker);
      [discriminate | reflexivity].
  - apply (Sub_newLineNumberPeriodSpaceLetter Part000.periodMarker);
      [discriminate | reflexivity].
Qed.
